(** * wordpress-export-to-markdown: translation groups, path planning and writers

    A shallow embedding of the parser (post types and the posts collected,
    translation metadata, image merging, frontmatter fields, [setNested],
    [buildTranslationGroups], [chooseBaseSlug]) and of the writer (payload
    planning for Markdown files and images, the payload executor and the
    Markdown loader), followed by the properties the specification states
    about them and by further properties of the code.

    Conventions of the embedding:
    - JavaScript strings are [string]; [undefined]/[null] where the code can
      produce them are [None] in an [option], or the [JUndefined]/[JNull]
      constructors of [JsVal] for frontmatter values.
    - A plain JavaScript object used as a dictionary is a [JsObject]: its own
      properties in creation order.  [Object_entries] gives the traversal
      order of the language (array-index keys first, ascending; then the
      other keys in creation order).  Keys are assumed not to name members of
      [Object.prototype].
    - The global [shared.config] is a record passed explicitly.
    - The file system is the set of paths that exist. *)

From Stdlib Require Import ZArith Lia.
From stdpp Require Import base list strings gmap sorting pretty.

(** ** JavaScript strings *)

(** The double-quote character, as a one-character string. *)
Definition dquote : string := String (Ascii.ascii_of_nat 34) EmptyString.

(** The newline character [\n], as a one-character string. *)
Definition newline : string := String (Ascii.ascii_of_nat 10) EmptyString.

(** [Array.prototype.join(sep)] on an array of strings. *)
Definition join (sep : string) (parts : list string) : string :=
  String.concat sep parts.

(** [s.split(sep)] for a one-character separator: the pieces between the
    occurrences of [sep]; a string without [sep] gives one piece. *)
Fixpoint split_on (sep : Ascii.ascii) (s : string) : list string :=
  match s with
  | EmptyString => [EmptyString]
  | String c rest =>
      if Ascii.eqb c sep then EmptyString :: split_on sep rest
      else match split_on sep rest with
           | piece :: pieces => String c piece :: pieces
           | [] => [String c EmptyString]
           end
  end.

(** [s.includes(c)] for a one-character needle. *)
Fixpoint includes_char (c : Ascii.ascii) (s : string) : bool :=
  match s with
  | EmptyString => false
  | String d rest => Ascii.eqb d c || includes_char c rest
  end.

(** [arr.slice().sort()] on an array of strings: the default order is
    lexicographic on character codes, which is [String.le]. *)
Definition js_sort (l : list string) : list string := merge_sort String.le l.

(** ** Plain objects used as dictionaries *)

(** The type of a dictionary with values in [V]. *)
Abbreviation JsObject V := (list (string * V)) (only parsing).

(** [o[k]]; [None] is [undefined]. *)
Fixpoint obj_get {V} (o : JsObject V) (k : string) : option V :=
  match o with
  | [] => None
  | (k', v) :: rest => if String.eqb k' k then Some v else obj_get rest k
  end.

(** [o[k] = v]: an existing property keeps its place, a new one is created
    last. *)
Fixpoint obj_set {V} (o : JsObject V) (k : string) (v : V) : JsObject V :=
  match o with
  | [] => [(k, v)]
  | (k', v') :: rest =>
      if String.eqb k' k then (k', v) :: rest else (k', v') :: obj_set rest k v
  end.

(** The decimal digits, and the number a string of digits denotes. *)
Definition is_digit (c : Ascii.ascii) : bool :=
  let n := Ascii.N_of_ascii c in (48 <=? n)%N && (n <=? 57)%N.

Fixpoint digits_value (acc : N) (s : string) : option N :=
  match s with
  | EmptyString => Some acc
  | String c rest =>
      if is_digit c
      then digits_value (acc * 10 + (Ascii.N_of_ascii c - 48))%N rest
      else None
  end.

(** A property key is an array index when it is the canonical decimal form
    of an integer below 2^32 - 1; such keys are traversed first, in
    ascending numeric order. *)
Definition array_index (k : string) : option N :=
  match k with
  | EmptyString => None
  | String c rest =>
      if Ascii.eqb c (Ascii.ascii_of_nat 48)
         && negb (String.eqb rest EmptyString)
      then None
      else match digits_value 0 k with
           | Some n => if (n <? 4294967295)%N then Some n else None
           | None => None
           end
  end.

(** The entries whose keys are array indices, each with its index, ordered
    by [index_le], and the other entries. *)
Definition index_le {V} (a b : N * (string * V)) : Prop := (a.1 <= b.1)%N.

#[global] Instance index_le_dec {V} : RelDecision (@index_le V) :=
  fun a b => N.le_dec a.1 b.1.

Definition indexed_entries {V} (o : JsObject V) : list (N * (string * V)) :=
  omap (fun kv => n ← array_index kv.1; Some (n, kv)) o.

Definition named_entries {V} (o : JsObject V) : list (string * V) :=
  filter (fun kv => array_index kv.1 = None) o.

(** [Object.entries(o)]. *)
Definition Object_entries {V} (o : JsObject V) : list (string * V) :=
  (snd <$> merge_sort index_le (indexed_entries o)) ++ named_entries o.

(** [Object.keys(o)] and [Object.values(o)]. *)
Definition Object_keys {V} (o : JsObject V) : list string :=
  fst <$> Object_entries o.

Definition Object_values {V} (o : JsObject V) : list V :=
  snd <$> Object_entries o.

(** ** Frontmatter values *)

(** A luxon [DateTime], by the three renderings the writer asks of it. *)
Record DateTime := {
  toISO : string;
  toISODate : string;
  toFormat : string -> string
}.

(** The values a frontmatter getter or an unserialized meta value can be.
    [JInt] holds a number for which [Number.isInteger] is true, in the
    range where [toString] prints all its digits; the entries of a [JObj]
    are in creation order. *)
#[warnings="-register-all"] Inductive JsVal :=
| JUndefined
| JNull
| JBool (b : bool)
| JInt (z : Z)
| JStr (s : string)
| JDate (d : DateTime)
| JArr (items : list JsVal)
| JObj (entries : list (string * JsVal)).

(** [String(v)], which is also what a template literal [`${v}`] inserts.
    An array is its elements joined by commas, with [null] and [undefined]
    elements left empty. *)
Fixpoint to_string (v : JsVal) : string :=
  match v with
  | JUndefined => "undefined"
  | JNull => "null"
  | JBool true => "true"
  | JBool false => "false"
  | JInt z => pretty z
  | JStr s => s
  | JDate d => toISO d
  | JArr items =>
      join "," (map (fun x => match x with
                              | JUndefined | JNull => EmptyString
                              | _ => to_string x
                              end) items)
  | JObj _ => "[object Object]"
  end.

(** ** Posts *)

Module Polylang.
(** The [post.polylang] container of parseFilePromise, step 7. *)
Record t := {
  language : option string;
  groupSlug : option string;
  translationMap : option (JsObject string)
}.
End Polylang.

Module Post.
(** The object built by [buildPost] and enriched by [parseFilePromise],
    by the properties the grouping and the writer read.  [language] is the
    top-level property [post.language] that [chooseBaseSlug] reads; [None]
    when the object has no such property ([undefined]).  [polylang] is the
    container step 7 of the parser gives every post. *)
Record t := {
  id : string;
  type : string;
  slug : string;
  language : option string;
  isDraft : bool;
  coverImageId : option string;
  coverImage : option string;
  imageUrls : list string;
  content : string;
  frontmatter : JsObject JsVal;
  metaContent : JsObject string;
  polylang : Polylang.t
}.
End Post.

(** ** parser.js: translation groups *)

(** The group key computed in the loop body of [buildTranslationGroups]. *)
Definition groupKey (post : Post.t) : string :=
  match Polylang.translationMap (Post.polylang post) with
  | Some tm =>
      if bool_decide (0 < length (Object_keys tm))
      then join "," (js_sort (Object_values tm))
      else Post.id post
  | None => Post.id post
  end.

(** The body of the loop of [buildTranslationGroups]: create the group of
    the key if there is none, then push the post. *)
Definition addToGroup (groups : JsObject (list Post.t)) (post : Post.t)
  : JsObject (list Post.t) :=
  let key := groupKey post in
  let groups1 :=
    match obj_get groups key with
    | None => obj_set groups key []
    | Some _ => groups
    end in
  obj_set groups1 key (default [] (obj_get groups1 key) ++ [post]).

(** [buildTranslationGroups]. *)
Definition buildTranslationGroups (allPosts : list Post.t)
  : JsObject (list Post.t) :=
  foldl addToGroup [] allPosts.

(** [chooseBaseSlug]; [None] is the TypeError of [postsInGroup[0].slug] on
    an empty array.  [defaultLangCode] is [None] when the configuration
    value is [undefined]. *)
Definition chooseBaseSlug (postsInGroup : list Post.t)
    (defaultLangCode : option string) : option string :=
  match List.find (fun p => bool_decide (Post.language p = defaultLangCode))
                  postsInGroup with
  | Some candidate => Some (Post.slug candidate)
  | None => Post.slug <$> head postsInGroup
  end.

(** ** parser.js: translation metadata and images *)

(** What the console receives: [console.log] of a string or of an array of
    strings, [console.warn] of a text and an error, and a call of
    [shared.logHeading], of shared.js, which this development does not
    have: the call is recorded with the text it is given. *)
Inductive ConsoleLine :=
| Log (text : string)
| LogArray (items : list string)
| Warn (text : string) (err : string)
| Heading (text : string).

(** The result of a call that may throw. *)
Inductive Outcome (A : Type) :=
| Returned (a : A)
| Threw (message : string).
Arguments Returned {A} a.
Arguments Threw {A} message.

(** A [<term>] node of the export, by the child values the parser reads. *)
Record Term := {
  term_taxonomy : string;
  term_slug : string;
  term_description : string
}.

(** A [<category>] tag of an item, by its two attributes. *)
Record Category := {
  domain : string;
  nicename : string
}.

(** An [<item>] node of the export, by the child values the parser reads;
    [thumbnail_id] is the [_thumbnail_id] post meta value. *)
Record Item := {
  post_id : string;
  post_type : string;
  post_name : string;
  status : string;
  encoded : string;
  thumbnail_id : option string;
  categories : list Category
}.

(** An image found by [collectAttachedImages] or [collectScrapedImages]. *)
Record Image := {
  image_id : string;
  image_postId : string;
  image_url : string
}.

Definition slash : Ascii.ascii := Ascii.ascii_of_nat 47.

(** [Object.fromEntries]. *)
Definition Object_fromEntries {V} (entries : list (string * V)) : JsObject V :=
  foldl (fun o kv => obj_set o kv.1 kv.2) [] entries.

(** Modelled from the spec: [shared.getFilenameFromUrl], of shared.js, which
    this development does not have: the URL's final path segment. *)
Definition getFilenameFromUrl (url : string) : string :=
  default EmptyString (last (split_on slash url)).

Definition set_images (post : Post.t) (cover : option string)
    (urls : list string) : Post.t :=
  {| Post.id := Post.id post; Post.type := Post.type post;
     Post.slug := Post.slug post; Post.language := Post.language post;
     Post.isDraft := Post.isDraft post;
     Post.coverImageId := Post.coverImageId post;
     Post.coverImage := cover; Post.imageUrls := urls;
     Post.content := Post.content post;
     Post.frontmatter := Post.frontmatter post;
     Post.metaContent := Post.metaContent post;
     Post.polylang := Post.polylang post |}.

(** The body of the inner loop of [mergeImagesIntoPosts]. *)
Definition attachImage (image : Image) (post : Post.t) : Post.t :=
  let isAttachment := bool_decide (image_postId image = Post.id post) in
  let isCover := bool_decide (Some (image_id image) = Post.coverImageId post) in
  let cover :=
    if isCover then Some (getFilenameFromUrl (image_url image))
    else Post.coverImage post in
  let shouldAttach := isAttachment || isCover in
  let urls :=
    if shouldAttach && negb (bool_decide (image_url image ∈ Post.imageUrls post))
    then Post.imageUrls post ++ [image_url image]
    else Post.imageUrls post in
  set_images post cover urls.

Definition mergeImagesIntoPosts (images : list Image) (posts : list Post.t)
  : list Post.t :=
  foldl (fun posts image => attachImage image <$> posts) posts images.

Definition set_polylang (post : Post.t) (pl : Polylang.t) : Post.t :=
  {| Post.id := Post.id post; Post.type := Post.type post;
     Post.slug := Post.slug post; Post.language := Post.language post;
     Post.isDraft := Post.isDraft post;
     Post.coverImageId := Post.coverImageId post;
     Post.coverImage := Post.coverImage post;
     Post.imageUrls := Post.imageUrls post;
     Post.content := Post.content post;
     Post.frontmatter := Post.frontmatter post;
     Post.metaContent := Post.metaContent post;
     Post.polylang := pl |}.

Definition set_frontmatter (post : Post.t) (fm : JsObject JsVal) : Post.t :=
  {| Post.id := Post.id post; Post.type := Post.type post;
     Post.slug := Post.slug post; Post.language := Post.language post;
     Post.isDraft := Post.isDraft post;
     Post.coverImageId := Post.coverImageId post;
     Post.coverImage := Post.coverImage post;
     Post.imageUrls := Post.imageUrls post;
     Post.content := Post.content post;
     Post.frontmatter := fm;
     Post.metaContent := Post.metaContent post;
     Post.polylang := Post.polylang post |}.

Definition set_slug (post : Post.t) (s : string) : Post.t :=
  {| Post.id := Post.id post; Post.type := Post.type post;
     Post.slug := s; Post.language := Post.language post;
     Post.isDraft := Post.isDraft post;
     Post.coverImageId := Post.coverImageId post;
     Post.coverImage := Post.coverImage post;
     Post.imageUrls := Post.imageUrls post;
     Post.content := Post.content post;
     Post.frontmatter := Post.frontmatter post;
     Post.metaContent := Post.metaContent post;
     Post.polylang := Post.polylang post |}.

(** The loop over an item's [<category>] tags in step 7: the last tag of a
    domain wins. *)
Definition readCategories (cats : list Category) : Polylang.t :=
  foldl (fun pl cat =>
           let pl1 :=
             if bool_decide (domain cat = "language")
             then {| Polylang.language := Some (nicename cat);
                     Polylang.groupSlug := Polylang.groupSlug pl;
                     Polylang.translationMap := Polylang.translationMap pl |}
             else pl in
           if bool_decide (domain cat = "post_translations")
           then {| Polylang.language := Polylang.language pl1;
                   Polylang.groupSlug := Some (nicename cat);
                   Polylang.translationMap := Polylang.translationMap pl1 |}
           else pl1)
        {| Polylang.language := None; Polylang.groupSlug := None;
           Polylang.translationMap := None |}
        cats.

(** [gs && termMappings[gs]]: the translation map of a group slug, when the
    slug is a non-empty string and a mapping was recorded for it. *)
Definition lookupTranslationMap (termMappings : JsObject (JsObject string))
    (gs : option string) : option (JsObject string) :=
  match gs with
  | Some slug =>
      if bool_decide (slug = EmptyString) then None
      else obj_get termMappings slug
  | None => None
  end.

Definition polylangOf (termMappings : JsObject (JsObject string))
    (item : Item) : Polylang.t :=
  let pl := readCategories (categories item) in
  {| Polylang.language := Polylang.language pl;
     Polylang.groupSlug := Polylang.groupSlug pl;
     Polylang.translationMap :=
       lookupTranslationMap termMappings (Polylang.groupSlug pl) |}.

(** Step 7 of [parseFilePromise].  [postById] holds references into the
    post array, so it is a dictionary from id to array position, and the
    assignment to [post.polylang] updates the array in place. *)
Definition postById (posts : list Post.t) : JsObject nat :=
  Object_fromEntries (imap (fun i p => (Post.id p, i)) posts).

(** The body of the loop of step 7, for one item. *)
Definition attachItem (termMappings : JsObject (JsObject string))
    (byId : JsObject nat) (posts : list Post.t) (item : Item) : list Post.t :=
  match obj_get byId (post_id item) with
  | None => posts
  | Some i =>
      match posts !! i with
      | Some post =>
          <[i := set_polylang post (polylangOf termMappings item)]> posts
      | None => posts
      end
  end.

Definition attachPolylang (termMappings : JsObject (JsObject string))
    (allPostData : list Item) (posts : list Post.t) : list Post.t :=
  foldl (attachItem termMappings (postById posts)) posts allPostData.

(** What step 7 makes of one post when the ids of the items are distinct:
    it gets the container of the item with its id, if there is one. *)
Definition enriched (termMappings : JsObject (JsObject string))
    (allPostData : list Item) (post : Post.t) : Post.t :=
  match List.find (fun item => bool_decide (post_id item = Post.id post))
                  allPostData with
  | Some item => set_polylang post (polylangOf termMappings item)
  | None => post
  end.

(** The warning of step 6 for a term that cannot be unserialized. *)
Definition warning (slug err : string) : ConsoleLine :=
  Warn ("⚠️ Could not parse term_description for " +:+ slug) err.

Section Parser.
(** External collaborators: [unserialize] of the php-serialize package
    (restricted to the objects it returns; it throws on malformed input),
    [decodeURIComponent], the HTML translator, the meta content extraction
    of [buildPost] and the frontmatter getters of [populateFrontmatter]. *)
Variable unserialize : string -> Outcome (JsObject JsVal).
Variable decodeURIComponent : string -> string.
Variable getPostContent : string -> string.
Variable getMetaContent : Item -> JsObject string.
Variable getFrontmatter : Post.t -> JsObject JsVal.

(** [buildPost].  The object literal has no [language] property.  The
    [polylang] container is created in step 7 for every post; it starts
    here with the values step 7 initialises it to. *)
Definition buildPost (data : Item) : Post.t :=
  {| Post.id := post_id data;
     Post.type := post_type data;
     Post.slug := decodeURIComponent (post_name data);
     Post.language := None;
     Post.isDraft := bool_decide (status data = "draft");
     Post.coverImageId := thumbnail_id data;
     Post.coverImage := None;
     Post.imageUrls := [];
     Post.content := getPostContent (encoded data);
     Post.frontmatter := [];
     Post.metaContent := getMetaContent data;
     Post.polylang := {| Polylang.language := None;
                         Polylang.groupSlug := None;
                         Polylang.translationMap := None |} |}.

(** The body of the loop over [<term>] nodes in step 6, with its
    [try]/[catch]. *)
Definition parseTerm (st : JsObject (JsObject string) * list ConsoleLine)
    (term : Term) : JsObject (JsObject string) * list ConsoleLine :=
  let '(termMappings, console) := st in
  if bool_decide (term_taxonomy term = "post_translations") then
    match unserialize (term_description term) with
    | Returned parsed =>
        (obj_set termMappings (term_slug term)
           (Object_fromEntries
              ((fun kv => (kv.1, to_string kv.2)) <$> Object_entries parsed)),
         console)
    | Threw err =>
        (termMappings, console ++ [warning (term_slug term) err])
    end
  else st.

Definition parseTermMappings (terms : list Term)
  : JsObject (JsObject string) * list ConsoleLine :=
  foldl parseTerm ([], []) terms.

Definition populateFrontmatter (posts : list Post.t) : list Post.t :=
  (fun post => set_frontmatter post (getFrontmatter post)) <$> posts.

(** [parseFilePromise].  [allPostData] is every [<item>] of the export and
    [collected] the items for which [collectPosts] and the category filters
    keep a post, in the order of the posts; the result is the posts and the
    warnings of step 6.  The other lines the parser logs (its heading and
    the numbers of posts and images found) belong to the steps that are
    arguments here and are not part of the result. *)
Definition parseFilePromise (allPostData collected : list Item)
    (images : list Image) (terms : list Term)
  : list Post.t * list ConsoleLine :=
  let posts := buildPost <$> collected in
  let posts := mergeImagesIntoPosts images posts in
  let '(termMappings, console) := parseTermMappings terms in
  let posts := attachPolylang termMappings allPostData posts in
  (populateFrontmatter posts, console).

End Parser.

(** ** writer.js: configuration, paths and the file system *)

Module Config.
(** The fields of [shared.config] the writer reads.  [defaultLanguage] is
    [None] when the property is [undefined]. *)
Record t := {
  polylang : bool;
  postFolders : bool;
  output : string;
  defaultLanguage : option string;
  writeDelay : nat;
  requestDelay : nat;
  dateFormat : string;
  includeTime : bool;
  quoteDate : bool
}.
End Config.

(** [path.join(a, b)] on POSIX, for operands already in normal form (no
    empty, [.] or [..] segment), where it is concatenation with a
    separator. *)
Definition path_join (a b : string) : string := a +:+ "/" +:+ b.

(** [path.dirname(p)] on POSIX for such a path: everything before the last
    separator, or [.] when there is none. *)
Definition path_dirname (p : string) : string :=
  match split_on slash p with
  | [] | [_] => "."
  | segments => join "/" (removelast segments)
  end.

(** Modelled from the spec: [shared.buildPostPath], of shared.js, which
    this development does not have: [{output}/{slug}/index.md] with
    per-post folders, [{output}/{slug}.md] without. *)
Definition buildPostPath (cfg : Config.t) (post : Post.t) : string :=
  if Config.postFolders cfg
  then path_join (path_join (Config.output cfg) (Post.slug post)) "index.md"
  else path_join (Config.output cfg) (Post.slug post +:+ ".md").

(** The paths that exist (files and directories). *)
Definition FS : Type := gset string.

(** [fs.existsSync(path)], also [checkFile]. *)
Definition existsSync (fs : FS) (path : string) : bool :=
  bool_decide (path ∈ fs).

(** ** writer.js: payload planning *)

Inductive PayloadItem :=
| PostItem (post : Post.t)
| ImageItem (imageUrl : string).

Module Payload.
(** [name] is [None] for the payloads of Markdown files, whose object
    literal has no such property. *)
Record t := {
  item : PayloadItem;
  type : string;
  name : option string;
  destinationPath : string;
  delay : nat
}.
End Payload.

(** The three local variables of a planning loop. *)
Record Plan := {
  existingCount : nat;
  delay : nat;
  payloads : list Payload.t
}.

Definition emptyPlan : Plan :=
  {| existingCount := 0; delay := 0; payloads := [] |}.

(** The test every planning loop makes for one destination: count it when
    it exists, else push a payload and advance the delay. *)
Definition planPayload (fs : FS) (delayStep : nat)
    (payloadAt : nat -> Payload.t) (destinationPath : string) (st : Plan)
  : Plan :=
  if existsSync fs destinationPath
  then {| existingCount := S (existingCount st);
          delay := delay st;
          payloads := payloads st |}
  else {| existingCount := existingCount st;
          delay := delay st + delayStep;
          payloads := payloads st ++ [payloadAt (delay st)] |}.

Definition markdownPayload (post : Post.t) (destinationPath : string)
    (delay : nat) : Payload.t :=
  {| Payload.item := PostItem post;
     Payload.type := Post.type post;
     Payload.name := None;
     Payload.destinationPath := destinationPath;
     Payload.delay := delay |}.

Definition planPost (cfg : Config.t) (fs : FS) (destinationPath : string)
    (post : Post.t) (st : Plan) : Plan :=
  planPayload fs (Config.writeDelay cfg)
    (markdownPayload post destinationPath) destinationPath st.

(** [post.polylang.language || 'und']. *)
Definition langOf (post : Post.t) : string :=
  match Polylang.language (Post.polylang post) with
  | Some lang => if bool_decide (lang = EmptyString) then "und" else lang
  | None => "und"
  end.

(** The destination of one translation of a group.  [groupFolder] is
    [Some] exactly when per-post folders are on, so the test on it is the
    test of [shared.config.postFolders] in the source. *)
Definition translationPath (cfg : Config.t) (groupFolder : option string)
    (baseSlug : string) (post : Post.t) : string :=
  let lang := langOf post in
  match groupFolder with
  | Some folder => path_join folder ("index." +:+ lang +:+ ".md")
  | None => buildPostPath cfg (set_slug post (baseSlug +:+ "." +:+ lang))
  end.

(** The body of the loop over groups in [writeMarkdownFilesPromise].
    [None] is a TypeError. *)
Definition planMarkdownGroup (cfg : Config.t) (fs : FS)
    (postsInGroup : list Post.t) (st : Plan) : option Plan :=
  if Config.polylang cfg && bool_decide (1 < length postsInGroup) then
    baseSlug ← chooseBaseSlug postsInGroup (Config.defaultLanguage cfg);
    first ← head postsInGroup;
    let basePath := buildPostPath cfg (set_slug first baseSlug) in
    let groupFolder :=
      if Config.postFolders cfg then Some (path_dirname basePath) else None in
    Some (foldl (fun st post =>
                   planPost cfg fs
                     (translationPath cfg groupFolder baseSlug post) post st)
                st postsInGroup)
  else
    Some (foldl (fun st post => planPost cfg fs (buildPostPath cfg post) post st)
                st postsInGroup).

(** The loop over the entries of the group map, shared by the two
    planners. *)
Fixpoint planGroups (planGroup : list Post.t -> Plan -> option Plan)
    (entries : list (string * list Post.t)) (st : Plan) : option Plan :=
  match entries with
  | [] => Some st
  | (_, postsInGroup) :: rest =>
      st' ← planGroup postsInGroup st;
      planGroups planGroup rest st'
  end.

(** The planning part of [writeMarkdownFilesPromise]. *)
Definition planMarkdownFiles (cfg : Config.t) (fs : FS)
    (groupMap : JsObject (list Post.t)) : option Plan :=
  planGroups (planMarkdownGroup cfg fs) (Object_entries groupMap) emptyPlan.

Definition imagePayload (imageUrl filename destinationPath : string)
    (delay : nat) : Payload.t :=
  {| Payload.item := ImageItem imageUrl;
     Payload.type := "image";
     Payload.name := Some filename;
     Payload.destinationPath := destinationPath;
     Payload.delay := delay |}.

(** The body of the loop over [post.imageUrls]. *)
Definition planImage (cfg : Config.t) (fs : FS) (dir : string) (st : Plan)
    (imageUrl : string) : Plan :=
  let filename := getFilenameFromUrl imageUrl in
  let destinationPath := path_join dir filename in
  planPayload fs (Config.requestDelay cfg)
    (imagePayload imageUrl filename destinationPath) destinationPath st.

(** The images directory of a single post. *)
Definition postImagesDir (cfg : Config.t) (post : Post.t) : string :=
  path_join (path_dirname (buildPostPath cfg post)) "images".

(** The images directory shared by the members of a Polylang group. *)
Definition groupImagesDir (cfg : Config.t) (baseSlug : string) : string :=
  let groupFolder :=
    if Config.postFolders cfg
    then path_join (Config.output cfg) baseSlug
    else Config.output cfg in
  path_join groupFolder "images".

(** The body of the loop over groups in [writeImageFilesPromise]. *)
Definition planImageGroup (cfg : Config.t) (fs : FS)
    (postsInGroup : list Post.t) (st : Plan) : option Plan :=
  if Config.polylang cfg && bool_decide (1 < length postsInGroup) then
    baseSlug ← chooseBaseSlug postsInGroup (Config.defaultLanguage cfg);
    let imagesDir := groupImagesDir cfg baseSlug in
    Some (foldl (fun st post =>
                   foldl (planImage cfg fs imagesDir) st (Post.imageUrls post))
                st postsInGroup)
  else
    Some (foldl (fun st post =>
                   foldl (planImage cfg fs (postImagesDir cfg post)) st
                         (Post.imageUrls post))
                st postsInGroup).

(** The planning part of [writeImageFilesPromise]. *)
Definition planImageFiles (cfg : Config.t) (fs : FS)
    (groupMap : JsObject (list Post.t)) : option Plan :=
  planGroups (planImageGroup cfg fs) (Object_entries groupMap) emptyPlan.

(** The group map of [writeFilesPromise]. *)
Definition groupMapOf (cfg : Config.t) (posts : list Post.t)
  : JsObject (list Post.t) :=
  if Config.polylang cfg then buildTranslationGroups posts
  else foldl (fun groupMap post => obj_set groupMap (Post.id post) [post])
             [] posts.

(** The line [logSavingMessage] logs after its heading. *)
Definition savingSummary (things : string)
    (existingCount remainingCount : nat) : ConsoleLine :=
  if bool_decide (existingCount + remainingCount = 0) then
    Log ("No " +:+ things +:+ " to save.")
  else if bool_decide (existingCount = 0) then
    Log (pretty remainingCount +:+ " " +:+ things +:+ " to save.")
  else if bool_decide (remainingCount = 0) then
    Log ("All " +:+ pretty existingCount +:+ " " +:+ things
         +:+ " already saved.")
  else
    Log (pretty existingCount +:+ " " +:+ things +:+ " already saved, "
         +:+ pretty remainingCount +:+ " remaining.").

(** [logSavingMessage]: the heading, then the summary. *)
Definition logSavingMessage (things : string)
    (existingCount remainingCount : nat) : list ConsoleLine :=
  [ Heading ("Saving " +:+ things);
    savingSummary things existingCount remainingCount ].

(** ** writer.js: the Markdown loader *)

(** [s.replace(/"/g, '\\"')]. *)
Fixpoint escapeQuotes (s : string) : string :=
  match s with
  | EmptyString => EmptyString
  | String c rest =>
      if Ascii.eqb c (Ascii.ascii_of_nat 34)
      then String (Ascii.ascii_of_nat 92) (String c (escapeQuotes rest))
      else String c (escapeQuotes rest)
  end.

(** The last branch of the loader: a quoted single-line string, or nothing
    when the string is empty; [value ?? ''] turns [null] and [undefined]
    into the empty string before. *)
Definition quotedString (s : string) : option string :=
  let escapedValue := escapeQuotes s in
  if bool_decide (0 < String.length escapedValue)
  then Some (dquote +:+ escapedValue +:+ dquote)
  else None.

(** [outputValue += text] on a variable that may still be [undefined]. *)
Definition appendTo (outputValue : option string) (text : string) : string :=
  match outputValue with
  | Some s => s +:+ text
  | None => "undefined" +:+ text
  end.

(** The [outputValue] computed for one frontmatter entry; [None] is
    [undefined]. *)
Definition outputValueOf (cfg : Config.t) (value : JsVal) : option string :=
  match value with
  | JArr items =>
      if bool_decide (0 < length items)
      then Some (foldl (fun list item =>
                          list +:+ newline +:+ "  - " +:+ dquote
                          +:+ to_string item +:+ dquote)
                       EmptyString items)
      else None
  | JInt z => Some (pretty z)
  | JDate d =>
      let text :=
        if bool_decide (Config.dateFormat cfg = EmptyString)
        then (if Config.includeTime cfg then toISO d else toISODate d)
        else toFormat d (Config.dateFormat cfg) in
      Some (if Config.quoteDate cfg then dquote +:+ text +:+ dquote else text)
  | JBool b => Some (to_string (JBool b))
  | JObj entries =>
      Some (foldl (fun out kv =>
                     out +:+ newline +:+ "  " +:+ kv.1 +:+ ": "
                     +:+ to_string kv.2)
                  EmptyString (Object_entries entries))
  | JStr s =>
      if includes_char (Ascii.ascii_of_nat 10) s
      then foldl (fun out line =>
                    Some (appendTo out ("  " +:+ line +:+ newline)))
                 None (split_on (Ascii.ascii_of_nat 10) s)
      else quotedString s
  | JNull | JUndefined => quotedString EmptyString
  end.

(** The line, if any, that one frontmatter entry adds to the header. *)
Definition frontmatterLine (cfg : Config.t) (entry : string * JsVal)
  : string :=
  match outputValueOf cfg entry.2 with
  | Some outputValue => entry.1 +:+ ": " +:+ outputValue +:+ newline
  | None => EmptyString
  end.

(** The lines the loop over the frontmatter entries adds to the output. *)
Definition frontmatterLines (cfg : Config.t) (entries : list (string * JsVal))
  : string :=
  foldl (fun output entry => output +:+ frontmatterLine cfg entry)
        EmptyString entries.

(** The header the loader builds from [post.frontmatter], between the two
    [---] lines. *)
Definition frontmatterHeader (cfg : Config.t) (fm : JsObject JsVal) : string :=
  frontmatterLines cfg (Object_entries fm).

Definition metaSection (entry : string * string) : string :=
  newline +:+ newline +:+ "::" +:+ entry.1 +:+ newline +:+ entry.2
  +:+ newline +:+ "::" +:+ newline.

(** [loadMarkdownFilePromise]. *)
Definition loadMarkdownFilePromise (cfg : Config.t) (post : Post.t) : string :=
  let output := "---" +:+ newline in
  let output := output +:+ frontmatterHeader cfg (Post.frontmatter post) in
  let output :=
    output +:+ "---" +:+ newline +:+ newline +:+ Post.content post
    +:+ newline in
  foldl (fun output entry => output +:+ metaSection entry)
        output (Object_entries (Post.metaContent post)).

(** ** writer.js: the payload executor *)

Inductive Status := Fulfilled | Rejected.

#[global] Instance Status_eq_dec : EqDecision Status.
Proof. solve_decision. Defined.

(** Where the unit of work of one payload stands: its timer has not fired
    or its loader has not answered; the data is loaded; the directory is
    made; its promise is settled. *)
Inductive Stage :=
| Scheduled
| Loaded (data : string)
| DirReady (data : string)
| Settled (status : Status).

(** The executor's state: one unit per payload, in payload order, the file
    system and the console. *)
Record Exec := {
  units : list (Payload.t * Stage);
  files : FS;
  console : list ConsoleLine
}.

(** [logPayloadResult], colours left out.  An absent [name] and an empty
    error message count as in the source: the first joins as the empty
    string, the second is falsy. *)
Definition logPayloadResult (payload : Payload.t)
    (errorMessage : option string) : ConsoleLine :=
  let failed :=
    match errorMessage with
    | Some message => negb (bool_decide (message = EmptyString))
    | None => false
    end in
  let messageBits :=
    [ if failed then "✗" else "✓";
      "[" +:+ Payload.type payload +:+ "]";
      default EmptyString (Payload.name payload) ] ++
    (if failed then ["(" +:+ default EmptyString errorMessage +:+ ")"] else []) in
  Log (join " " messageBits).

Definition setStage (e : Exec) (i : nat) (payload : Payload.t) (stage : Stage)
    (fs : FS) : Exec :=
  {| units := <[i := (payload, stage)]> (units e);
     files := fs;
     console := console e |}.

(** The [catch] clause of a unit: log the failure, reject the promise. *)
Definition rejectUnit (e : Exec) (i : nat) (payload : Payload.t)
    (message : string) (fs : FS) : Exec :=
  {| units := <[i := (payload, Settled Rejected)]> (units e);
     files := fs;
     console := console e ++ [logPayloadResult payload (Some message)] |}.

(** The end of the [try] block of a unit: log the success, resolve. *)
Definition resolveUnit (e : Exec) (i : nat) (payload : Payload.t) (fs : FS)
  : Exec :=
  {| units := <[i := (payload, Settled Fulfilled)]> (units e);
     files := fs;
     console := console e ++ [logPayloadResult payload None] |}.

Section Executor.
(** The file system calls of Node, which change the file system and may
    fail with a message, and the image loader. *)
Variable mkdir : FS -> string -> FS * option string.
Variable fs_writeFile : FS -> string -> string -> FS * option string.
Variable loadImageFilePromise : string -> Outcome string.

(** One unit of work runs up to its next [await]: the loader; then, in
    [writeFile], the recursive [mkdir]; then the file write.  A unit that is
    settled, or an index that names no unit, changes nothing. *)
Definition step_unit (loadFunc : PayloadItem -> Outcome string) (e : Exec)
    (i : nat) : Exec :=
  match units e !! i with
  | Some (payload, Scheduled) =>
      match loadFunc (Payload.item payload) with
      | Returned data => setStage e i payload (Loaded data) (files e)
      | Threw message => rejectUnit e i payload message (files e)
      end
  | Some (payload, Loaded data) =>
      match mkdir (files e) (path_dirname (Payload.destinationPath payload)) with
      | (fs, None) => setStage e i payload (DirReady data) fs
      | (fs, Some message) => rejectUnit e i payload message fs
      end
  | Some (payload, DirReady data) =>
      match fs_writeFile (files e) (Payload.destinationPath payload) data with
      | (fs, None) => resolveUnit e i payload fs
      | (fs, Some message) => rejectUnit e i payload message fs
      end
  | Some (_, Settled _) | None => e
  end.

(** The units run interleaved: a schedule names, step by step, the unit
    that proceeds. *)
Definition run (loadFunc : PayloadItem -> Outcome string)
    (schedule : list nat) (e : Exec) : Exec :=
  foldl (step_unit loadFunc) e schedule.

Definition launch (payloads : list Payload.t) (fs : FS)
    (lines : list ConsoleLine) : Exec :=
  {| units := (fun payload => (payload, Scheduled)) <$> payloads;
     files := fs;
     console := lines |}.

Definition statusOf (unit : Payload.t * Stage) : option Status :=
  match unit.2 with
  | Settled status => Some status
  | _ => None
  end.

(** What [Promise.allSettled] resolves to, once every unit is settled. *)
Definition allSettled (e : Exec) : option (list Status) :=
  mapM statusOf (units e).

Definition countStatus (status : Status) (results : list Status) : nat :=
  length (filter (fun r => r = status) results).

Definition doneMessage (failedCount : nat) : ConsoleLine :=
  if bool_decide (failedCount = 0) then Log "Done, got them all!"
  else Log ("Done, but with " +:+ pretty failedCount +:+ " failed" +:+ ".").

(** [processPayloadsPromise] under a schedule: the settled results, the
    file system and the console it leaves.  [None] when the schedule ends
    with a unit still pending. *)
Definition processPayloadsPromise (schedule : list nat)
    (payloads : list Payload.t) (loadFunc : PayloadItem -> Outcome string)
    (fs : FS) (lines : list ConsoleLine)
  : option (list Status * FS * list ConsoleLine) :=
  let e := run loadFunc schedule (launch payloads fs lines) in
  results ← allSettled e;
  let failedCount := countStatus Rejected results in
  Some (results, files e, console e ++ [doneMessage failedCount]).

(** A schedule lets every unit take its three steps. *)
Definition complete (n : nat) (schedule : list nat) : Prop :=
  ∀ i, i < n → 3 ≤ length (filter (fun j => j = i) schedule).

(** The schedule in which the units run one after the other. *)
Definition sequential (n : nat) : list nat :=
  flat_map (fun i => [i; i; i]) (seq 0 n).

(** The loaders as [processPayloadsPromise] receives them.  Each phase
    hands its loader the items of its own payloads only; on an item of the
    other kind the call is a TypeError. *)
Definition markdownLoader (cfg : Config.t) (item : PayloadItem)
  : Outcome string :=
  match item with
  | PostItem post => Returned (loadMarkdownFilePromise cfg post)
  | ImageItem _ => Threw "TypeError"
  end.

Definition imageLoader (item : PayloadItem) : Outcome string :=
  match item with
  | ImageItem imageUrl => loadImageFilePromise imageUrl
  | PostItem _ => Threw "TypeError"
  end.

(** [writeMarkdownFilesPromise]: plan, log the summary, execute.  The
    scheduler gives the schedule for a number of units. *)
Definition writeMarkdownFilesPromise (cfg : Config.t)
    (scheduler : nat -> list nat) (groupMap : JsObject (list Post.t))
    (fs : FS) (lines : list ConsoleLine) : option (FS * list ConsoleLine) :=
  plan ← planMarkdownFiles cfg fs groupMap;
  let lines :=
    lines ++ logSavingMessage "posts" (existingCount plan)
               (length (payloads plan)) in
  if bool_decide (0 < length (payloads plan)) then
    done ← processPayloadsPromise (scheduler (length (payloads plan)))
              (payloads plan) (markdownLoader cfg) fs lines;
    Some (done.1.2, done.2)
  else Some (fs, lines).

(** [writeImageFilesPromise]. *)
Definition writeImageFilesPromise (cfg : Config.t)
    (scheduler : nat -> list nat) (groupMap : JsObject (list Post.t))
    (fs : FS) (lines : list ConsoleLine) : option (FS * list ConsoleLine) :=
  plan ← planImageFiles cfg fs groupMap;
  let lines :=
    lines ++ logSavingMessage "images" (existingCount plan)
               (length (payloads plan)) in
  if bool_decide (0 < length (payloads plan)) then
    done ← processPayloadsPromise (scheduler (length (payloads plan)))
              (payloads plan) imageLoader fs lines;
    Some (done.1.2, done.2)
  else Some (fs, lines).

(** The group keys of more than five characters, which [writeFilesPromise]
    logs as an array.  Keys are made of ids and commas, for which the
    number of characters is the [length] of the language. *)
Definition longKeys (groupMap : JsObject (list Post.t)) : list string :=
  filter (fun key => 5 < String.length key) (Object_keys groupMap).

(** [writeFilesPromise]: the group map, the line with its long keys, the
    Markdown files, then the images. *)
Definition writeFilesPromise (cfg : Config.t) (scheduler : nat -> list nat)
    (posts : list Post.t) (fs : FS) (lines : list ConsoleLine)
  : option (FS * list ConsoleLine) :=
  let lines :=
    if Config.polylang cfg
    then lines ++ [Log "Building Polylang translation groups..."]
    else lines in
  let groupMap := groupMapOf cfg posts in
  let lines := lines ++ [LogArray (longKeys groupMap)] in
  written ← writeMarkdownFilesPromise cfg scheduler groupMap fs lines;
  writeImageFilesPromise cfg scheduler groupMap written.1 written.2.

End Executor.

(** ** Example data *)

Module Example.

(** Per-post folders, translation mode on, default language [en]. *)
Definition cfg : Config.t :=
  {| Config.polylang := true;
     Config.postFolders := true;
     Config.output := "output";
     Config.defaultLanguage := Some "en";
     Config.writeDelay := 25;
     Config.requestDelay := 500;
     Config.dateFormat := EmptyString;
     Config.includeTime := false;
     Config.quoteDate := false |}.

(** The same with translation mode off. *)
Definition cfgOff : Config.t :=
  {| Config.polylang := false;
     Config.postFolders := true;
     Config.output := "output";
     Config.defaultLanguage := Some "en";
     Config.writeDelay := 25;
     Config.requestDelay := 500;
     Config.dateFormat := EmptyString;
     Config.includeTime := false;
     Config.quoteDate := false |}.

(** The PHP-serialized array that maps [en] to post 1 and [fr] to post 2. *)
Definition serialized_en1_fr2 : string :=
  "a:2:{s:2:" +:+ dquote +:+ "en" +:+ dquote +:+ ";i:1;s:2:"
  +:+ dquote +:+ "fr" +:+ dquote +:+ ";i:2;}".

(** The one that maps [fr] to post 1 and [en] to post 2. *)
Definition serialized_fr1_en2 : string :=
  "a:2:{s:2:" +:+ dquote +:+ "fr" +:+ dquote +:+ ";i:1;s:2:"
  +:+ dquote +:+ "en" +:+ dquote +:+ ";i:2;}".

(** [unserialize] on the inputs of the examples; it throws on anything
    else. *)
Definition unserialize (s : string) : Outcome (JsObject JsVal) :=
  if bool_decide (s = serialized_en1_fr2)
  then Returned [("en", JInt 1); ("fr", JInt 2)]
  else if bool_decide (s = serialized_fr1_en2)
  then Returned [("fr", JInt 1); ("en", JInt 2)]
  else Threw "SyntaxError".

(** A published post in a language, member of the translation group
    [pll_1], with featured image 9. *)
Definition translated (id name lang : string) : Item :=
  {| post_id := id; post_type := "post"; post_name := name;
     status := "publish"; encoded := "Text";
     thumbnail_id := Some "9";
     categories := [ {| domain := "language"; nicename := lang |};
                     {| domain := "post_translations"; nicename := "pll_1" |} ] |}.

(** A published post without translation metadata. *)
Definition plain (id name : string) : Item :=
  {| post_id := id; post_type := "post"; post_name := name;
     status := "publish"; encoded := "Text";
     thumbnail_id := None;
     categories := [ {| domain := "category"; nicename := "news" |} ] |}.

Definition pll_1 (description : string) : Term :=
  {| term_taxonomy := "post_translations"; term_slug := "pll_1";
     term_description := description |}.

(** The featured image both translations share. *)
Definition cover : Image :=
  {| image_id := "9"; image_postId := "1";
     image_url := "https://example.com/wp-content/uploads/cover.png" |}.

(** An attachment: an item for which no post is collected. *)
Definition attachment (id : string) : Item :=
  {| post_id := id; post_type := "attachment"; post_name := "cover";
     status := "inherit"; encoded := EmptyString;
     thumbnail_id := None; categories := [] |}.

(** The parser on an export made of the given items, for all of which a
    post is collected, and of attachment 9. *)
Definition parse (items : list Item) (images : list Image)
    (terms : list Term) : list Post.t * list ConsoleLine :=
  parseFilePromise unserialize (fun s => s) (fun s => s)
    (fun _ => []) (fun _ => []) (items ++ [attachment "9"]) items images terms.

(** Posts 1 (English, [hello]) and 2 (French, [bonjour]), translations of
    each other. *)
Definition englishFirst : list Post.t :=
  (parse [translated "1" "hello" "en"; translated "2" "bonjour" "fr"]
         [cover] [pll_1 serialized_en1_fr2]).1.

(** The two posts, as the parser returns them. *)
Definition translation (id name lang : string) : Post.t :=
  {| Post.id := id; Post.type := "post"; Post.slug := name;
     Post.language := None; Post.isDraft := false;
     Post.coverImageId := Some "9"; Post.coverImage := Some "cover.png";
     Post.imageUrls := ["https://example.com/wp-content/uploads/cover.png"];
     Post.content := "Text"; Post.frontmatter := []; Post.metaContent := [];
     Post.polylang :=
       {| Polylang.language := Some lang;
          Polylang.groupSlug := Some "pll_1";
          Polylang.translationMap := Some [("en", "1"); ("fr", "2")] |} |}.

Definition english : Post.t := translation "1" "hello" "en".
Definition french : Post.t := translation "2" "bonjour" "fr".

(** Posts 1 (French, [bonjour]) and 2 (English, [hello]), translations of
    each other. *)
Definition frenchFirst : list Post.t :=
  (parse [translated "1" "bonjour" "fr"; translated "2" "hello" "en"]
         [] [pll_1 serialized_fr1_en2]).1.

(** Two posts without translation metadata. *)
Definition untranslated : list Post.t :=
  (parse [plain "7" "about"; plain "8" "contact"] [] []).1.

(** Posts 1 and 2 again, in an export whose translation term cannot be
    unserialized. *)
Definition brokenTerm : list Post.t * list ConsoleLine :=
  parse [translated "1" "hello" "en"; translated "2" "bonjour" "fr"]
        [] [pll_1 "a:2:{broken"].

(** A post whose description has two lines. *)
Definition twoLines : string := "first line" +:+ newline +:+ "second line".

Definition described : Post.t :=
  set_frontmatter english
    [("title", JStr "Hello"); ("description", JStr twoLines)].

(** A post with frontmatter entries that have nothing to show. *)
Definition sparse : Post.t :=
  set_frontmatter english
    [("title", JStr "Hello"); ("tags", JArr []); ("coverImage", JUndefined);
     ("subtitle", JStr EmptyString); ("date", JNull); ("draft", JBool false)].

(** Three images to download into one folder. *)
Definition download (filename : string) : Payload.t :=
  imagePayload ("https://example.com/" +:+ filename) filename
    (path_join "output/hello/images" filename) 0.

Definition downloads : list Payload.t :=
  [download "a.png"; download "b.png"; download "c.png"].

(** An image loader for which the second image is missing. *)
Definition loader (item : PayloadItem) : Outcome string :=
  match item with
  | ImageItem imageUrl =>
      if bool_decide (imageUrl = "https://example.com/b.png")
      then Threw "Request failed with status code 404"
      else Returned "bytes"
  | PostItem _ => Threw "TypeError"
  end.

(** A file system on which every call succeeds. *)
Definition mkdir (fs : FS) (dir : string) : FS * option string :=
  ({[ dir ]} ∪ fs, None).

Definition fs_writeFile (fs : FS) (path data : string) : FS * option string :=
  ({[ path ]} ∪ fs, None).

(** A run of the tool on the two translations, and a second run on what
    the first has written. *)
Definition firstRun : option (FS * list ConsoleLine) :=
  writeFilesPromise mkdir fs_writeFile (fun _ => Returned "bytes")
    cfg sequential englishFirst ∅ [].

Definition secondRun : option (FS * list ConsoleLine) :=
  first ← firstRun;
  writeFilesPromise mkdir fs_writeFile (fun _ => Returned "bytes")
    cfg sequential englishFirst first.1 [].

End Example.

(** ** Example data: an export with several post types *)

Module Sample.

Definition item (id type name state : string) : Item :=
  {| post_id := id; post_type := type; post_name := name;
     status := state; encoded := "Text";
     thumbnail_id := None; categories := [] |}.

(** A product, an attachment, a page, two posts of which one is in the
    trash, the sample page and a revision. *)
Definition items : list Item :=
  [ item "1" "product" "lamp" "publish";
    item "2" "attachment" "lamp-photo" "inherit";
    item "3" "page" "about" "publish";
    item "4" "post" "hello" "publish";
    item "5" "post" "old-news" "trash";
    item "6" "page" "sample-page" "publish";
    item "7" "revision" "hello-rev" "inherit" ].

End Sample.

(** ** Candidate destinations *)

Definition plannedPaths (plan : Plan) : list string :=
  Payload.destinationPath <$> payloads plan.

(** The destinations a planner considers are those it plans when no file
    exists yet. *)
Definition markdownCandidates (cfg : Config.t)
    (groupMap : JsObject (list Post.t)) : list string :=
  from_option plannedPaths [] (planMarkdownFiles cfg ∅ groupMap).

Definition imageCandidates (cfg : Config.t)
    (groupMap : JsObject (list Post.t)) : list string :=
  from_option plannedPaths [] (planImageFiles cfg ∅ groupMap).

(** A candidate: a destination and the payload to plan for it at a given
    delay. *)
Abbreviation Candidate := (string * (nat -> Payload.t))%type (only parsing).

Definition planAll (fs : FS) (delayStep : nat) (cs : list Candidate)
    (st : Plan) : Plan :=
  foldl (fun st c => planPayload fs delayStep c.2 c.1 st) st cs.

Definition markdownCandidate (dest : Post.t -> string) (post : Post.t)
  : Candidate :=
  (dest post, markdownPayload post (dest post)).

Definition markdownGroupCandidates (cfg : Config.t)
    (postsInGroup : list Post.t) : option (list Candidate) :=
  if Config.polylang cfg && bool_decide (1 < length postsInGroup) then
    baseSlug ← chooseBaseSlug postsInGroup (Config.defaultLanguage cfg);
    first ← head postsInGroup;
    let basePath := buildPostPath cfg (set_slug first baseSlug) in
    let groupFolder :=
      if Config.postFolders cfg then Some (path_dirname basePath) else None in
    Some (markdownCandidate (translationPath cfg groupFolder baseSlug)
            <$> postsInGroup)
  else Some (markdownCandidate (buildPostPath cfg) <$> postsInGroup).

Definition imageCandidate (dir imageUrl : string) : Candidate :=
  (path_join dir (getFilenameFromUrl imageUrl),
   imagePayload imageUrl (getFilenameFromUrl imageUrl)
     (path_join dir (getFilenameFromUrl imageUrl))).

Definition imageGroupCandidates (cfg : Config.t)
    (postsInGroup : list Post.t) : option (list Candidate) :=
  if Config.polylang cfg && bool_decide (1 < length postsInGroup) then
    baseSlug ← chooseBaseSlug postsInGroup (Config.defaultLanguage cfg);
    Some (postsInGroup ≫= fun post =>
            imageCandidate (groupImagesDir cfg baseSlug) <$> Post.imageUrls post)
  else
    Some (postsInGroup ≫= fun post =>
            imageCandidate (postImagesDir cfg post) <$> Post.imageUrls post).

Fixpoint allCandidates (groupCandidates : list Post.t -> option (list Candidate))
    (entries : list (string * list Post.t)) : option (list Candidate) :=
  match entries with
  | [] => Some []
  | (_, postsInGroup) :: rest =>
      cs ← groupCandidates postsInGroup;
      cs' ← allCandidates groupCandidates rest;
      Some (cs ++ cs')
  end.

(** How far a unit of work has come: the awaits it has behind it. *)
Definition stageRank (stage : Stage) : nat :=
  match stage with
  | Scheduled => 0
  | Loaded _ => 1
  | DirReady _ => 2
  | Settled _ => 3
  end.

(** How often a schedule lets a unit proceed. *)
Definition turns (i : nat) (schedule : list nat) : nat :=
  length (filter (fun j => j = i) schedule).

(** Lines of text, each indented by two spaces and ended by a newline. *)
Definition indentedLines (lines : list string) : string :=
  foldr (fun line text => "  " +:+ line +:+ newline +:+ text) EmptyString lines.

(** The frontmatter values for which the loader has nothing to show. *)
Definition emptyValue (value : JsVal) : Prop :=
  value = JArr [] ∨ value = JNull ∨ value = JUndefined
  ∨ value = JStr EmptyString.

(** A candidate's payload goes to the candidate's destination. *)
Definition wellFormed (c : Candidate) : Prop :=
  ∀ delay, Payload.destinationPath (c.2 delay) = c.1.

(** The destination of a translation, as the specification writes it. *)
Definition translationDestination (cfg : Config.t) (baseSlug : string)
    (post : Post.t) : string :=
  if Config.postFolders cfg
  then path_join (path_join (Config.output cfg) baseSlug)
                 ("index." +:+ langOf post +:+ ".md")
  else path_join (Config.output cfg)
                 (baseSlug +:+ "." +:+ langOf post +:+ ".md").

(** ** parser.js: post types and the posts collected *)

(** [prioritizePostType]: when the type is in the array, splice it out at
    its first index and unshift it. *)
Definition prioritizePostType (postTypes : list string) (postType : string)
  : list string :=
  match list_find (fun t => t = postType) postTypes with
  | Some (index, _) => postType :: delete index postTypes
  | None => postTypes
  end.

(** [[...new Set(array)]]: the elements in the order of their first
    occurrence. *)
Definition setOf (array : list string) : list string :=
  foldl (fun set x => if bool_decide (x ∈ set) then set else set ++ [x])
        [] array.

(** The post types [getPostTypes] never returns. *)
Definition internalPostTypes : list string :=
  [ "attachment"; "revision"; "nav_menu_item"; "custom_css";
    "customize_changeset"; "oembed_cache"; "user_request"; "wp_block";
    "wp_global_styles"; "wp_navigation"; "wp_template"; "wp_template_part" ].

(** [getPostTypes]. *)
Definition getPostTypes (allPostData : list Item) : list string :=
  let postTypes :=
    setOf (filter (fun postType => postType ∉ internalPostTypes)
                  (post_type <$> allPostData)) in
  prioritizePostType (prioritizePostType postTypes "page") "post".

(** Step 2 of [parseFilePromise]: the two configured lists narrow the post
    types; an empty (or absent) list narrows nothing. *)
Definition configuredPostTypes (configPostTypes configExclude : list string)
    (postTypes : list string) : list string :=
  let postTypes :=
    if bool_decide (0 < length configPostTypes)
    then filter (fun pt => pt ∈ configPostTypes) postTypes
    else postTypes in
  if bool_decide (0 < length configExclude)
  then filter (fun pt => pt ∉ configExclude) postTypes
  else postTypes.

(** [getItemsOfType]. *)
Definition getItemsOfType (allPostData : list Item) (type : string)
  : list Item :=
  filter (fun item => post_type item = type) allPostData.

(** The items [collectPosts] builds posts from, for one post type: not in
    the trash, and not the sample page. *)
Definition itemsForType (allPostData : list Item) (postType : string)
  : list Item :=
  filter (fun postData =>
            ¬ (postType = "page" ∧ post_name postData = "sample-page"))
    (filter (fun postData => status postData ≠ "trash")
       (getItemsOfType allPostData postType)).

(** The line [collectPosts] logs for a post type with posts. *)
Definition foundMessage (postType : string) (count : nat) : ConsoleLine :=
  if bool_decide (postType = "post") then
    Log (pretty count +:+ " normal posts found.")
  else if bool_decide (postType = "page") then
    Log (pretty count +:+ " pages found.")
  else
    Log (pretty count +:+ " custom " +:+ dquote +:+ postType +:+ dquote
         +:+ " posts found.").

(** [collectPosts], by the items it builds posts from: those and the
    lines it logs. *)
Definition collectItems (allPostData : list Item) (postTypes : list string)
  : list Item * list ConsoleLine :=
  foldl (fun st postType =>
           let itemsOfType := itemsForType allPostData postType in
           (st.1 ++ itemsOfType,
            if bool_decide (0 < length itemsOfType)
            then st.2 ++ [foundMessage postType (length itemsOfType)]
            else st.2))
        ([], []) postTypes.

Section Collect.
Variable decodeURIComponent : string -> string.
Variable getPostContent : string -> string.
Variable getMetaContent : Item -> JsObject string.
(** [frontmatter.categories], of frontmatter.js: the category slugs of a
    post, or [None] for [undefined]. *)
Variable categoriesOf : Post.t -> option (list string).

(** [collectPosts]. *)
Definition collectPosts (allPostData : list Item) (postTypes : list string)
  : list Post.t * list ConsoleLine :=
  let collected := collectItems allPostData postTypes in
  (buildPost decodeURIComponent getPostContent getMetaContent <$> collected.1,
   collected.2).

(** [frontmatter.categories(post)?.some(cat => list.includes(cat))]: false
    also when the post has no categories. *)
Definition someCategoryIn (categoryList : list string) (post : Post.t) : bool :=
  match categoriesOf post with
  | Some cats => bool_decide (Exists (fun cat => cat ∈ categoryList) cats)
  | None => false
  end.

(** Step 3 of [parseFilePromise]: the two category filters, each applied
    when its configured list is not empty. *)
Definition filterByCategories (includeCategories excludeCategories : list string)
    (posts : list Post.t) : list Post.t :=
  let posts :=
    if bool_decide (0 < length includeCategories)
    then filter (fun post => someCategoryIn includeCategories post = true) posts
    else posts in
  if bool_decide (0 < length excludeCategories)
  then filter (fun post => someCategoryIn excludeCategories post = false) posts
  else posts.

(** Whether the two category filters keep a post. *)
Definition keptByCategories (includeCategories excludeCategories : list string)
    (post : Post.t) : bool :=
  (if bool_decide (0 < length includeCategories)
   then someCategoryIn includeCategories post else true)
  && (if bool_decide (0 < length excludeCategories)
      then negb (someCategoryIn excludeCategories post) else true).

(** The items whose posts are left after steps 2 and 3 of
    [parseFilePromise], in the order of the posts. *)
Definition selectedItems (configPostTypes configExclude : list string)
    (includeCategories excludeCategories : list string)
    (allPostData : list Item) : list Item :=
  let postTypes :=
    configuredPostTypes configPostTypes configExclude
      (getPostTypes allPostData) in
  filter (fun item =>
            keptByCategories includeCategories excludeCategories
              (buildPost decodeURIComponent getPostContent getMetaContent item)
            = true)
         (collectItems allPostData postTypes).1.

(** Steps 2 and 3 of [parseFilePromise]: the posts. *)
Definition selectedPosts (configPostTypes configExclude : list string)
    (includeCategories excludeCategories : list string)
    (allPostData : list Item) : list Post.t :=
  let postTypes :=
    configuredPostTypes configPostTypes configExclude
      (getPostTypes allPostData) in
  filterByCategories includeCategories excludeCategories
    (collectPosts allPostData postTypes).1.

End Collect.

(** ** The posts of a group map and what payloads carry *)

(** The posts of a group map, group after group in the order of
    [Object.entries]. *)
Definition groupedPosts (groupMap : JsObject (list Post.t)) : list Post.t :=
  concat (Object_values groupMap).

(** What a payload is made for and where it goes. *)
Definition itemAndPath (payload : Payload.t) : PayloadItem * string :=
  (Payload.item payload, Payload.destinationPath payload).

(** ** What the executor leaves behind *)

(** The result of a payload whose file system calls succeed: that of its
    loader. *)
Definition verdict (loadFunc : PayloadItem -> Outcome string)
    (payload : Payload.t) : Status :=
  match loadFunc (Payload.item payload) with
  | Returned _ => Fulfilled
  | Threw _ => Rejected
  end.

(** File system calls that do not fail. *)
Definition neverFails (mkdir : FS -> string -> FS * option string)
    (fs_writeFile : FS -> string -> string -> FS * option string) : Prop :=
  (∀ fs dir, (mkdir fs dir).2 = None)
  ∧ (∀ fs path data, (fs_writeFile fs path data).2 = None).

(** File system calls that remove nothing, and a write after which, when it
    has succeeded, the file exists. *)
Definition keepsFiles (mkdir : FS -> string -> FS * option string)
    (fs_writeFile : FS -> string -> string -> FS * option string) : Prop :=
  (∀ fs dir, fs ⊆ (mkdir fs dir).1)
  ∧ (∀ fs path data, fs ⊆ (fs_writeFile fs path data).1)
  ∧ (∀ fs path data, (fs_writeFile fs path data).2 = None →
                     path ∈ (fs_writeFile fs path data).1).

(** The units whose promise is settled. *)
Definition settledCount (units : list (Payload.t * Stage)) : nat :=
  length (filter (fun unit => is_Some (statusOf unit)) units).

(** ** parser.js: what the images and the terms add up to *)

(** An image goes with a post when it was uploaded to the post or is the
    post's featured image: the two tests of [mergeImagesIntoPosts]. *)
Definition attaches (image : Image) (post : Post.t) : Prop :=
  image_postId image = Post.id post
  ∨ Some (image_id image) = Post.coverImageId post.

(** What the loop over the images makes of one post. *)
Definition attachImages (images : list Image) (post : Post.t) : Post.t :=
  foldl (fun post image => attachImage image post) post images.

(** The translation map that step 6 of [parseFilePromise] records for a
    term: none for a term of another taxonomy and for one that cannot be
    unserialized. *)
Definition mappingOf (unserialize : string -> Outcome (JsObject JsVal))
    (term : Term) : option (JsObject string) :=
  if bool_decide (term_taxonomy term = "post_translations") then
    match unserialize (term_description term) with
    | Returned parsed =>
        Some (Object_fromEntries
                ((fun kv => (kv.1, to_string kv.2)) <$> Object_entries parsed))
    | Threw _ => None
    end
  else None.

(** The warning that step 6 logs for a term, if any. *)
Definition warningOf (unserialize : string -> Outcome (JsObject JsVal))
    (term : Term) : option ConsoleLine :=
  if bool_decide (term_taxonomy term = "post_translations") then
    match unserialize (term_description term) with
    | Returned _ => None
    | Threw err => Some (warning (term_slug term) err)
    end
  else None.

(** The nicename of the last [<category>] tag of a domain. *)
Definition lastOfDomain (name : string) (cats : list Category)
  : option string :=
  nicename <$> last (filter (fun cat => domain cat = name) cats).

(** ** parser.js: nested frontmatter *)

(** What [cur[key]] gives the loop of [setNested] to descend into: the
    object stored there, or the [{}] that replaces a value that is
    [undefined], [null] or not an object.  [None] for an array or a date,
    which are objects too: the loop descends into them and gives them a
    property, which [JsVal] does not represent. *)
Definition descend (cur : JsObject JsVal) (key : string)
  : option (JsObject JsVal) :=
  match obj_get cur key with
  | Some (JObj o) => Some o
  | Some (JArr _) | Some (JDate _) => None
  | Some JUndefined | Some JNull | Some (JBool _) | Some (JInt _)
  | Some (JStr _) | None => Some []
  end.

(** [setNested(obj, path, value)], as the object [obj] is afterwards.  With
    an empty path the final segment is [undefined], which names the property
    [undefined].  [None] also for a path with the segment [__proto__], which
    reads and writes the prototype instead of a property. *)
Fixpoint setNested (obj : JsObject JsVal) (path : list string) (value : JsVal)
  : option (JsObject JsVal) :=
  match path with
  | [] => Some (obj_set obj "undefined" value)
  | key :: rest =>
      if bool_decide (key = "__proto__") then None
      else match rest with
           | [] => Some (obj_set obj key value)
           | _ :: _ =>
               cur ← descend obj key;
               inner ← setNested cur rest value;
               Some (obj_set obj key (JObj inner))
           end
  end.

(** Reading [obj[path[0]][path[1]]...] through plain objects. *)
Fixpoint getNested (obj : JsObject JsVal) (path : list string) : option JsVal :=
  match path with
  | [] => None
  | key :: rest =>
      match rest with
      | [] => obj_get obj key
      | _ :: _ =>
          match obj_get obj key with
          | Some (JObj o) => getNested o rest
          | _ => None
          end
      end
  end.

(** A path along which [setNested] meets plain objects, values it replaces
    or nothing. *)
Fixpoint plainAlong (obj : JsObject JsVal) (path : list string) : Prop :=
  match path with
  | [] => True
  | key :: rest =>
      key ≠ "__proto__"
      ∧ match rest with
        | [] => True
        | _ :: _ =>
            match descend obj key with
            | Some cur => plainAlong cur rest
            | None => False
            end
        end
  end.

(** ** parser.js: frontmatter fields *)

(** [const [key, alias] = field.split(':')]; an absent [alias] is
    [undefined]. *)
Definition splitField (field : string) : string * option string :=
  match split_on (Ascii.ascii_of_nat 58) field with
  | key :: alias :: _ => (key, Some alias)
  | [key] => (key, None)
  | [] => (EmptyString, None)
  end.

(** The name a field gets in the frontmatter: [alias ?? key]. *)
Definition fieldName (field : string) : string :=
  default (splitField field).1 (splitField field).2.

Definition getterMissing (key : string) : string :=
  "Could not find a frontmatter getter named " +:+ dquote +:+ key +:+ dquote
  +:+ ".".

(** The body of the loop over [shared.config.frontmatterFields].  [getters]
    holds the functions that frontmatter.js exports, by name; they are
    taken to return.  A getter is handed the post with the frontmatter
    filled so far. *)
Definition populateField (getters : JsObject (Post.t -> JsVal)) (post : Post.t)
    (fm : JsObject JsVal) (field : string) : Outcome (JsObject JsVal) :=
  match obj_get getters (splitField field).1 with
  | None => Threw (getterMissing (splitField field).1)
  | Some frontmatterGetter =>
      Returned (obj_set fm (fieldName field)
                  (frontmatterGetter (set_frontmatter post fm)))
  end.

(** The loop over the fields for one post, from [post.frontmatter = {}]. *)
Definition populateFields (getters : JsObject (Post.t -> JsVal))
    (fields : list string) (post : Post.t) : Outcome (JsObject JsVal) :=
  foldl (fun fm field =>
           match fm with
           | Returned fm => populateField getters post fm field
           | Threw message => Threw message
           end)
        (Returned []) fields.

(** [populateFrontmatter] when no meta fields are configured: the posts
    with their frontmatter, or what the loop threw. *)
Definition populateFrontmatterFields (getters : JsObject (Post.t -> JsVal))
    (fields : list string) (posts : list Post.t) : Outcome (list Post.t) :=
  foldl (fun populated post =>
           match populated with
           | Returned populated =>
               match populateFields getters fields post with
               | Returned fm => Returned (populated ++ [set_frontmatter post fm])
               | Threw message => Threw message
               end
           | Threw message => Threw message
           end)
        (Returned []) posts.

(** The same loop when every field has its getter. *)
Definition fieldValue (getters : JsObject (Post.t -> JsVal)) (post : Post.t)
    (field : string) : JsVal :=
  match obj_get getters (splitField field).1 with
  | Some frontmatterGetter => frontmatterGetter post
  | None => JUndefined
  end.

Definition frontmatterOf (getters : JsObject (Post.t -> JsVal))
    (fields : list string) (post : Post.t) : JsObject JsVal :=
  foldl (fun fm field =>
           obj_set fm (fieldName field)
             (fieldValue getters (set_frontmatter post fm) field))
        [] fields.

(** A field whose key names no getter. *)
Definition unknownField (getters : JsObject (Post.t -> JsVal))
    (field : string) : bool :=
  negb (bool_decide (is_Some (obj_get getters (splitField field).1))).

(** ** writer.js: the order of the groups *)

(** The array index that a post's id is as a property key, if it is one. *)
Definition idIndex (post : Post.t) : option N := array_index (Post.id post).

(** Two posts whose ids are array indices, the first not above the
    second. *)
Definition byIdIndex (p q : Post.t) : Prop :=
  match idIndex p, idIndex q with
  | Some m, Some n => (m <= n)%N
  | _, _ => False
  end.

(** ** writer.js: the destinations the planners go through *)

(** The destination [writeMarkdownFilesPromise] computes for a post of a
    group, before it looks at the file system: the path of a translation
    in a group of several posts in translation mode, [buildPostPath]
    otherwise.  [None] is a TypeError. *)
Definition markdownDestination (cfg : Config.t) (postsInGroup : list Post.t)
    (post : Post.t) : option string :=
  if Config.polylang cfg && bool_decide (1 < length postsInGroup) then
    baseSlug ← chooseBaseSlug postsInGroup (Config.defaultLanguage cfg);
    first ← head postsInGroup;
    let basePath := buildPostPath cfg (set_slug first baseSlug) in
    let groupFolder :=
      if Config.postFolders cfg then Some (path_dirname basePath) else None in
    Some (translationPath cfg groupFolder baseSlug post)
  else Some (buildPostPath cfg post).

(** The directory [writeImageFilesPromise] computes for the images of a
    post of a group: one for the whole group in a group of several posts in
    translation mode, the post's own otherwise. *)
Definition imagesDir (cfg : Config.t) (postsInGroup : list Post.t)
    (post : Post.t) : option string :=
  if Config.polylang cfg && bool_decide (1 < length postsInGroup) then
    baseSlug ← chooseBaseSlug postsInGroup (Config.defaultLanguage cfg);
    Some (groupImagesDir cfg baseSlug)
  else Some (postImagesDir cfg post).

(** The posts of a group with their destinations, and their image URLs
    with theirs, in the order of the loops. *)
Definition markdownTargetsOf (cfg : Config.t) (postsInGroup : list Post.t)
  : list (Post.t * string) :=
  omap (fun post =>
          destinationPath ← markdownDestination cfg postsInGroup post;
          Some (post, destinationPath))
       postsInGroup.

Definition imageTargetsOf (cfg : Config.t) (postsInGroup : list Post.t)
  : list (string * string) :=
  postsInGroup ≫= fun post =>
    match imagesDir cfg postsInGroup post with
    | Some dir =>
        (fun imageUrl => (imageUrl, path_join dir (getFilenameFromUrl imageUrl)))
          <$> Post.imageUrls post
    | None => []
    end.

(** The same for a group map, group after group in the order of
    [Object.entries]. *)
Definition markdownTargets (cfg : Config.t) (groupMap : JsObject (list Post.t))
  : list (Post.t * string) :=
  Object_values groupMap ≫= markdownTargetsOf cfg.

Definition imageTargets (cfg : Config.t) (groupMap : JsObject (list Post.t))
  : list (string * string) :=
  Object_values groupMap ≫= imageTargetsOf cfg.

(** ** writer.js: what can happen to the unit of a payload *)

Section Outcomes.
Variable mkdir : FS -> string -> FS * option string.
Variable fs_writeFile : FS -> string -> string -> FS * option string.
Variable loadFunc : PayloadItem -> Outcome string.

(** The unit of a payload can run to its end: the loader returns, and
    there are file systems on which its directory can be made and its
    file, with the data loaded, can be written. *)
Definition canSucceed (payload : Payload.t) : Prop :=
  ∃ data,
    loadFunc (Payload.item payload) = Returned data
    ∧ (∃ fs, (mkdir fs (path_dirname (Payload.destinationPath payload))).2
             = None)
    ∧ (∃ fs, (fs_writeFile fs (Payload.destinationPath payload) data).2 = None).

(** Something can go wrong in the unit of a payload: the loader throws, or
    there is a file system on which its directory cannot be made, or one on
    which its file, with the data loaded, cannot be written. *)
Definition canFail (payload : Payload.t) : Prop :=
  (∃ message, loadFunc (Payload.item payload) = Threw message)
  ∨ (∃ fs, is_Some (mkdir fs (path_dirname (Payload.destinationPath payload))).2)
  ∨ (∃ fs data,
       loadFunc (Payload.item payload) = Returned data
       ∧ is_Some (fs_writeFile fs (Payload.destinationPath payload) data).2).

(** Nothing can go wrong on the file system for a payload, whatever the
    state its siblings have left it in. *)
Definition writable (payload : Payload.t) : Prop :=
  (∀ fs, (mkdir fs (path_dirname (Payload.destinationPath payload))).2 = None)
  ∧ (∀ fs data,
       (fs_writeFile fs (Payload.destinationPath payload) data).2 = None).

(** The directory of a payload can never be made, or its file never
    written. *)
Definition unwritable (payload : Payload.t) : Prop :=
  (∀ fs, is_Some (mkdir fs (path_dirname (Payload.destinationPath payload))).2)
  ∨ (∀ fs data,
       is_Some (fs_writeFile fs (Payload.destinationPath payload) data).2).

End Outcomes.

(** * Properties *)

(** ** Dictionaries *)

Section JsObjectFacts.
Context {V : Type}.
Implicit Types (o : JsObject V) (k : string) (v : V).

Lemma obj_get_set o k v k' :
  obj_get (obj_set o k v) k' = if decide (k = k') then Some v else obj_get o k'.
Proof.
  induction o as [|[k0 v0] o IH]; simpl.
  - destruct (String.eqb_spec k k'); case_decide; congruence.
  - destruct (String.eqb_spec k0 k) as [->|Hne]; simpl.
    + destruct (String.eqb_spec k k'); case_decide; congruence.
    + destruct (String.eqb_spec k0 k'); [|done].
      case_decide; congruence.
Qed.

Lemma obj_get_None o k : obj_get o k = None ↔ k ∉ o.*1.
Proof.
  induction o as [|[k0 v0] o IH]; simpl.
  - split; [intros _; apply not_elem_of_nil | done].
  - rewrite not_elem_of_cons.
    destruct (String.eqb_spec k0 k) as [->|Hne].
    + split; [done | by intros [? _]].
    + rewrite IH. split; [by split | by intros [_ ?]].
Qed.

Lemma obj_get_Some_elem o k v : obj_get o k = Some v → (k, v) ∈ o.
Proof.
  induction o as [|[k0 v0] o IH]; simpl; [done|].
  destruct (String.eqb_spec k0 k) as [->|Hne].
  - intros [= ->]. apply list_elem_of_here.
  - intros H. apply list_elem_of_further, IH, H.
Qed.

Lemma obj_get_elem o k v : NoDup o.*1 → (k, v) ∈ o → obj_get o k = Some v.
Proof.
  induction o as [|[k0 v0] o IH]; simpl.
  - intros _ H. by apply elem_of_nil in H.
  - rewrite NoDup_cons. intros [Hk0 Hnd] [Heq|Hin]%elem_of_cons.
    + injection Heq as -> ->. by rewrite String.eqb_refl.
    + destruct (String.eqb_spec k0 k) as [->|Hne]; [|by apply IH].
      exfalso. apply Hk0. apply list_elem_of_fmap. by exists (k, v).
Qed.

Lemma obj_set_fresh o k v : k ∉ o.*1 → obj_set o k v = o ++ [(k, v)].
Proof.
  induction o as [|[k0 v0] o IH]; simpl; [done|].
  rewrite not_elem_of_cons. intros [Hne Hk].
  destruct (String.eqb_spec k0 k); [congruence|].
  by rewrite IH.
Qed.

Lemma obj_set_present o k v :
  k ∈ o.*1 → (obj_set o k v).*1 = o.*1.
Proof.
  induction o as [|[k0 v0] o IH]; simpl.
  - intros H. by apply elem_of_nil in H.
  - intros H. destruct (String.eqb_spec k0 k) as [->|Hne]; simpl; [done|].
    f_equal. apply IH. apply elem_of_cons in H as [?|?]; [congruence|done].
Qed.

Lemma obj_set_NoDup o k v : NoDup o.*1 → NoDup (obj_set o k v).*1.
Proof.
  intros Hnd. destruct (decide (k ∈ o.*1)) as [Hin|Hnin].
  - by rewrite obj_set_present.
  - rewrite obj_set_fresh, fmap_app by done. simpl.
    apply NoDup_app. split; [done|]. split; [|apply NoDup_singleton].
    intros x Hx ->%list_elem_of_singleton. done.
Qed.

End JsObjectFacts.

(** Replacing a group by itself with one more member adds that member, and
    nothing else, to the members of all groups taken together. *)
Lemma obj_set_push_concat {A} (o : JsObject (list A)) k (x : A) :
  concat (obj_set o k (default [] (obj_get o k) ++ [x])).*2
  ≡ₚ concat o.*2 ++ [x].
Proof.
  induction o as [|[k0 v0] o IH]; simpl; [done|].
  destruct (String.eqb_spec k0 k) as [->|Hne]; simpl.
  - rewrite <-!(assoc_L (++)). f_equiv. apply Permutation_app_comm.
  - rewrite IH. by rewrite (assoc_L (++)).
Qed.

(** ** The sort of the group key *)

Lemma js_sort_Sorted l : Sorted String.le (js_sort l).
Proof. apply (Sorted_merge_sort String.le). Qed.

Lemma js_sort_Permutation l : js_sort l ≡ₚ l.
Proof. apply merge_sort_Permutation. Qed.

Lemma js_sort_perm_eq l1 l2 : l1 ≡ₚ l2 → js_sort l1 = js_sort l2.
Proof.
  intros Hp. apply (Sorted_unique String.le); try apply js_sort_Sorted.
  by rewrite !js_sort_Permutation.
Qed.

Lemma index_entries_Permutation {V} (o : JsObject V) :
  (indexed_entries o).*2 ++ named_entries o ≡ₚ o.
Proof.
  unfold indexed_entries, named_entries.
  induction o as [|[k v] o IH]; [done|].
  destruct (array_index k) as [n|] eqn:Hk.
  - rewrite filter_cons_False by (simpl; congruence).
    simpl. rewrite Hk. simpl. by f_equiv.
  - rewrite filter_cons_True by done.
    simpl. rewrite Hk. simpl.
    rewrite <-Permutation_middle. by f_equiv.
Qed.

Lemma Object_entries_Permutation {V} (o : JsObject V) : Object_entries o ≡ₚ o.
Proof.
  unfold Object_entries.
  rewrite (merge_sort_Permutation index_le). apply index_entries_Permutation.
Qed.

Lemma Object_values_Permutation {V} (o : JsObject V) : Object_values o ≡ₚ o.*2.
Proof. unfold Object_values. by rewrite Object_entries_Permutation. Qed.

Lemma Object_keys_length {V} (o : JsObject V) : length (Object_keys o) = length o.
Proof.
  unfold Object_keys. rewrite length_fmap.
  by rewrite Object_entries_Permutation.
Qed.

(** ** Translation groups *)

Lemma addToGroup_get groups post k :
  obj_get (addToGroup groups post) k =
    if decide (groupKey post = k)
    then Some (default [] (obj_get groups (groupKey post)) ++ [post])
    else obj_get groups k.
Proof.
  unfold addToGroup.
  destruct (obj_get groups (groupKey post)) as [ms|] eqn:Hg; simpl.
  - by rewrite obj_get_set, Hg.
  - rewrite !obj_get_set. rewrite (decide_True (P := groupKey post = groupKey post)) by done.
    simpl. by case_decide.
Qed.

Lemma addToGroup_NoDup groups post :
  NoDup groups.*1 → NoDup (addToGroup groups post).*1.
Proof.
  intros Hnd. unfold addToGroup.
  destruct (obj_get groups (groupKey post)); simpl;
    repeat apply obj_set_NoDup; done.
Qed.

Lemma addToGroup_concat groups post :
  concat (addToGroup groups post).*2 ≡ₚ concat groups.*2 ++ [post].
Proof.
  unfold addToGroup.
  destruct (obj_get groups (groupKey post)) as [ms|] eqn:Hg; simpl.
  - apply obj_set_push_concat.
  - rewrite obj_set_push_concat.
    apply obj_get_None in Hg.
    rewrite obj_set_fresh, fmap_app, concat_app by done.
    simpl. by rewrite !(right_id_L [] (++)).
Qed.

(** The members a key has among the posts seen so far. *)
Lemma groups_from_get groups seen rest :
  (∀ k, obj_get groups k =
          match filter (fun p => groupKey p = k) seen with
          | [] => None
          | ms => Some ms
          end) →
  ∀ k, obj_get (foldl addToGroup groups rest) k =
         match filter (fun p => groupKey p = k) (seen ++ rest) with
         | [] => None
         | ms => Some ms
         end.
Proof.
  revert groups seen. induction rest as [|post rest IH]; intros groups seen Hinv k.
  - rewrite (right_id_L [] (++)). apply Hinv.
  - simpl. rewrite (cons_middle post seen rest), (assoc_L (++)).
    apply IH. clear k. intros k.
    rewrite addToGroup_get, filter_app, Hinv.
    case_decide as Hk.
    + rewrite filter_cons_True, filter_nil by done. subst k.
      by destruct (filter _ seen).
    + rewrite filter_cons_False, filter_nil by done.
      by rewrite (right_id_L [] (++)).
Qed.

Lemma buildTranslationGroups_get allPosts k :
  obj_get (buildTranslationGroups allPosts) k =
    match filter (fun p => groupKey p = k) allPosts with
    | [] => None
    | ms => Some ms
    end.
Proof. by apply (groups_from_get [] [] allPosts). Qed.

Lemma buildTranslationGroups_NoDup allPosts :
  NoDup (buildTranslationGroups allPosts).*1.
Proof.
  unfold buildTranslationGroups.
  assert (NoDup (@nil (string * list Post.t)).*1) as H by apply NoDup_nil_2.
  revert H. generalize (@nil (string * list Post.t)).
  induction allPosts as [|post rest IH]; intros groups H; simpl; [done|].
  apply IH, addToGroup_NoDup, H.
Qed.

Lemma buildTranslationGroups_concat allPosts :
  concat (buildTranslationGroups allPosts).*2 ≡ₚ allPosts.
Proof.
  unfold buildTranslationGroups.
  enough (∀ groups, concat (foldl addToGroup groups allPosts).*2
                    ≡ₚ concat groups.*2 ++ allPosts) as H by apply (H []).
  induction allPosts as [|post rest IH]; intros groups; simpl.
  - by rewrite (right_id_L [] (++)).
  - rewrite IH, addToGroup_concat, <-(assoc_L (++)). done.
Qed.

Lemma groupKey_without_map post :
  Polylang.translationMap (Post.polylang post) = None
  ∨ Polylang.translationMap (Post.polylang post) = Some [] →
  groupKey post = Post.id post.
Proof. unfold groupKey. by intros [-> | ->]. Qed.

Lemma groupKey_with_map post tm :
  Polylang.translationMap (Post.polylang post) = Some tm → tm ≠ [] →
  groupKey post = join "," (js_sort (Object_values tm)).
Proof.
  unfold groupKey. intros -> Hne.
  rewrite bool_decide_eq_true_2; [done|].
  rewrite Object_keys_length. destruct tm; [done | simpl; lia].
Qed.

(** C6: with translation mode on, the groups partition the post collection:
    the keys are distinct, the group of a key holds exactly the posts with
    that key, in collection order, and all groups together hold each post as
    often as the collection does.  The key of a post with a non-empty
    translation map is the comma-joined sorted list of the mapped post ids,
    the key of any other post is its own id, and two posts whose maps map
    the same ids (in particular maps with the same entries, in any order)
    have the same key. *)
Theorem C6_every_post_in_exactly_one_group (allPosts : list Post.t) :
  let groups := buildTranslationGroups allPosts in
  NoDup groups.*1
  ∧ (∀ key members,
       (key, members) ∈ groups ↔
       members ≠ [] ∧ members = filter (fun p => groupKey p = key) allPosts)
  ∧ concat groups.*2 ≡ₚ allPosts
  ∧ (∀ post tm,
       Polylang.translationMap (Post.polylang post) = Some tm → tm ≠ [] →
       ∃ ids, groupKey post = join "," ids
              ∧ Sorted String.le ids ∧ ids ≡ₚ tm.*2)
  ∧ (∀ post,
       Polylang.translationMap (Post.polylang post) = None
       ∨ Polylang.translationMap (Post.polylang post) = Some [] →
       groupKey post = Post.id post)
  ∧ (∀ p q tm1 tm2,
       Polylang.translationMap (Post.polylang p) = Some tm1 →
       Polylang.translationMap (Post.polylang q) = Some tm2 →
       tm1 ≠ [] → tm2 ≠ [] → tm1.*2 ≡ₚ tm2.*2 →
       groupKey p = groupKey q).
Proof.
  intros groups. subst groups.
  split; [apply buildTranslationGroups_NoDup|].
  split.
  { intros key members. split.
    - intros Hin.
      apply (obj_get_elem _ _ _ (buildTranslationGroups_NoDup allPosts)) in Hin.
      rewrite buildTranslationGroups_get in Hin.
      destruct (filter _ allPosts) eqn:Hf; [done|].
      by injection Hin as <-.
    - intros [Hne ->]. apply obj_get_Some_elem.
      rewrite buildTranslationGroups_get.
      by destruct (filter _ allPosts). }
  split; [apply buildTranslationGroups_concat|].
  split.
  { intros post tm Htm Hne. exists (js_sort (Object_values tm)).
    split; [by apply groupKey_with_map|].
    split; [apply js_sort_Sorted|].
    by rewrite js_sort_Permutation, Object_values_Permutation. }
  split; [apply groupKey_without_map|].
  intros p q tm1 tm2 H1 H2 Hne1 Hne2 Hp.
  rewrite (groupKey_with_map p tm1), (groupKey_with_map q tm2) by done.
  f_equal. apply js_sort_perm_eq.
  by rewrite !Object_values_Permutation.
Qed.

(** The dictionary in which every post is alone under its own id. *)
Lemma obj_set_last {V} (o : JsObject V) k (v0 v : V) :
  k ∉ o.*1 → obj_set (o ++ [(k, v0)]) k v = o ++ [(k, v)].
Proof.
  induction o as [|[k0 w] o IH]; simpl.
  - intros _. by rewrite String.eqb_refl.
  - rewrite not_elem_of_cons. intros [Hne Hk].
    destruct (String.eqb_spec k0 k); [congruence|]. by rewrite IH.
Qed.

Lemma addToGroup_fresh groups post :
  groupKey post ∉ groups.*1 →
  addToGroup groups post = groups ++ [(groupKey post, [post])].
Proof.
  intros Hk. unfold addToGroup.
  rewrite (proj2 (obj_get_None groups (groupKey post)) Hk). simpl.
  rewrite obj_get_set, decide_True by done. simpl.
  rewrite (obj_set_fresh groups) by done.
  by apply obj_set_last.
Qed.

Lemma singletons_from (step : JsObject (list Post.t) → Post.t → JsObject (list Post.t))
    (groups : JsObject (list Post.t)) (posts : list Post.t) :
  (∀ g p, Post.id p ∉ g.*1 → p ∈ posts → step g p = g ++ [(Post.id p, [p])]) →
  NoDup (groups.*1 ++ (Post.id <$> posts)) →
  foldl step groups posts = groups ++ ((fun p => (Post.id p, [p])) <$> posts).
Proof.
  intros Hstep. revert groups.
  induction posts as [|post rest IH]; intros groups Hnd; simpl.
  - by rewrite (right_id_L [] (++)).
  - rewrite Hstep.
    + rewrite IH.
      * by rewrite <-(assoc_L (++)).
      * intros g p Hg Hp. apply Hstep; [done | by apply list_elem_of_further].
      * rewrite fmap_app, <-(assoc_L (++)). done.
    + apply NoDup_app in Hnd as (_ & Hdisj & _).
      intros Hin. apply (Hdisj _ Hin). apply list_elem_of_here.
    + apply list_elem_of_here.
Qed.

(** C7: a collection of posts with distinct ids, none of which carries a
    translation map, is grouped the same way whether translation mode is on
    or off: each post alone, under its own id, in collection order. *)
Theorem C7_no_translation_maps_same_groups (cfgOn cfgOff : Config.t)
    (posts : list Post.t) :
  Config.polylang cfgOn = true →
  Config.polylang cfgOff = false →
  NoDup (Post.id <$> posts) →
  Forall (fun p => Polylang.translationMap (Post.polylang p) = None) posts →
  groupMapOf cfgOn posts = groupMapOf cfgOff posts
  ∧ groupMapOf cfgOff posts = (fun p => (Post.id p, [p])) <$> posts.
Proof.
  intros Hon Hoff Hnd Hnone. unfold groupMapOf. rewrite Hon, Hoff.
  assert (foldl (fun groupMap post => obj_set groupMap (Post.id post) [post])
                [] posts = (fun p => (Post.id p, [p])) <$> posts) as Hoff'.
  { apply (singletons_from _ [] posts); [|done].
    intros g p Hg _. by apply obj_set_fresh. }
  split; [|done]. rewrite Hoff'.
  unfold buildTranslationGroups.
  apply (singletons_from addToGroup [] posts); [|done].
  intros g p Hg Hp.
  rewrite Forall_forall in Hnone.
  assert (groupKey p = Post.id p) as Hkey
    by (apply groupKey_without_map; left; by apply Hnone).
  rewrite <-Hkey in *. by apply addToGroup_fresh.
Qed.

(** ** Strings and paths *)

Lemma string_app_assoc (s1 s2 s3 : string) :
  (s1 +:+ s2) +:+ s3 = s1 +:+ s2 +:+ s3.
Proof.
  induction s1 as [|c s1 IH]; [done|].
  change (String c ((s1 +:+ s2) +:+ s3) = String c (s1 +:+ s2 +:+ s3)).
  by rewrite IH.
Qed.

Lemma string_app_nil_r (s : string) : s +:+ EmptyString = s.
Proof.
  induction s as [|c s IH]; [done|].
  change (String c (s +:+ EmptyString) = String c s). by rewrite IH.
Qed.

Lemma split_on_nonempty sep s : split_on sep s ≠ [].
Proof.
  destruct s as [|c s]; simpl; [done|].
  destruct (Ascii.eqb c sep); [done|]. by destruct (split_on sep s).
Qed.

Lemma split_on_app sep s1 s2 :
  split_on sep (s1 +:+ String sep s2) = split_on sep s1 ++ split_on sep s2.
Proof.
  induction s1 as [|c s1 IH].
  - change (split_on sep (String sep s2) = [EmptyString] ++ split_on sep s2).
    simpl. by rewrite Ascii.eqb_refl.
  - change (split_on sep (String c (s1 +:+ String sep s2))
            = split_on sep (String c s1) ++ split_on sep s2).
    simpl. rewrite IH. destruct (Ascii.eqb c sep); [done|].
    pose proof (split_on_nonempty sep s1).
    by destruct (split_on sep s1).
Qed.

Lemma join_split_on sep s : join (String sep EmptyString) (split_on sep s) = s.
Proof.
  unfold join. induction s as [|c s IH]; [done|]. simpl.
  pose proof (split_on_nonempty sep s) as Hne.
  destruct (Ascii.eqb_spec c sep) as [->|Hc].
  - destruct (split_on sep s) as [|p ps]; [done|].
    change (String.concat (String sep EmptyString) (EmptyString :: p :: ps))
      with (String sep (String.concat (String sep EmptyString) (p :: ps))).
    by rewrite IH.
  - destruct (split_on sep s) as [|p ps]; [done|].
    destruct ps as [|q ps].
    + simpl in *. by rewrite IH.
    + change (String.concat (String sep EmptyString) (String c p :: q :: ps))
        with (String c (String.concat (String sep EmptyString) (p :: q :: ps))).
      by rewrite IH.
Qed.

Lemma split_on_absent sep s :
  includes_char sep s = false → split_on sep s = [s].
Proof.
  induction s as [|c s IH]; simpl; [done|].
  intros [Hc Hs]%orb_false_iff. rewrite Hc, IH; done.
Qed.

Lemma path_dirname_join dir file :
  includes_char slash file = false →
  path_dirname (path_join dir file) = dir.
Proof.
  intros Hfile. unfold path_dirname, path_join.
  change (dir +:+ "/" +:+ file) with (dir +:+ String slash file).
  rewrite split_on_app, (split_on_absent _ file) by done.
  pose proof (split_on_nonempty slash dir) as Hne.
  pose proof (join_split_on slash dir) as Hjoin.
  destruct (split_on slash dir) as [|p ps]; [done|].
  rewrite <-Hjoin. destruct ps as [|q ps]; [done|].
  change ((p :: q :: ps) ++ [file]) with (p :: q :: (ps ++ [file])).
  change (join "/" (removelast ((p :: q :: ps) ++ [file]))
          = join (String slash EmptyString) (p :: q :: ps)).
  by rewrite removelast_last.
Qed.

(** ** Planning *)

Lemma chooseBaseSlug_is_Some postsInGroup lang :
  postsInGroup ≠ [] → is_Some (chooseBaseSlug postsInGroup lang).
Proof.
  intros Hne. unfold chooseBaseSlug.
  destruct (find _ postsInGroup); [by eexists|].
  destruct postsInGroup; [done|]. by eexists.
Qed.

Lemma foldl_bind {A B C} (f : A → C → A) (h : B → list C) (l : list B) a :
  foldl f a (l ≫= h) = foldl (fun a x => foldl f a (h x)) a l.
Proof.
  revert a. induction l as [|x l IH]; intros a; [done|].
  change ((x :: l) ≫= h) with (h x ++ (l ≫= h)).
  by rewrite foldl_app, IH.
Qed.

Lemma foldl_pointwise {A B} (f g : A → B → A) (l : list B) a :
  (∀ a x, f a x = g a x) → foldl f a l = foldl g a l.
Proof.
  intros Hfg. revert a. induction l as [|x l IH]; intros a; [done|].
  simpl. by rewrite Hfg, IH.
Qed.

Lemma planImages_candidates cfg fs dir st urls :
  foldl (planImage cfg fs dir) st urls
  = planAll fs (Config.requestDelay cfg) (imageCandidate dir <$> urls) st.
Proof. unfold planAll. by rewrite foldl_fmap. Qed.

Lemma planMarkdownGroup_candidates cfg fs postsInGroup st :
  planMarkdownGroup cfg fs postsInGroup st =
    cs ← markdownGroupCandidates cfg postsInGroup;
    Some (planAll fs (Config.writeDelay cfg) cs st).
Proof.
  unfold planMarkdownGroup, markdownGroupCandidates, planAll.
  destruct (Config.polylang cfg && bool_decide (1 < length postsInGroup)).
  - destruct (chooseBaseSlug _ _); simpl; [|done].
    destruct (head postsInGroup); simpl; [|done].
    by rewrite foldl_fmap.
  - simpl. by rewrite foldl_fmap.
Qed.

Lemma planImageGroup_candidates cfg fs postsInGroup st :
  planImageGroup cfg fs postsInGroup st =
    cs ← imageGroupCandidates cfg postsInGroup;
    Some (planAll fs (Config.requestDelay cfg) cs st).
Proof.
  unfold planImageGroup, imageGroupCandidates, planAll.
  destruct (Config.polylang cfg && bool_decide (1 < length postsInGroup)).
  - destruct (chooseBaseSlug _ _); simpl; [|done].
    rewrite foldl_bind. f_equal. apply foldl_pointwise.
    intros a post. apply planImages_candidates.
  - simpl. rewrite foldl_bind. f_equal. apply foldl_pointwise.
    intros a post. apply planImages_candidates.
Qed.

Lemma filter_all {A} (P : A → Prop) `{∀ x, Decision (P x)} (l : list A) :
  (∀ x, x ∈ l → P x) → filter P l = l.
Proof.
  induction l as [|x l IH]; intros HP; [done|].
  rewrite filter_cons_True by (apply HP, list_elem_of_here).
  f_equal. apply IH. intros y Hy. by apply HP, list_elem_of_further.
Qed.

Lemma filter_none {A} (P : A → Prop) `{∀ x, Decision (P x)} (l : list A) :
  (∀ x, x ∈ l → ¬ P x) → filter P l = [].
Proof.
  induction l as [|x l IH]; intros HP; [done|].
  rewrite filter_cons_False by (apply HP, list_elem_of_here).
  apply IH. intros y Hy. by apply HP, list_elem_of_further.
Qed.

Lemma planAll_app fs step cs1 cs2 st :
  planAll fs step (cs1 ++ cs2) st = planAll fs step cs2 (planAll fs step cs1 st).
Proof. apply foldl_app. Qed.

Lemma planAll_paths fs step cs st :
  Forall wellFormed cs →
  plannedPaths (planAll fs step cs st)
  = plannedPaths st ++ filter (fun d => d ∉ fs) cs.*1.
Proof.
  intros Hwf. revert st.
  induction Hwf as [|[d mk] cs Hc _ IH]; intros st; simpl.
  - by rewrite filter_nil, (right_id_L [] (++)).
  - rewrite IH. unfold planPayload, existsSync, plannedPaths. simpl.
    case_bool_decide as Hd; simpl.
    + by rewrite filter_cons_False by (by intros ?).
    + rewrite filter_cons_True by done.
      rewrite fmap_app, <-(assoc_L (++)). simpl.
      pose proof (Hc (delay st)) as Hdest. simpl in Hdest. by rewrite Hdest.
Qed.

Lemma planAll_existing fs step cs st :
  existingCount (planAll fs step cs st)
  = existingCount st + length (filter (fun d => d ∈ fs) cs.*1).
Proof.
  revert st. induction cs as [|[d mk] cs IH]; intros st.
  { simpl. rewrite ?filter_nil. simpl. lia. }
  change (planAll fs step ((d, mk) :: cs) st)
    with (planAll fs step cs (planPayload fs step mk d st)).
  rewrite IH, fmap_cons. unfold planPayload, existsSync.
  case_bool_decide as Hd; cbn [existingCount fst].
  - rewrite filter_cons_True by done. cbn [length]. lia.
  - by rewrite filter_cons_False by done.
Qed.

Lemma allCandidates_elem groupCandidates entries key postsInGroup cs group c :
  allCandidates groupCandidates entries = Some cs →
  (key, postsInGroup) ∈ entries →
  groupCandidates postsInGroup = Some group →
  c ∈ group → c ∈ cs.
Proof.
  revert cs. induction entries as [|[key' first] rest IH]; intros cs Hall Hin.
  - by apply elem_of_nil in Hin.
  - simpl in Hall.
    destruct (groupCandidates first) as [cs1|] eqn:Hfirst; [|done].
    destruct (allCandidates groupCandidates rest) as [cs2|] eqn:Hrest; [|done].
    injection Hall as <-. intros Hgroup Hc.
    apply elem_of_app. apply elem_of_cons in Hin as [Heq | Hin].
    + injection Heq as -> ->. left. congruence.
    + right. by apply (IH cs2).
Qed.

Section PlannerFacts.
Variable groupCandidates : list Post.t → option (list Candidate).
Variable planGroup : FS → list Post.t → Plan → option Plan.
Variable delayStep : nat.
Hypothesis planGroup_candidates : ∀ fs postsInGroup st,
  planGroup fs postsInGroup st =
    cs ← groupCandidates postsInGroup; Some (planAll fs delayStep cs st).
Hypothesis groupCandidates_total : ∀ postsInGroup,
  ∃ cs, groupCandidates postsInGroup = Some cs ∧ Forall wellFormed cs.

Lemma planGroups_candidates entries :
  ∃ cs, allCandidates groupCandidates entries = Some cs
        ∧ Forall wellFormed cs
        ∧ ∀ fs st, planGroups (planGroup fs) entries st
                   = Some (planAll fs delayStep cs st).
Proof.
  induction entries as [|[key postsInGroup] rest (cs' & Hall & Hwf' & IH)].
  - exists []. by repeat split.
  - destruct (groupCandidates_total postsInGroup) as (cs & Hcs & Hwf).
    exists (cs ++ cs'). split; [by simpl; rewrite Hcs, Hall|].
    split; [by apply Forall_app|].
    intros fs st. simpl.
    by rewrite planGroup_candidates, Hcs, planAll_app; simpl.
Qed.

(** The destinations a planner considers are those of the candidates of
    all groups. *)
Lemma planner_candidates (groupMap : JsObject (list Post.t)) :
  ∃ cs, allCandidates groupCandidates (Object_entries groupMap) = Some cs
        ∧ Forall wellFormed cs
        ∧ from_option plannedPaths []
            (planGroups (planGroup ∅) (Object_entries groupMap) emptyPlan)
          = cs.*1
        ∧ ∀ fs, planGroups (planGroup fs) (Object_entries groupMap) emptyPlan
                = Some (planAll fs delayStep cs emptyPlan).
Proof.
  destruct (planGroups_candidates (Object_entries groupMap))
    as (cs & Hall & Hwf & Hplan).
  exists cs. do 2 (split; [done|]). split; [|by intros].
  rewrite Hplan. simpl. rewrite planAll_paths by done. simpl.
  apply filter_all. intros d _. apply not_elem_of_empty.
Qed.

(** What a planner returns, from the destinations it considers. *)
Lemma planner_spec (groupMap : JsObject (list Post.t)) :
  let plan fs := planGroups (planGroup fs) (Object_entries groupMap) emptyPlan in
  let candidates := from_option plannedPaths [] (plan ∅) in
  ∀ fs : FS, ∃ pl,
    plan fs = Some pl
    ∧ plannedPaths pl = filter (fun d => d ∉ fs) candidates
    ∧ existingCount pl = length (filter (fun d => d ∈ fs) candidates).
Proof.
  intros plan candidates fs.
  destruct (planner_candidates groupMap) as (cs & _ & Hwf & Hcandidates & Hplan).
  unfold candidates, plan. rewrite Hcandidates.
  exists (planAll fs delayStep cs emptyPlan).
  split; [apply Hplan|]. split.
  - by rewrite planAll_paths.
  - by rewrite planAll_existing.
Qed.

End PlannerFacts.

Lemma markdownCandidates_wellFormed dest (posts : list Post.t) :
  Forall wellFormed (markdownCandidate dest <$> posts).
Proof. apply Forall_fmap, Forall_true. by intros post d. Qed.

Lemma imageCandidates_wellFormed (dir : Post.t → string) (posts : list Post.t) :
  Forall wellFormed
    (posts ≫= fun post => imageCandidate (dir post) <$> Post.imageUrls post).
Proof.
  apply Forall_bind, Forall_true. intros post.
  apply Forall_fmap, Forall_true. by intros url d.
Qed.

Lemma markdownGroupCandidates_total cfg postsInGroup :
  ∃ cs, markdownGroupCandidates cfg postsInGroup = Some cs
        ∧ Forall wellFormed cs.
Proof.
  unfold markdownGroupCandidates.
  destruct (Config.polylang cfg && bool_decide (1 < length postsInGroup)) eqn:Hb.
  - apply andb_true_iff in Hb as [_ Hlen%bool_decide_eq_true].
    destruct postsInGroup as [|first rest]; [simpl in Hlen; lia|].
    destruct (chooseBaseSlug_is_Some (first :: rest) (Config.defaultLanguage cfg))
      as [baseSlug ->]; [done|].
    eexists. split; [reflexivity|]. apply markdownCandidates_wellFormed.
  - eexists. split; [reflexivity|]. apply markdownCandidates_wellFormed.
Qed.

Lemma imageGroupCandidates_total cfg postsInGroup :
  ∃ cs, imageGroupCandidates cfg postsInGroup = Some cs
        ∧ Forall wellFormed cs.
Proof.
  unfold imageGroupCandidates.
  destruct (Config.polylang cfg && bool_decide (1 < length postsInGroup)) eqn:Hb.
  - apply andb_true_iff in Hb as [_ Hlen%bool_decide_eq_true].
    destruct postsInGroup as [|first rest]; [simpl in Hlen; lia|].
    destruct (chooseBaseSlug_is_Some (first :: rest) (Config.defaultLanguage cfg))
      as [baseSlug ->]; [done|].
    eexists. split; [reflexivity|].
    apply (imageCandidates_wellFormed (fun _ => groupImagesDir cfg baseSlug)).
  - eexists. split; [reflexivity|].
    apply (imageCandidates_wellFormed (postImagesDir cfg)).
Qed.

Lemma planMarkdownFiles_spec cfg groupMap (fs : FS) :
  ∃ pl, planMarkdownFiles cfg fs groupMap = Some pl
        ∧ plannedPaths pl
          = filter (fun d => d ∉ fs) (markdownCandidates cfg groupMap)
        ∧ existingCount pl
          = length (filter (fun d => d ∈ fs) (markdownCandidates cfg groupMap)).
Proof.
  apply (planner_spec (markdownGroupCandidates cfg)
           (planMarkdownGroup cfg) (Config.writeDelay cfg)).
  - intros. apply planMarkdownGroup_candidates.
  - apply markdownGroupCandidates_total.
Qed.

Lemma planImageFiles_spec cfg groupMap (fs : FS) :
  ∃ pl, planImageFiles cfg fs groupMap = Some pl
        ∧ plannedPaths pl
          = filter (fun d => d ∉ fs) (imageCandidates cfg groupMap)
        ∧ existingCount pl
          = length (filter (fun d => d ∈ fs) (imageCandidates cfg groupMap)).
Proof.
  apply (planner_spec (imageGroupCandidates cfg)
           (planImageGroup cfg) (Config.requestDelay cfg)).
  - intros. apply planImageGroup_candidates.
  - apply imageGroupCandidates_total.
Qed.

(** A second planning run, after every destination planned by the first
    has come to exist, plans nothing. *)
Lemma replanning_is_empty (candidates : list string) (fs fs' : FS) pl pl' :
  plannedPaths pl = filter (fun d => d ∉ fs) candidates →
  plannedPaths pl' = filter (fun d => d ∉ fs') candidates →
  existingCount pl' = length (filter (fun d => d ∈ fs') candidates) →
  fs ⊆ fs' →
  (∀ d, d ∈ plannedPaths pl → d ∈ fs') →
  payloads pl' = [] ∧ existingCount pl' = length candidates.
Proof.
  intros Hpl Hpl' Hex Hsub Hwritten.
  assert (∀ d, d ∈ candidates → d ∈ fs') as Hall.
  { intros d Hd. destruct (decide (d ∈ fs)) as [Hin|Hnin].
    - by apply Hsub.
    - apply Hwritten. rewrite Hpl. by apply list_elem_of_filter. }
  split.
  - apply (fmap_nil_inv Payload.destinationPath).
    fold (plannedPaths pl'). rewrite Hpl'.
    apply filter_none. intros d Hd Hnin. by apply Hnin, Hall.
  - rewrite Hex. f_equal. by apply filter_all.
Qed.

(** ** The destinations of translations *)

Lemma planPosts_candidates cfg fs dest postsInGroup st :
  foldl (fun st post => planPost cfg fs (dest post) post st) st postsInGroup
  = planAll fs (Config.writeDelay cfg) (markdownCandidate dest <$> postsInGroup) st.
Proof. unfold planAll. by rewrite foldl_fmap. Qed.

Lemma translationPath_destination cfg first baseSlug post :
  translationPath cfg
    (if Config.postFolders cfg
     then Some (path_dirname (buildPostPath cfg (set_slug first baseSlug)))
     else None)
    baseSlug post
  = translationDestination cfg baseSlug post.
Proof.
  unfold translationPath, translationDestination, buildPostPath.
  destruct (Config.postFolders cfg); simpl.
  - by rewrite path_dirname_join.
  - by rewrite !string_app_assoc.
Qed.

Lemma planMarkdownGroup_translations cfg fs postsInGroup st :
  Config.polylang cfg = true → 1 < length postsInGroup →
  ∃ baseSlug,
    chooseBaseSlug postsInGroup (Config.defaultLanguage cfg) = Some baseSlug
    ∧ planMarkdownGroup cfg fs postsInGroup st
      = Some (foldl (fun st post =>
                       planPost cfg fs
                         (translationDestination cfg baseSlug post) post st)
                    st postsInGroup).
Proof.
  intros Hpoly Hlen. unfold planMarkdownGroup.
  rewrite Hpoly, bool_decide_eq_true_2 by done. simpl.
  destruct postsInGroup as [|first rest]; [simpl in Hlen; lia|].
  destruct (chooseBaseSlug_is_Some (first :: rest) (Config.defaultLanguage cfg))
    as [baseSlug Hbase]; [done|].
  exists baseSlug. split; [done|]. rewrite Hbase.
  change (head (first :: rest)) with (Some first).
  cbn [mbind option_bind]. f_equal.
  apply foldl_pointwise. intros a post.
  by rewrite translationPath_destination.
Qed.

Lemma chooseBaseSlug_without_language postsInGroup (lang : string) :
  Forall (fun p => Post.language p = None) postsInGroup →
  chooseBaseSlug postsInGroup (Some lang) = Post.slug <$> head postsInGroup.
Proof.
  intros Hnone. unfold chooseBaseSlug.
  assert (find (fun p => bool_decide (Post.language p = Some lang)) postsInGroup
          = None) as ->; [|done].
  induction Hnone as [|p ps Hp _ IH]; [done|].
  simpl. rewrite Hp. by rewrite bool_decide_eq_false_2.
Qed.

(** C4: in a group of more than one post, with translation mode on, every
    post is planned at [{output}/{baseSlug}/index.{lang}.md] with per-post
    folders and at [{output}/{baseSlug}.{lang}.md] without, where
    [baseSlug] is what [chooseBaseSlug] returns for the group and [lang] is
    the post's language, or [und] when it has none: the loop over the group
    plans each member at that destination, and the destination is among
    those the planner considers for the group map.  In the scenario of
    posts 1 (English) and 2 (French), in this order, sharing the map
    [{en: 1, fr: 2}], the one group has key [1,2], the base slug is the slug
    of post 1 and the destinations are [{slug1}/index.en.md] and
    [{slug1}/index.fr.md] under the output folder. *)
Theorem C4_translation_markdown_destinations :
  (∀ cfg (fs : FS) postsInGroup st,
     Config.polylang cfg = true → 1 < length postsInGroup →
     ∃ baseSlug st',
       chooseBaseSlug postsInGroup (Config.defaultLanguage cfg) = Some baseSlug
       ∧ planMarkdownGroup cfg fs postsInGroup st = Some st'
       ∧ st' = foldl (fun st post =>
                        planPost cfg fs
                          (translationDestination cfg baseSlug post) post st)
                     st postsInGroup
       ∧ plannedPaths st'
         = plannedPaths st
           ++ filter (fun d => d ∉ fs)
                (translationDestination cfg baseSlug <$> postsInGroup))
  ∧ (∀ cfg (groupMap : JsObject (list Post.t)) key postsInGroup post,
       Config.polylang cfg = true →
       (key, postsInGroup) ∈ groupMap → 1 < length postsInGroup →
       post ∈ postsInGroup →
       ∃ baseSlug,
         chooseBaseSlug postsInGroup (Config.defaultLanguage cfg) = Some baseSlug
         ∧ translationDestination cfg baseSlug post
           ∈ markdownCandidates cfg groupMap)
  ∧ (∀ cfg baseSlug post,
       translationDestination cfg baseSlug post
       = if Config.postFolders cfg
         then path_join (path_join (Config.output cfg) baseSlug)
                        ("index." +:+ langOf post +:+ ".md")
         else path_join (Config.output cfg)
                        (baseSlug +:+ "." +:+ langOf post +:+ ".md"))
  ∧ (∀ post,
       (Polylang.language (Post.polylang post) = None → langOf post = "und")
       ∧ (∀ lang, Polylang.language (Post.polylang post) = Some lang →
                  lang ≠ EmptyString → langOf post = lang))
  ∧ (∀ cfg p1 p2,
       Config.polylang cfg = true → Config.postFolders cfg = true →
       Config.defaultLanguage cfg = Some "en" →
       Post.id p1 = "1" → Post.id p2 = "2" →
       Post.language p1 = None → Post.language p2 = None →
       Polylang.language (Post.polylang p1) = Some "en" →
       Polylang.language (Post.polylang p2) = Some "fr" →
       Polylang.translationMap (Post.polylang p1) = Some [("en", "1"); ("fr", "2")] →
       Polylang.translationMap (Post.polylang p2) = Some [("en", "1"); ("fr", "2")] →
       groupMapOf cfg [p1; p2] = [("1,2", [p1; p2])]
       ∧ chooseBaseSlug [p1; p2] (Config.defaultLanguage cfg) = Some (Post.slug p1)
       ∧ markdownCandidates cfg (groupMapOf cfg [p1; p2])
         = [ path_join (path_join (Config.output cfg) (Post.slug p1)) "index.en.md";
             path_join (path_join (Config.output cfg) (Post.slug p1)) "index.fr.md" ]).
Proof.
  split.
  { intros cfg fs postsInGroup st Hpoly Hlen.
    destruct (planMarkdownGroup_translations cfg fs postsInGroup st Hpoly Hlen)
      as (baseSlug & Hbase & Hplan).
    eexists baseSlug, _. split; [done|]. split; [exact Hplan|].
    split; [done|].
    rewrite planPosts_candidates, planAll_paths
      by apply markdownCandidates_wellFormed.
    by rewrite <-list_fmap_compose. }
  split.
  { intros cfg groupMap key postsInGroup post Hpoly Hgroup Hlen Hpost.
    destruct (head postsInGroup) as [first|] eqn:Hhead;
      [|destruct postsInGroup; [simpl in Hlen; lia | done]].
    destruct (chooseBaseSlug_is_Some postsInGroup (Config.defaultLanguage cfg))
      as [baseSlug Hbase]; [by intros ->|].
    exists baseSlug. split; [done|].
    destruct (planner_candidates (markdownGroupCandidates cfg)
                (planMarkdownGroup cfg) (Config.writeDelay cfg)
                (planMarkdownGroup_candidates cfg)
                (markdownGroupCandidates_total cfg) groupMap)
      as (cs & Hall & _ & Hcandidates & _).
    unfold markdownCandidates, planMarkdownFiles. rewrite Hcandidates.
    apply list_elem_of_fmap.
    exists (markdownCandidate (translationDestination cfg baseSlug) post).
    split; [done|].
    apply (allCandidates_elem _ _ key postsInGroup cs
             (markdownCandidate (translationDestination cfg baseSlug)
                <$> postsInGroup) _ Hall).
    - by rewrite Object_entries_Permutation.
    - unfold markdownGroupCandidates.
      rewrite Hpoly, bool_decide_eq_true_2 by done. simpl.
      rewrite Hbase. simpl. rewrite Hhead. simpl. f_equal.
      apply list_fmap_ext.
      intros j p _. unfold markdownCandidate.
      by rewrite translationPath_destination.
    - apply list_elem_of_fmap. by exists post. }
  split; [done|].
  split.
  { intros post. unfold langOf. split.
    - by intros ->.
    - intros lang -> Hne. by rewrite bool_decide_eq_false_2. }
  intros cfg p1 p2 Hpoly Hfold Hlang Hid1 Hid2 Hl1 Hl2 Hen Hfr Htm1 Htm2.
  assert (groupKey p1 = "1,2") as Hk1 by (unfold groupKey; by rewrite Htm1).
  assert (groupKey p2 = "1,2") as Hk2 by (unfold groupKey; by rewrite Htm2).
  assert (groupMapOf cfg [p1; p2] = [("1,2", [p1; p2])]) as Hgroups.
  { unfold groupMapOf, buildTranslationGroups. rewrite Hpoly. simpl.
    unfold addToGroup. rewrite Hk1. simpl. by rewrite Hk2. }
  assert (chooseBaseSlug [p1; p2] (Config.defaultLanguage cfg)
          = Some (Post.slug p1)) as Hbase.
  { rewrite Hlang. rewrite chooseBaseSlug_without_language; [done|].
    by repeat constructor. }
  split; [done|]. split; [done|].
  unfold markdownCandidates, planMarkdownFiles. rewrite Hgroups.
  change (Object_entries [("1,2", [p1; p2])]) with [("1,2", [p1; p2])].
  cbn [planGroups].
  destruct (planMarkdownGroup_translations cfg ∅ [p1; p2] emptyPlan Hpoly)
    as (baseSlug & Hbase' & ->); [simpl; lia|].
  rewrite Hbase in Hbase'. injection Hbase' as <-.
  cbn [mbind option_bind from_option].
  rewrite planPosts_candidates, planAll_paths
    by apply markdownCandidates_wellFormed.
  rewrite filter_all by (intros d _; apply not_elem_of_empty).
  rewrite <-list_fmap_compose. unfold translationDestination, langOf.
  simpl. by rewrite Hfold, Hen, Hfr.
Qed.

(** ** The examples *)

(** C1, at the failing input: posts 1 (French, slug [bonjour]) and 2
    (English, slug [hello]) are translations of each other and form the
    group [1,2]; the default language is [en], the member in that language
    has the slug [hello], and [chooseBaseSlug] returns [bonjour], the slug
    of the first member. *)
Theorem C1_default_language_member_not_chosen :
  buildTranslationGroups Example.frenchFirst = [("1,2", Example.frenchFirst)]
  ∧ Config.defaultLanguage Example.cfg = Some "en"
  ∧ Post.slug <$> filter (fun p => Polylang.language (Post.polylang p) = Some "en")
                         Example.frenchFirst
    = ["hello"]
  ∧ chooseBaseSlug Example.frenchFirst (Config.defaultLanguage Example.cfg)
    = Some "bonjour".
Proof. repeat split; reflexivity. Qed.

(** C2 fails where two translations of a group share their featured image:
    the image planner yields two payloads for one destination. *)
Lemma C2_counterexample_shared_cover_image :
  plannedPaths <$> planImageFiles Example.cfg ∅
                     (groupMapOf Example.cfg Example.englishFirst)
  = Some ["output/hello/images/cover.png"; "output/hello/images/cover.png"]
  ∧ ∃ a b, payloads <$> planImageFiles Example.cfg ∅
                          (groupMapOf Example.cfg Example.englishFirst)
           = Some [a; b]
           ∧ Payload.destinationPath a = Payload.destinationPath b.
Proof.
  split; [reflexivity|]. eexists _, _. split; reflexivity.
Qed.

(** The scenario on the posts of the example, with slugs [hello] and
    [bonjour]. *)
Lemma C4_witness :
  groupMapOf Example.cfg [Example.english; Example.french]
  = [("1,2", [Example.english; Example.french])]
  ∧ chooseBaseSlug [Example.english; Example.french]
      (Config.defaultLanguage Example.cfg) = Some "hello"
  ∧ markdownCandidates Example.cfg
      (groupMapOf Example.cfg [Example.english; Example.french])
    = ["output/hello/index.en.md"; "output/hello/index.fr.md"].
Proof.
  exact (proj2 (proj2 (proj2 (proj2 C4_translation_markdown_destinations)))
           Example.cfg Example.english Example.french
           eq_refl eq_refl eq_refl eq_refl eq_refl eq_refl eq_refl
           eq_refl eq_refl eq_refl eq_refl).
Defined.

(** The two translations of the example are the group [1,2]. *)
Lemma C6_witness :
  ("1,2", [Example.english; Example.french])
    ∈ buildTranslationGroups [Example.english; Example.french]
  ∧ groupKey Example.english = groupKey Example.french.
Proof.
  destruct (C6_every_post_in_exactly_one_group
              [Example.english; Example.french])
    as (_ & Hmembers & _ & _ & _ & Hsame).
  split.
  - apply Hmembers. split; [discriminate | reflexivity].
  - apply (Hsame Example.english Example.french
             [("en", "1"); ("fr", "2")] [("en", "1"); ("fr", "2")]);
      (reflexivity || discriminate).
Defined.

(** The two untranslated posts of the example are grouped alike with
    translation mode on and off. *)
Lemma C7_witness :
  groupMapOf Example.cfg Example.untranslated
  = groupMapOf Example.cfgOff Example.untranslated
  ∧ groupMapOf Example.cfgOff Example.untranslated
    = (fun p => (Post.id p, [p])) <$> Example.untranslated.
Proof.
  apply (C7_no_translation_maps_same_groups Example.cfg Example.cfgOff
           Example.untranslated).
  - reflexivity.
  - reflexivity.
  - apply (bool_decide_unpack _). reflexivity.
  - apply Forall_cons. split; [reflexivity|].
    apply Forall_cons. split; [reflexivity|]. apply Forall_nil_2.
Defined.

(** ** The Markdown loader *)

Lemma frontmatterLines_from cfg entries (output : string) :
  foldl (fun output entry => output +:+ frontmatterLine cfg entry) output entries
  = output +:+ frontmatterLines cfg entries.
Proof.
  unfold frontmatterLines. revert output.
  induction entries as [|entry entries IH] using rev_ind; intros output.
  - simpl. by rewrite string_app_nil_r.
  - rewrite !foldl_snoc, IH. by rewrite string_app_assoc.
Qed.

Lemma frontmatterLines_app cfg entries1 entries2 :
  frontmatterLines cfg (entries1 ++ entries2)
  = frontmatterLines cfg entries1 +:+ frontmatterLines cfg entries2.
Proof.
  unfold frontmatterLines at 1. rewrite foldl_app.
  fold (frontmatterLines cfg entries1). apply frontmatterLines_from.
Qed.

Lemma frontmatterLines_cons cfg entry entries :
  frontmatterLines cfg (entry :: entries)
  = frontmatterLine cfg entry +:+ frontmatterLines cfg entries.
Proof.
  unfold frontmatterLines at 1. simpl. apply frontmatterLines_from.
Qed.

Lemma emptyValue_output cfg value :
  emptyValue value → outputValueOf cfg value = None.
Proof. by intros [-> | [-> | [-> | ->]]]. Qed.

(** C10: a frontmatter entry whose value is an empty array, [null],
    [undefined] or the empty string gets no output value, adds no line,
    and the header and the whole document are what they are without the
    entry. *)
Theorem C10_empty_values_are_omitted (cfg : Config.t) (key : string)
    (value : JsVal) :
  emptyValue value →
  outputValueOf cfg value = None
  ∧ frontmatterLine cfg (key, value) = EmptyString
  ∧ (∀ before after,
       frontmatterLines cfg (before ++ (key, value) :: after)
       = frontmatterLines cfg (before ++ after))
  ∧ (∀ post post' before after,
       Object_entries (Post.frontmatter post) = before ++ (key, value) :: after →
       Object_entries (Post.frontmatter post') = before ++ after →
       Post.content post' = Post.content post →
       Post.metaContent post' = Post.metaContent post →
       loadMarkdownFilePromise cfg post = loadMarkdownFilePromise cfg post').
Proof.
  intros Hempty.
  pose proof (emptyValue_output cfg value Hempty) as Hout.
  assert (frontmatterLine cfg (key, value) = EmptyString) as Hline
    by (unfold frontmatterLine; simpl; by rewrite Hout).
  assert (∀ before after,
            frontmatterLines cfg (before ++ (key, value) :: after)
            = frontmatterLines cfg (before ++ after)) as Hlines.
  { intros before after.
    by rewrite !frontmatterLines_app, frontmatterLines_cons, Hline. }
  do 3 (split; [done|]).
  intros post post' before after Hfm Hfm' Hcontent Hmeta.
  unfold loadMarkdownFilePromise, frontmatterHeader.
  by rewrite Hfm, Hfm', Hlines, Hcontent, Hmeta.
Qed.

(** An empty [tags] array between a title and a draft flag. *)
Lemma C10_witness :
  frontmatterLine Example.cfg ("tags", JArr []) = EmptyString
  ∧ frontmatterLines Example.cfg
      ([("title", JStr "Hello")] ++ ("tags", JArr []) :: [("draft", JBool false)])
    = frontmatterLines Example.cfg
        ([("title", JStr "Hello")] ++ [("draft", JBool false)]).
Proof.
  destruct (C10_empty_values_are_omitted Example.cfg "tags" (JArr []))
    as (_ & Hline & Hlines & _).
  - left. reflexivity.
  - split; [exact Hline | apply Hlines].
Defined.

Lemma multiline_output (lines : list string) (outputValue : string) :
  foldl (fun out line => Some (appendTo out ("  " +:+ line +:+ newline)))
        (Some outputValue) lines
  = Some (outputValue +:+ indentedLines lines).
Proof.
  revert outputValue. induction lines as [|line lines IH]; intros outputValue.
  - simpl. by rewrite string_app_nil_r.
  - simpl. rewrite IH. by rewrite !string_app_assoc.
Qed.

(** What the loader makes of every string value with a line break: the
    variable it appends the indented lines to was never given a value, so
    the text starts with [undefined], on the line of the key. *)
Lemma multiline_value_line cfg key (value : string) :
  includes_char (Ascii.ascii_of_nat 10) value = true →
  frontmatterLine cfg (key, JStr value)
  = key +:+ ": " +:+ "undefined"
    +:+ indentedLines (split_on (Ascii.ascii_of_nat 10) value) +:+ newline.
Proof.
  intros Hnl. unfold frontmatterLine. simpl. rewrite Hnl.
  pose proof (split_on_nonempty (Ascii.ascii_of_nat 10) value) as Hne.
  destruct (split_on (Ascii.ascii_of_nat 10) value) as [|line lines]; [done|].
  simpl. rewrite multiline_output.
  by rewrite !string_app_assoc.
Qed.

(** C8, at the failing input: the description [first line / second line]
    is not written as a block under its key.  The header the loader emits
    has the first line on the line of the key, after the word [undefined],
    and an empty line after the second. *)
Theorem C8_multiline_value_starts_with_undefined :
  loadMarkdownFilePromise Example.cfg Example.described
  = "---" +:+ newline
    +:+ "title: " +:+ dquote +:+ "Hello" +:+ dquote +:+ newline
    +:+ "description: undefined  first line" +:+ newline
    +:+ "  second line" +:+ newline
    +:+ newline
    +:+ "---" +:+ newline +:+ newline +:+ "Text" +:+ newline.
Proof. reflexivity. Qed.

Example sparse_document :
  loadMarkdownFilePromise Example.cfg Example.sparse
  = "---" +:+ newline
    +:+ "title: " +:+ dquote +:+ "Hello" +:+ dquote +:+ newline
    +:+ "draft: false" +:+ newline
    +:+ "---" +:+ newline +:+ newline +:+ "Text" +:+ newline.
Proof. reflexivity. Qed.

(** ** The payload executor *)

Section ExecutorFacts.
Variable mkdir : FS → string → FS * option string.
Variable fs_writeFile : FS → string → string → FS * option string.
Variable loadFunc : PayloadItem → Outcome string.

Local Abbreviation step := (step_unit mkdir fs_writeFile loadFunc).
Local Abbreviation exec := (run mkdir fs_writeFile loadFunc).

Lemma stageRank_le stage : stageRank stage ≤ 3.
Proof. destruct stage; simpl; lia. Qed.

Lemma stageRank_settled stage :
  stageRank stage = 3 → ∃ status, stage = Settled status.
Proof. destruct stage; simpl; try lia. by eexists. Qed.

(** A step of one unit leaves every other unit as it is. *)
Lemma step_other e i j : i ≠ j → units (step e i) !! j = units e !! j.
Proof.
  intros Hij. unfold step_unit.
  destruct (units e !! i) as [[payload [|data|data|status]]|]; [| | |done|done].
  - destruct (loadFunc _); simpl; by rewrite list_lookup_insert_ne.
  - destruct (mkdir _ _) as [fs [message|]]; simpl;
      by rewrite list_lookup_insert_ne.
  - destruct (fs_writeFile _ _ _) as [fs [message|]]; simpl;
      by rewrite list_lookup_insert_ne.
Qed.

(** A step of a unit that is not settled takes it further; a settled unit
    stays as it is. *)
Lemma step_self e i payload stage :
  units e !! i = Some (payload, stage) →
  ∃ stage', units (step e i) !! i = Some (payload, stage')
            ∧ (stageRank stage < 3 → stageRank stage < stageRank stage')
            ∧ (stageRank stage = 3 → stage' = stage).
Proof.
  intros Hi. pose proof (lookup_lt_Some _ _ _ Hi) as Hlt.
  unfold step_unit. rewrite Hi.
  destruct stage as [|data|data|status].
  - destruct (loadFunc _); simpl; rewrite list_lookup_insert_eq by done;
      eexists; (split; [done|]); simpl; split; lia.
  - destruct (mkdir _ _) as [fs [message|]]; simpl;
      rewrite list_lookup_insert_eq by done;
      eexists; (split; [done|]); simpl; split; lia.
  - destruct (fs_writeFile _ _ _) as [fs [message|]]; simpl;
      rewrite list_lookup_insert_eq by done;
      eexists; (split; [done|]); simpl; split; lia.
  - exists (Settled status). rewrite Hi. split; [done|]. simpl. split; [lia|done].
Qed.

Lemma step_length e i : length (units (step e i)) = length (units e).
Proof.
  unfold step_unit.
  destruct (units e !! i) as [[payload [|data|data|status]]|]; [| | |done|done].
  - destruct (loadFunc _); simpl; by rewrite length_insert.
  - destruct (mkdir _ _) as [fs [message|]]; simpl; by rewrite length_insert.
  - destruct (fs_writeFile _ _ _) as [fs [message|]]; simpl;
      by rewrite length_insert.
Qed.

Lemma run_length schedule e : length (units (exec schedule e)) = length (units e).
Proof.
  revert e. induction schedule as [|i schedule IH]; intros e; [done|].
  simpl. by rewrite IH, step_length.
Qed.

Lemma turns_nil i : turns i [] = 0.
Proof. reflexivity. Qed.

Lemma turns_cons i j schedule :
  turns i (j :: schedule)
  = if decide (j = i) then S (turns i schedule) else turns i schedule.
Proof. unfold turns. rewrite filter_cons. by case_decide. Qed.

(** After a schedule, a unit has come as far as its turns allow. *)
Lemma run_rank schedule e i payload stage :
  units e !! i = Some (payload, stage) →
  ∃ stage', units (exec schedule e) !! i = Some (payload, stage')
            ∧ 3 `min` (stageRank stage + turns i schedule) ≤ stageRank stage'.
Proof.
  revert e stage. induction schedule as [|j schedule IH]; intros e stage Hi.
  - exists stage. split; [done|]. rewrite turns_nil. lia.
  - rewrite turns_cons.
    change (exec (j :: schedule) e) with (exec schedule (step e j)).
    destruct (decide (j = i)) as [->|Hji].
    + destruct (step_self e i payload stage Hi) as (stage1 & H1 & Hup & Hsame).
      destruct (IH _ _ H1) as (stage' & H' & Hrank).
      exists stage'. split; [done|].
      pose proof (stageRank_le stage).
      destruct (decide (stageRank stage < 3)) as [Hlt|Hge].
      * specialize (Hup Hlt). lia.
      * rewrite Hsame in Hrank by lia. lia.
    + apply IH. by rewrite step_other.
Qed.

Lemma countStatus_total results :
  countStatus Fulfilled results + countStatus Rejected results = length results.
Proof.
  unfold countStatus. induction results as [|[] results IH]; [done| |].
  - rewrite filter_cons_True, filter_cons_False by done. cbn [length]. lia.
  - rewrite filter_cons_False, filter_cons_True by done. cbn [length]. lia.
Qed.

(** Under a complete schedule every unit is settled at the end. *)
Lemma run_complete_settled schedule payloads fs lines :
  complete (length payloads) schedule →
  ∃ results,
    allSettled (exec schedule (launch payloads fs lines)) = Some results
    ∧ length results = length payloads.
Proof.
  intros Hcomplete. set (e := exec schedule (launch payloads fs lines)).
  assert (is_Some (allSettled e)) as [results Hresults].
  { apply mapM_is_Some, Forall_lookup. intros i unit Hunit.
    assert (i < length payloads) as Hi.
    { apply lookup_lt_Some in Hunit. unfold e in Hunit.
      rewrite run_length in Hunit. simpl in Hunit.
      by rewrite length_fmap in Hunit. }
    destruct (lookup_lt_is_Some_2 payloads i Hi) as [payload Hpayload].
    destruct (run_rank schedule (launch payloads fs lines) i payload Scheduled)
      as (stage' & Hstage' & Hrank).
    { simpl. by rewrite list_lookup_fmap, Hpayload. }
    fold e in Hstage'. rewrite Hunit in Hstage'. injection Hstage' as ->.
    specialize (Hcomplete i Hi). fold (turns i schedule) in Hcomplete.
    pose proof (stageRank_le stage').
    change (stageRank Scheduled) with 0 in Hrank.
    destruct (stageRank_settled stage') as [status ->]; [lia|].
    by eexists. }
  exists results. split; [done|].
  apply mapM_Some, Forall2_length in Hresults. rewrite <-Hresults.
  unfold e. rewrite run_length. simpl. by rewrite length_fmap.
Qed.

End ExecutorFacts.

Lemma sequential_turns i start n :
  start ≤ i < start + n →
  3 ≤ turns i (flat_map (fun i => [i; i; i]) (seq start n)).
Proof.
  revert start. induction n as [|n IH]; intros start Hi; [lia|].
  simpl. rewrite !turns_cons.
  destruct (decide (start = i)) as [->|Hne]; [lia|].
  apply IH. lia.
Qed.

(** The schedule that runs the units one after the other is complete. *)
Lemma sequential_complete n : complete n (sequential n).
Proof. intros i Hi. apply (sequential_turns i 0 n). lia. Qed.

(** The run of the example: the second download fails, the other two are
    written, and the console says so. *)
Example downloads_run :
  (fun r => (r.1.1, r.2))
    <$> processPayloadsPromise Example.mkdir Example.fs_writeFile (sequential 3)
          Example.downloads Example.loader ∅ []
  = Some ([Fulfilled; Rejected; Fulfilled],
          [ Log "✓ [image] a.png";
            Log "✗ [image] b.png (Request failed with status code 404)";
            Log "✓ [image] c.png";
            Log "Done, but with 1 failed." ]).
Proof. reflexivity. Qed.

(** ** The parser *)

Lemma Object_fromEntries_fresh {V} (o l : JsObject V) :
  NoDup (o.*1 ++ l.*1) →
  foldl (fun o kv => obj_set o kv.1 kv.2) o l = o ++ l.
Proof.
  revert o. induction l as [|[k v] l IH]; intros o Hnd.
  - by rewrite (right_id_L [] (++)).
  - change (foldl (fun o kv => obj_set o kv.1 kv.2) (obj_set o k v) l
            = o ++ (k, v) :: l).
    rewrite obj_set_fresh.
    + rewrite IH; [by rewrite <-(assoc_L (++))|].
      by rewrite fmap_app, <-(assoc_L (++)).
    + apply NoDup_app in Hnd as (_ & Hdisj & _).
      intros Hin. apply (Hdisj _ Hin). apply list_elem_of_here.
Qed.

Lemma mergeImagesIntoPosts_ids images posts :
  Post.id <$> mergeImagesIntoPosts images posts = Post.id <$> posts.
Proof.
  unfold mergeImagesIntoPosts. revert posts.
  induction images as [|image images IH]; intros posts; [done|].
  simpl. rewrite IH, <-list_fmap_compose. done.
Qed.

Lemma mergeImagesIntoPosts_language images posts :
  Forall (fun p => Post.language p = None) posts →
  Forall (fun p => Post.language p = None) (mergeImagesIntoPosts images posts).
Proof.
  unfold mergeImagesIntoPosts. revert posts.
  induction images as [|image images IH]; intros posts Hposts; [done|].
  simpl. apply IH. apply Forall_fmap. by apply (Forall_impl _ _ _ Hposts).
Qed.

Lemma find_snoc {A} (f : A → bool) (l : list A) x :
  find f (l ++ [x])
  = match find f l with
    | Some y => Some y
    | None => if f x then Some x else None
    end.
Proof.
  induction l as [|y l IH]; simpl; [done|].
  destruct (f y); [done|]. apply IH.
Qed.

Lemma find_absent {A} (f : A → bool) (l : list A) :
  (∀ x, x ∈ l → f x = false) → find f l = None.
Proof.
  induction l as [|y l IH]; intros Hf; simpl; [done|].
  rewrite (Hf y) by apply list_elem_of_here.
  apply IH. intros x Hx. by apply Hf, list_elem_of_further.
Qed.

Lemma find_item allPostData item :
  NoDup (post_id <$> allPostData) → item ∈ allPostData →
  find (fun it => bool_decide (post_id it = post_id item)) allPostData
  = Some item.
Proof.
  induction allPostData as [|first rest IH]; intros Hnd Hin.
  - by apply elem_of_nil in Hin.
  - rewrite fmap_cons in Hnd. apply NoDup_cons in Hnd as [Hfirst Hnd].
    simpl. case_bool_decide as Hid.
    + apply elem_of_cons in Hin as [-> | Hin]; [done|].
      exfalso. apply Hfirst. rewrite Hid. apply list_elem_of_fmap. by exists item.
    + apply elem_of_cons in Hin as [-> | Hin]; [done|]. by apply IH.
Qed.

Lemma postById_entries posts :
  NoDup (Post.id <$> posts) →
  postById posts = imap (fun i p => (Post.id p, i)) posts
  ∧ (postById posts).*1 = Post.id <$> posts.
Proof.
  intros Hnd. unfold postById, Object_fromEntries.
  assert ((imap (fun i p => (Post.id p, i)) posts).*1 = Post.id <$> posts)
    as Hkeys by (rewrite fmap_imap; apply imap_const).
  rewrite Object_fromEntries_fresh by (simpl; by rewrite Hkeys).
  by split.
Qed.

(** With distinct ids, [postById] finds a post exactly when there is one
    with the id, and gives its position. *)
Lemma postById_Some posts k i :
  NoDup (Post.id <$> posts) →
  obj_get (postById posts) k = Some i →
  ∃ post, posts !! i = Some post ∧ Post.id post = k.
Proof.
  intros Hnd Hget. destruct (postById_entries posts Hnd) as [Hentries _].
  apply obj_get_Some_elem in Hget. rewrite Hentries in Hget.
  apply list_elem_of_lookup in Hget as [j Hj].
  apply list_lookup_imap_Some in Hj as (post & Hpost & Heq).
  injection Heq as -> ->. by exists post.
Qed.

Lemma postById_None posts k :
  NoDup (Post.id <$> posts) →
  obj_get (postById posts) k = None → k ∉ Post.id <$> posts.
Proof.
  intros Hnd Hget. destruct (postById_entries posts Hnd) as [_ Hkeys].
  rewrite <-Hkeys. by apply obj_get_None.
Qed.

Section AttachFacts.
Variable termMappings : JsObject (JsObject string).
Variable posts0 : list Post.t.
Hypothesis posts_distinct : NoDup (Post.id <$> posts0).

Lemma enriched_nil post : enriched termMappings [] post = post.
Proof. done. Qed.

Lemma enriched_snoc_other processed item post :
  post_id item ≠ Post.id post →
  enriched termMappings (processed ++ [item]) post
  = enriched termMappings processed post.
Proof.
  intros Hne. unfold enriched. rewrite find_snoc.
  destruct (find _ processed); [done|].
  by rewrite bool_decide_eq_false_2.
Qed.

Lemma enriched_snoc_match processed item post :
  post_id item = Post.id post →
  post_id item ∉ post_id <$> processed →
  enriched termMappings processed post = post
  ∧ enriched termMappings (processed ++ [item]) post
    = set_polylang post (polylangOf termMappings item).
Proof.
  intros Hid Hfresh. unfold enriched. rewrite find_snoc.
  rewrite find_absent.
  - by rewrite bool_decide_eq_true_2.
  - intros it Hit. apply bool_decide_eq_false_2. intros Heq.
    apply Hfresh. rewrite Hid, <-Heq. apply list_elem_of_fmap. by exists it.
Qed.

Lemma attachItem_enriched processed item :
  NoDup (post_id <$> processed ++ [item]) →
  attachItem termMappings (postById posts0)
    (enriched termMappings processed <$> posts0) item
  = enriched termMappings (processed ++ [item]) <$> posts0.
Proof.
  intros Hnd. rewrite fmap_app in Hnd.
  apply NoDup_app in Hnd as (_ & Hfresh & _).
  assert (post_id item ∉ post_id <$> processed) as Hitem.
  { intros Hin. apply (Hfresh _ Hin). apply list_elem_of_here. }
  unfold attachItem.
  destruct (obj_get (postById posts0) (post_id item)) as [k|] eqn:Hget.
  - destruct (postById_Some posts0 _ _ posts_distinct Hget) as (current & Hk & Hid).
    rewrite list_lookup_fmap, Hk. simpl.
    destruct (enriched_snoc_match processed item current) as [Hold Hnew];
      [done..|].
    apply list_eq. intros j. destruct (decide (j = k)) as [->|Hjk].
    + rewrite list_lookup_insert_eq
        by (rewrite length_fmap; by eapply lookup_lt_Some).
      rewrite list_lookup_fmap, Hk. simpl. by rewrite Hold, Hnew.
    + rewrite list_lookup_insert_ne by done.
      rewrite !list_lookup_fmap.
      destruct (posts0 !! j) as [other|] eqn:Hj; [|done]. simpl.
      rewrite enriched_snoc_other; [done|].
      rewrite <-Hid. intros Heq. apply Hjk.
      apply (NoDup_lookup _ _ _ (Post.id current) posts_distinct);
        rewrite list_lookup_fmap; [by rewrite Hj, Heq | by rewrite Hk].
  - apply (postById_None posts0 _ posts_distinct) in Hget.
    apply list_fmap_ext. intros j post Hpost.
    rewrite enriched_snoc_other; [done|].
    intros Heq. apply Hget. rewrite Heq.
    apply list_elem_of_fmap. exists post. split; [done|].
    apply list_elem_of_lookup. by exists j.
Qed.

Lemma attach_from (processed rest : list Item) :
  NoDup (post_id <$> processed ++ rest) →
  foldl (attachItem termMappings (postById posts0))
        (enriched termMappings processed <$> posts0) rest
  = enriched termMappings (processed ++ rest) <$> posts0.
Proof.
  revert processed. induction rest as [|item rest IH]; intros processed Hnd.
  - by rewrite (right_id_L [] (++)).
  - simpl. rewrite attachItem_enriched.
    + rewrite (cons_middle item processed rest), (assoc_L (++)).
      apply IH. by rewrite <-(assoc_L (++)).
    + rewrite (cons_middle item processed rest), (assoc_L (++)), fmap_app in Hnd.
      by apply NoDup_app in Hnd as (Hnd & _ & _).
Qed.

(** Step 7, when the ids of the items and of the posts are distinct. *)
Lemma attachPolylang_enriched allPostData :
  NoDup (post_id <$> allPostData) →
  attachPolylang termMappings allPostData posts0
  = enriched termMappings allPostData <$> posts0.
Proof.
  intros Hnd. unfold attachPolylang.
  pose proof (attach_from [] allPostData Hnd) as Hfrom.
  simpl in Hfrom. rewrite <-Hfrom. f_equal.
  rewrite <-(list_fmap_id posts0) at 1.
  apply list_fmap_ext. intros j post _. symmetry. apply enriched_nil.
Qed.

End AttachFacts.

Lemma submseteq_NoDup {A} (l k : list A) : l ⊆+ k → NoDup k → NoDup l.
Proof.
  induction 1 as [|x l k Hlk IH|x y l|x l k Hlk IH|l k m Hlk IH1 Hkm IH2];
    intros Hnd.
  - done.
  - apply NoDup_cons in Hnd as [Hx Hnd]. apply NoDup_cons. split; [|by apply IH].
    intros Hin. apply Hx. by apply (elem_of_submseteq l k).
  - by rewrite (Permutation_swap x y l).
  - apply NoDup_cons in Hnd as [_ Hnd]. by apply IH.
  - by apply IH1, IH2.
Qed.

Lemma attachPolylang_language termMappings allPostData posts :
  Forall (fun p => Post.language p = None) posts →
  Forall (fun p => Post.language p = None)
         (attachPolylang termMappings allPostData posts).
Proof.
  unfold attachPolylang. generalize (postById posts). intros byId.
  revert posts. induction allPostData as [|item items IH]; intros posts Hposts;
    [done|].
  simpl. apply IH. unfold attachItem.
  destruct (obj_get byId _) as [i|]; [|done].
  destruct (posts !! i) as [post|] eqn:Hpost; [|done].
  apply Forall_insert; [done|].
  by apply (Forall_lookup_1 _ _ _ _ Hposts Hpost).
Qed.

(** A key that one post only has gives a group of that post alone. *)
Lemma filter_only {A} (P : A → Prop) `{∀ x, Decision (P x)} (l : list A) i x :
  l !! i = Some x → P x →
  (∀ j y, l !! j = Some y → j ≠ i → ¬ P y) →
  filter P l = [x].
Proof.
  intros Hi Hx Hothers.
  rewrite <-(take_drop_middle l i x Hi), filter_app, filter_cons_True by done.
  rewrite (filter_none P (take i l)), (filter_none P (drop (S i) l)); [done| |].
  - intros y Hy. apply list_elem_of_lookup in Hy as [j Hj].
    rewrite lookup_drop in Hj. apply (Hothers _ _ Hj). lia.
  - intros y Hy. apply elem_of_take in Hy as (j & Hj & Hlt).
    apply (Hothers _ _ Hj). lia.
Qed.

Section ParserFacts.
Variable unserialize : string → Outcome (JsObject JsVal).
Variable decodeURIComponent : string → string.
Variable getPostContent : string → string.
Variable getMetaContent : Item → JsObject string.
Variable getFrontmatter : Post.t → JsObject JsVal.

Local Abbreviation parse :=
  (parseFilePromise unserialize decodeURIComponent getPostContent
     getMetaContent getFrontmatter).

Lemma parseTerm_console st term line :
  line ∈ st.2 → line ∈ (parseTerm unserialize st term).2.
Proof.
  destruct st as [termMappings console]. unfold parseTerm. simpl. intros Hline.
  case_bool_decide; [|done].
  destruct (unserialize _); simpl; [done|].
  apply elem_of_app. by left.
Qed.

Lemma parseTerms_console terms st line :
  line ∈ st.2 → line ∈ (foldl (parseTerm unserialize) st terms).2.
Proof.
  revert st. induction terms as [|term terms IH]; intros st Hline; [done|].
  simpl. by apply IH, parseTerm_console.
Qed.

Lemma parseTerms_warns terms st term err :
  term ∈ terms →
  term_taxonomy term = "post_translations" →
  unserialize (term_description term) = Threw err →
  warning (term_slug term) err ∈ (foldl (parseTerm unserialize) st terms).2.
Proof.
  intros Hin Htax Herr. revert st.
  induction terms as [|first terms IH]; intros st.
  - by apply elem_of_nil in Hin.
  - simpl. apply elem_of_cons in Hin as [<- | Hin]; [|by apply IH].
    apply parseTerms_console. destruct st as [termMappings console].
    unfold parseTerm. rewrite bool_decide_eq_true_2, Herr by done. simpl.
    apply elem_of_app. right. apply list_elem_of_here.
Qed.

Lemma parseTerms_no_mapping terms st slug :
  obj_get st.1 slug = None →
  (∀ term, term ∈ terms →
           term_taxonomy term = "post_translations" → term_slug term = slug →
           ∃ err, unserialize (term_description term) = Threw err) →
  obj_get (foldl (parseTerm unserialize) st terms).1 slug = None.
Proof.
  revert st. induction terms as [|first terms IH]; intros st Hnone Hthrow;
    [done|].
  simpl. apply IH.
  - destruct st as [termMappings console]. unfold parseTerm.
    case_bool_decide as Htax; [|done].
    destruct (unserialize (term_description first)) as [parsed|err] eqn:Hparse;
      simpl; [|done].
    rewrite obj_get_set. case_decide as Hslug; [|done].
    destruct (Hthrow first) as [err Herr];
      [apply list_elem_of_here | done | done | congruence].
  - intros term Hterm. apply Hthrow. by apply list_elem_of_further.
Qed.

(** Every post the parser returns is without a top-level [language]. *)
Lemma parseFilePromise_language allPostData collected images terms :
  Forall (fun p => Post.language p = None)
         (parse allPostData collected images terms).1.
Proof.
  unfold parseFilePromise.
  destruct (parseTermMappings unserialize terms) as [termMappings console].
  simpl. unfold populateFrontmatter. apply Forall_fmap.
  apply (Forall_impl (fun p => Post.language p = None)); [|done].
  apply attachPolylang_language, mergeImagesIntoPosts_language.
  apply Forall_fmap, Forall_true. done.
Qed.


(** The base slug of every group of parsed posts is the slug of its
    first member, whatever the default language. *)
Lemma chooseBaseSlug_of_parsed allPostData collected images terms key members
    (lang : string) :
  (key, members)
    ∈ buildTranslationGroups (parse allPostData collected images terms).1 →
  chooseBaseSlug members (Some lang) = Post.slug <$> head members.
Proof.
  intros Hin. apply chooseBaseSlug_without_language.
  apply (obj_get_elem _ _ _ (buildTranslationGroups_NoDup _)) in Hin.
  rewrite buildTranslationGroups_get in Hin.
  destruct (filter _ _) as [|first others] eqn:Hfilter; [done|].
  injection Hin as <-. rewrite <-Hfilter.
  apply Forall_forall. intros post [_ Hpost]%list_elem_of_filter.
  pose proof (parseFilePromise_language allPostData collected images terms)
    as Hnone.
  rewrite Forall_forall in Hnone. by apply Hnone.
Qed.

End ParserFacts.


(** ** A whole run *)

Example first_run_console :
  snd <$> Example.firstRun
  = Some [ Log "Building Polylang translation groups...";
           LogArray [];
           Heading "Saving posts";
           Log "2 posts to save.";
           Log "✓ [post] ";
           Log "✓ [post] ";
           Log "Done, got them all!";
           Heading "Saving images";
           Log "2 images to save.";
           Log "✓ [image] cover.png";
           Log "✓ [image] cover.png";
           Log "Done, got them all!" ].
Proof. vm_compute. reflexivity. Qed.

Example second_run_console :
  snd <$> Example.secondRun
  = Some [ Log "Building Polylang translation groups...";
           LogArray [];
           Heading "Saving posts";
           Log "All 2 posts already saved.";
           Heading "Saving images";
           Log "All 2 images already saved." ].
Proof. vm_compute. reflexivity. Qed.

(** ** Post types and the posts collected *)

Lemma setOf_from (array : list string) (set : list string) :
  NoDup set →
  let result :=
    foldl (fun set x => if bool_decide (x ∈ set) then set else set ++ [x])
          set array in
  NoDup result
  ∧ (∀ x, x ∈ result ↔ x ∈ set ∨ x ∈ array)
  ∧ ∃ added, result = set ++ added.
Proof.
  revert set. induction array as [|y array IH]; intros set Hnd; simpl.
  - split; [done|]. split.
    + intros x. rewrite elem_of_nil. tauto.
    + exists []. by rewrite (right_id_L [] (++)).
  - case_bool_decide as Hy.
    + destruct (IH set Hnd) as (Hnd' & Hin & added & Hadded).
      split; [done|]. split; [|by exists added].
      intros x. rewrite Hin, elem_of_cons.
      split; [tauto|]. intros [?|[->|?]]; tauto.
    + destruct (IH (set ++ [y])) as (Hnd' & Hin & added & Hadded).
      { apply NoDup_app. split; [done|]. split; [|apply NoDup_singleton].
        by intros x Hx ->%list_elem_of_singleton. }
      split; [done|]. split.
      * intros x. rewrite Hin, elem_of_app, !elem_of_cons, elem_of_nil. tauto.
      * exists (y :: added). by rewrite Hadded, <-(assoc_L (++)).
Qed.

Lemma setOf_NoDup array : NoDup (setOf array).
Proof. apply (setOf_from array []), NoDup_nil_2. Qed.

Lemma setOf_elem_of array x : x ∈ setOf array ↔ x ∈ array.
Proof.
  destruct (setOf_from array [] (NoDup_nil_2)) as (_ & Hin & _).
  unfold setOf. rewrite Hin, elem_of_nil. tauto.
Qed.

Lemma prioritizePostType_present postTypes postType :
  postType ∈ postTypes →
  ∃ before after,
    postTypes = before ++ (postType :: after)
    ∧ (postType ∉ before)
    ∧ prioritizePostType postTypes postType = postType :: (before ++ after).
Proof.
  intros Hin. unfold prioritizePostType.
  destruct (list_find_elem_of (fun t => t = postType) postTypes postType Hin eq_refl)
    as [[index found] Hfind].
  rewrite Hfind. apply list_find_Some in Hfind as (Hlookup & -> & Hfirst).
  exists (take index postTypes), (drop (S index) postTypes).
  split; [by rewrite take_drop_middle|]. split.
  - intros (j & Hj & Hlt)%elem_of_take. by apply (Hfirst j postType).
  - by rewrite delete_take_drop.
Qed.

Lemma prioritizePostType_absent postTypes postType :
  postType ∉ postTypes → prioritizePostType postTypes postType = postTypes.
Proof.
  intros Hnin. unfold prioritizePostType.
  destruct (list_find _ postTypes) as [[index found]|] eqn:Hfind; [|done].
  apply list_find_Some in Hfind as (Hlookup & -> & _).
  exfalso. apply Hnin. apply list_elem_of_lookup. by exists index.
Qed.

Lemma prioritizePostType_Permutation postTypes postType :
  prioritizePostType postTypes postType ≡ₚ postTypes.
Proof.
  destruct (decide (postType ∈ postTypes)) as [Hin|Hnin].
  - destruct (prioritizePostType_present _ _ Hin) as (before & after & Heq & _ & ->).
    rewrite Heq. apply Permutation_middle.
  - by rewrite prioritizePostType_absent.
Qed.

(** X1: [prioritizePostType] moves the first occurrence of a post type
    that is in the list to the front and keeps the order of the rest; a
    list without the type is left as it is; no type is lost or added. *)
Theorem X1_prioritizePostType_moves_to_front (postTypes : list string)
    (postType : string) :
  (postType ∈ postTypes →
   ∃ before after,
     postTypes = before ++ (postType :: after)
     ∧ (postType ∉ before)
     ∧ prioritizePostType postTypes postType = postType :: (before ++ after))
  ∧ (postType ∉ postTypes →
     prioritizePostType postTypes postType = postTypes)
  ∧ prioritizePostType postTypes postType ≡ₚ postTypes.
Proof.
  split; [apply prioritizePostType_present|].
  split; [apply prioritizePostType_absent|].
  apply prioritizePostType_Permutation.
Qed.

(** A list with pages and posts among other types. *)
Lemma X1_witness :
  prioritizePostType ["product"; "page"; "post"; "page"] "page"
  = ["page"; "product"; "post"; "page"]
  ∧ prioritizePostType ["product"; "post"] "page" = ["product"; "post"].
Proof.
  split.
  - destruct (proj1 (X1_prioritizePostType_moves_to_front
                       ["product"; "page"; "post"; "page"] "page"))
      as (before & after & _ & _ & _).
    + apply list_elem_of_further, list_elem_of_here.
    + reflexivity.
  - apply (proj1 (proj2 (X1_prioritizePostType_moves_to_front
                           ["product"; "post"] "page"))).
    apply (bool_decide_unpack _). reflexivity.
Defined.

Lemma getPostTypes_Permutation allPostData :
  getPostTypes allPostData
  ≡ₚ setOf (filter (fun postType => postType ∉ internalPostTypes)
                   (post_type <$> allPostData)).
Proof.
  unfold getPostTypes. by rewrite !prioritizePostType_Permutation.
Qed.

(** X2: [getPostTypes] returns every post type of the export that is not
    one of the twelve internal ones, each once.  [post] comes first when
    there are posts, [page] comes first or right after [post] when there
    are pages, and the other types follow in the order in which the export
    first has them. *)
Theorem X2_getPostTypes_lists_each_type_once (allPostData : list Item) :
  let postTypes := getPostTypes allPostData in
  NoDup postTypes
  ∧ (∀ postType,
       postType ∈ postTypes ↔
       (∃ item, item ∈ allPostData ∧ post_type item = postType)
       ∧ postType ∉ internalPostTypes)
  ∧ ("post" ∈ postTypes → head postTypes = Some "post")
  ∧ ("page" ∈ postTypes →
     postTypes !! (if bool_decide ("post" ∈ postTypes) then 1 else 0)
     = Some "page")
  ∧ filter (fun t => t ≠ "post" ∧ t ≠ "page") postTypes
    = filter (fun t => t ≠ "post" ∧ t ≠ "page")
        (setOf (filter (fun postType => postType ∉ internalPostTypes)
                       (post_type <$> allPostData))).
Proof.
  intros postTypes. subst postTypes.
  set (types := setOf (filter (fun postType => postType ∉ internalPostTypes)
                              (post_type <$> allPostData))).
  assert (NoDup types) as Hnd by apply setOf_NoDup.
  pose proof (getPostTypes_Permutation allPostData) as Hperm. fold types in Hperm.
  split; [by rewrite Hperm|]. split.
  { intros postType. rewrite Hperm. unfold types.
    rewrite setOf_elem_of, list_elem_of_filter, list_elem_of_fmap.
    naive_solver. }
  unfold getPostTypes. fold types.
  set (paged := prioritizePostType types "page").
  assert (paged ≡ₚ types) as Hpaged by apply prioritizePostType_Permutation.
  assert (NoDup paged) as Hndp by (by rewrite Hpaged).
  assert (filter (fun t => t ≠ "post" ∧ t ≠ "page") paged
          = filter (fun t => t ≠ "post" ∧ t ≠ "page") types) as Hrest1.
  { unfold paged. destruct (decide ("page" ∈ types)) as [Hin|Hnin].
    - destruct (prioritizePostType_present _ _ Hin)
        as (before & after & Heq & _ & ->).
      rewrite Heq, filter_cons_False by naive_solver.
      rewrite !filter_app. by rewrite filter_cons_False by naive_solver.
    - by rewrite prioritizePostType_absent. }
  destruct (decide ("post" ∈ paged)) as [Hpost|Hnopost].
  - destruct (prioritizePostType_present _ _ Hpost)
      as (before & after & Heq & Hbefore & Hresult).
    rewrite Hresult.
    split; [done|]. split.
    + intros Hpage. rewrite bool_decide_eq_true_2 by apply list_elem_of_here.
      simpl.
      assert ("page" ∈ paged) as Hpage'.
      { rewrite Heq. apply elem_of_app.
        apply elem_of_cons in Hpage as [?|Hpage]; [done|].
        apply elem_of_app in Hpage as [?|?]; [by left|].
        right. by apply list_elem_of_further. }
      assert ("page" ∈ types) as Hpage'' by (by rewrite <-Hpaged).
      destruct (prioritizePostType_present _ _ Hpage'')
        as (b & a & _ & _ & Hpaged').
      fold paged in Hpaged'. rewrite Hpaged' in Heq.
      destruct before as [|first before].
      * by injection Heq.
      * injection Heq as <- _. done.
    + rewrite <-Hrest1, Heq, filter_cons_False by naive_solver.
      rewrite !filter_app. by rewrite filter_cons_False by naive_solver.
  - rewrite prioritizePostType_absent by done.
    split; [done|]. split; [|done].
    intros Hpage. rewrite bool_decide_eq_false_2 by done.
    assert ("page" ∈ types) as Hpage' by (by rewrite <-Hpaged).
    destruct (prioritizePostType_present _ _ Hpage')
      as (b & a & _ & _ & Hpaged').
    fold paged in Hpaged'. by rewrite Hpaged'.
Qed.

(** A small export: the types are posts, pages and products. *)
Lemma X2_witness :
  getPostTypes Sample.items = ["post"; "page"; "product"]
  ∧ head (getPostTypes Sample.items) = Some "post"
  ∧ getPostTypes Sample.items !! 1 = Some "page".
Proof.
  destruct (X2_getPostTypes_lists_each_type_once Sample.items)
    as (_ & _ & Hpost & Hpage & _).
  split; [reflexivity|]. split.
  - apply Hpost. apply list_elem_of_here.
  - apply Hpage. apply list_elem_of_further, list_elem_of_here.
Defined.

Lemma collectItems_bind allPostData postTypes :
  (collectItems allPostData postTypes).1 = postTypes ≫= itemsForType allPostData.
Proof.
  unfold collectItems.
  enough (∀ st, (foldl (fun st postType =>
                          let itemsOfType := itemsForType allPostData postType in
                          (st.1 ++ itemsOfType,
                           if bool_decide (0 < length itemsOfType)
                           then st.2 ++ [foundMessage postType (length itemsOfType)]
                           else st.2)) st postTypes).1
                = st.1 ++ (postTypes ≫= itemsForType allPostData)) as H
    by apply (H ([], [])).
  induction postTypes as [|postType postTypes IH]; intros st.
  - simpl. by rewrite (right_id_L [] (++)).
  - simpl. rewrite IH. simpl. by rewrite <-(assoc_L (++)).
Qed.

Lemma itemsForType_elem_of allPostData postType item :
  item ∈ itemsForType allPostData postType ↔
  item ∈ allPostData ∧ post_type item = postType
  ∧ status item ≠ "trash"
  ∧ ¬ (postType = "page" ∧ post_name item = "sample-page").
Proof.
  unfold itemsForType, getItemsOfType. rewrite !list_elem_of_filter. tauto.
Qed.

Lemma ofTypes_submseteq (postTypes : list string) (allPostData : list Item) :
  NoDup postTypes →
  (postTypes ≫= getItemsOfType allPostData) ⊆+ allPostData.
Proof.
  intros Hnd. revert allPostData.
  induction Hnd as [|postType postTypes Hfresh _ IH]; intros allPostData.
  - apply submseteq_nil_l.
  - rewrite bind_cons.
    rewrite <-(filter_app_complement (fun item => post_type item = postType)
                 allPostData) at 3.
    apply submseteq_app; [done|].
    assert (postTypes ≫= getItemsOfType allPostData
            = postTypes ≫= getItemsOfType
                (filter (fun item => ¬ post_type item = postType) allPostData))
      as ->; [|apply IH].
    apply Forall_bind_ext, Forall_forall. intros other Hother.
    unfold getItemsOfType. rewrite list_filter_filter.
    apply list_filter_iff. intros item. split; [|tauto].
    intros ->. split; [done|]. by intros ->.
Qed.

Lemma bind_submseteq_pointwise {A B} (f g : A → list B) (l : list A) :
  (∀ x, f x ⊆+ g x) → (l ≫= f) ⊆+ (l ≫= g).
Proof.
  intros Hfg. induction l as [|x l IH]; [done|].
  rewrite !bind_cons. by apply submseteq_app.
Qed.

Lemma itemsForType_submseteq allPostData postType :
  itemsForType allPostData postType ⊆+ getItemsOfType allPostData postType.
Proof.
  unfold itemsForType. etrans; apply sublist_submseteq, sublist_filter.
Qed.

(** X3: [collectPosts] builds a post from an item exactly when the item's
    type is one of the post types asked for, the item is not in the trash
    and it is not the page named [sample-page]; the posts come type by
    type, in the order of the post types.  When no post type is listed
    twice, no item yields more than one post. *)
Theorem X3_collectPosts_keeps_wanted_items
    (decodeURIComponent getPostContent : string → string)
    (getMetaContent : Item → JsObject string)
    (allPostData : list Item) (postTypes : list string) :
  let collected := (collectItems allPostData postTypes).1 in
  (collectPosts decodeURIComponent getPostContent getMetaContent
     allPostData postTypes).1
  = buildPost decodeURIComponent getPostContent getMetaContent <$> collected
  ∧ collected = postTypes ≫= itemsForType allPostData
  ∧ (∀ item,
       item ∈ collected ↔
       item ∈ allPostData ∧ post_type item ∈ postTypes
       ∧ status item ≠ "trash"
       ∧ ¬ (post_type item = "page" ∧ post_name item = "sample-page"))
  ∧ (NoDup postTypes → collected ⊆+ allPostData).
Proof.
  intros collected. subst collected. split; [done|].
  rewrite collectItems_bind. split; [done|]. split.
  - intros item. rewrite list_elem_of_bind. split.
    + intros (postType & Hitem & HpostType).
      apply itemsForType_elem_of in Hitem as (? & <- & ? & ?). tauto.
    + intros (Hin & Htype & Hstatus & Hsample).
      exists (post_type item). split; [|done].
      apply itemsForType_elem_of. tauto.
  - intros Hnd. etrans; [|by apply ofTypes_submseteq].
    apply bind_submseteq_pointwise. intros postType.
    apply itemsForType_submseteq.
Qed.

(** The export of the example, asked for posts and pages. *)
Lemma X3_witness :
  (collectItems Sample.items ["post"; "page"]).1
  = [Sample.item "4" "post" "hello" "publish";
     Sample.item "3" "page" "about" "publish"]
  ∧ (collectItems Sample.items ["post"; "page"]).1 ⊆+ Sample.items.
Proof.
  split; [reflexivity|].
  apply (X3_collectPosts_keeps_wanted_items (fun s => s) (fun s => s)
           (fun _ => []) Sample.items ["post"; "page"]).
  apply (bool_decide_unpack _). reflexivity.
Defined.

Lemma getPostTypes_NoDup allPostData : NoDup (getPostTypes allPostData).
Proof. rewrite getPostTypes_Permutation. apply setOf_NoDup. Qed.

Lemma configuredPostTypes_NoDup configPostTypes configExclude postTypes :
  NoDup postTypes →
  NoDup (configuredPostTypes configPostTypes configExclude postTypes).
Proof.
  intros Hnd. unfold configuredPostTypes.
  repeat case_bool_decide; repeat apply NoDup_filter; done.
Qed.

Lemma filter_fmap_pre {A B} (f : A → B) (P : B → Prop)
    `{∀ y, Decision (P y)} (l : list A) :
  filter P (f <$> l) = f <$> filter (fun x => P (f x)) l.
Proof.
  induction l as [|x l IH]; [done|].
  rewrite fmap_cons, !filter_cons. case_decide; [|done].
  by rewrite fmap_cons, IH.
Qed.

Section CollectFacts.
Variable decodeURIComponent : string → string.
Variable getPostContent : string → string.
Variable getMetaContent : Item → JsObject string.
Variable categoriesOf : Post.t → option (list string).

Local Abbreviation build :=
  (buildPost decodeURIComponent getPostContent getMetaContent).

Lemma filterByCategories_items includeCategories excludeCategories items :
  filterByCategories categoriesOf includeCategories excludeCategories
    (build <$> items)
  = build <$> filter (fun item =>
                        keptByCategories categoriesOf includeCategories
                          excludeCategories (build item) = true) items.
Proof.
  unfold filterByCategories, keptByCategories.
  destruct (bool_decide (0 < length includeCategories));
    destruct (bool_decide (0 < length excludeCategories));
    rewrite ?filter_fmap_pre, ?list_filter_filter; simpl.
  - f_equal. apply list_filter_iff. intros item.
    rewrite andb_true_iff, negb_true_iff. tauto.
  - f_equal. apply list_filter_iff. intros item.
    rewrite andb_true_iff. tauto.
  - f_equal. apply list_filter_iff. intros item.
    by rewrite negb_true_iff.
  - f_equal. symmetry. by apply filter_all.
Qed.

End CollectFacts.

(** X4: after the post type and category filters of [parseFilePromise],
    the posts are those built from a selection of the export's items in
    which no item occurs more often than in the export; so posts built from
    an export with distinct item ids have distinct ids. *)
Theorem X4_selected_posts_come_from_distinct_items
    (decodeURIComponent getPostContent : string → string)
    (getMetaContent : Item → JsObject string)
    (categoriesOf : Post.t → option (list string))
    (configPostTypes configExclude includeCategories excludeCategories
       : list string)
    (allPostData : list Item) :
  let items :=
    selectedItems decodeURIComponent getPostContent getMetaContent categoriesOf
      configPostTypes configExclude includeCategories excludeCategories
      allPostData in
  let posts :=
    selectedPosts decodeURIComponent getPostContent getMetaContent categoriesOf
      configPostTypes configExclude includeCategories excludeCategories
      allPostData in
  posts = buildPost decodeURIComponent getPostContent getMetaContent <$> items
  ∧ items ⊆+ allPostData
  ∧ (NoDup (post_id <$> allPostData) → NoDup (Post.id <$> posts)).
Proof.
  intros items posts.
  assert (posts
          = buildPost decodeURIComponent getPostContent getMetaContent <$> items)
    as Hposts.
  { unfold posts, items, selectedPosts, selectedItems, collectPosts. simpl.
    apply filterByCategories_items. }
  assert (items ⊆+ allPostData) as Hsub.
  { unfold items, selectedItems.
    etrans; [apply sublist_submseteq, sublist_filter|].
    rewrite collectItems_bind.
    etrans; [|apply (ofTypes_submseteq
                       (configuredPostTypes configPostTypes configExclude
                          (getPostTypes allPostData)))].
    - apply bind_submseteq_pointwise. intros postType.
      apply itemsForType_submseteq.
    - apply configuredPostTypes_NoDup, getPostTypes_NoDup. }
  split; [done|]. split; [done|].
  intros Hnd. rewrite Hposts, <-list_fmap_compose.
  apply (submseteq_NoDup _ (post_id <$> allPostData)); [|done].
  by apply (fmap_submseteq post_id).
Qed.

(** The export of the example without filters: the post, the page and the
    product, with their three ids. *)
Lemma X4_witness :
  Post.id <$> selectedPosts (fun s => s) (fun s => s) (fun _ => [])
                (fun _ => None) [] [] [] [] Sample.items
  = ["4"; "3"; "1"]
  ∧ NoDup (Post.id <$> selectedPosts (fun s => s) (fun s => s) (fun _ => [])
                         (fun _ => None) [] [] [] [] Sample.items).
Proof.
  split; [reflexivity|].
  apply (X4_selected_posts_come_from_distinct_items (fun s => s) (fun s => s)
           (fun _ => []) (fun _ => None) [] [] [] [] Sample.items).
  apply (bool_decide_unpack _). reflexivity.
Defined.

(** ** The payloads planned *)

Lemma planAll_map {B} (g : Payload.t → B) (h : Candidate → B) fs step cs st :
  Forall (fun c => ∀ d, g (c.2 d) = h c) cs →
  g <$> payloads (planAll fs step cs st)
  = (g <$> payloads st) ++ (h <$> filter (fun c => c.1 ∉ fs) cs).
Proof.
  revert st. induction cs as [|[d mk] cs IH]; intros st Hcs.
  { simpl. by rewrite app_nil_r. }
  apply Forall_cons in Hcs as [Hc Hcs].
  change (planAll fs step ((d, mk) :: cs) st)
    with (planAll fs step cs (planPayload fs step mk d st)).
  rewrite IH by done. unfold planPayload, existsSync.
  case_bool_decide as Hd; simpl.
  - by rewrite filter_cons_False by (by intros ?).
  - rewrite filter_cons_True by done.
    rewrite fmap_app, <-(assoc_L (++)). simpl.
    pose proof (Hc (delay st)) as Hg. simpl in Hg. by rewrite Hg.
Qed.

Lemma planAll_delays fs step cs st :
  Forall (fun c => ∀ d, Payload.delay (c.2 d) = d) cs →
  Payload.delay <$> payloads (planAll fs step cs st)
  = (Payload.delay <$> payloads st)
    ++ ((fun k => delay st + k * step)
          <$> seq 0 (length (payloads (planAll fs step cs st))
                     - length (payloads st))).
Proof.
  revert st. induction cs as [|[d mk] cs IH]; intros st Hcs.
  { simpl. by rewrite Nat.sub_diag, app_nil_r. }
  apply Forall_cons in Hcs as [Hc Hcs].
  change (planAll fs step ((d, mk) :: cs) st)
    with (planAll fs step cs (planPayload fs step mk d st)).
  rewrite IH by done.
  assert (length (payloads (planPayload fs step mk d st))
          ≤ length (payloads (planAll fs step cs (planPayload fs step mk d st))))
    as Hlen.
  { rewrite <-(length_fmap Payload.delay (payloads (planAll _ _ _ _))).
    rewrite IH by done. rewrite length_app, length_fmap. lia. }
  revert Hlen. generalize (length (payloads
    (planAll fs step cs (planPayload fs step mk d st)))). intros n.
  unfold planPayload, existsSync. case_bool_decide as Hd; simpl; [done|].
  rewrite length_app. simpl. intros Hlen.
  rewrite fmap_app, <-(assoc_L (++)). simpl. f_equal.
  replace (n - length (payloads st))
    with (S (n - (length (payloads st) + 1))) by lia.
  pose proof (Hc (delay st)) as Hg. simpl in Hg.
  rewrite Hg. simpl. rewrite Nat.add_0_r. f_equal.
  rewrite <-fmap_S_seq, <-list_fmap_compose.
  apply list_fmap_ext. intros _ k _. simpl. lia.
Qed.

Lemma allCandidates_Forall (P : Candidate → Prop) groupCandidates entries cs :
  (∀ g group, groupCandidates g = Some group → Forall P group) →
  allCandidates groupCandidates entries = Some cs → Forall P cs.
Proof.
  intros Hgroup. revert cs.
  induction entries as [|[key g] rest IH]; intros cs Hall; simpl in Hall.
  - injection Hall as <-. constructor.
  - destruct (groupCandidates g) as [cs1|] eqn:Hg; [|done].
    destruct (allCandidates groupCandidates rest) as [cs2|]; [|done].
    injection Hall as <-. apply Forall_app. split; [by eapply Hgroup|by apply IH].
Qed.

Lemma allCandidates_fmap {B} (h : Candidate → B) (k : Post.t → list B)
    groupCandidates entries cs :
  (∀ g group, groupCandidates g = Some group → h <$> group = g ≫= k) →
  allCandidates groupCandidates entries = Some cs →
  h <$> cs = concat entries.*2 ≫= k.
Proof.
  intros Hgroup. revert cs.
  induction entries as [|[key g] rest IH]; intros cs Hall; simpl in Hall.
  - by injection Hall as <-.
  - destruct (groupCandidates g) as [cs1|] eqn:Hg; [|done].
    destruct (allCandidates groupCandidates rest) as [cs2|]; [|done].
    injection Hall as <-. rewrite fmap_app, (Hgroup _ _ Hg), (IH cs2) by done.
    simpl. by rewrite bind_app.
Qed.

Lemma markdownGroupCandidates_shape cfg g group :
  markdownGroupCandidates cfg g = Some group →
  ∃ dest, group = markdownCandidate dest <$> g.
Proof.
  unfold markdownGroupCandidates.
  destruct (Config.polylang cfg && bool_decide (1 < length g)).
  - destruct (chooseBaseSlug g (Config.defaultLanguage cfg)) as [baseSlug|];
      [|done].
    destruct (head g) as [first|]; [|done]. simpl.
    intros [= <-]. by eexists.
  - intros [= <-]. by eexists.
Qed.

Lemma imageGroupCandidates_shape cfg g group :
  imageGroupCandidates cfg g = Some group →
  ∃ dir, group = g ≫= fun post =>
                       imageCandidate (dir post) <$> Post.imageUrls post.
Proof.
  unfold imageGroupCandidates.
  destruct (Config.polylang cfg && bool_decide (1 < length g)).
  - destruct (chooseBaseSlug g (Config.defaultLanguage cfg)) as [baseSlug|];
      [|done].
    simpl. intros [= <-]. by exists (fun _ => groupImagesDir cfg baseSlug).
  - intros [= <-]. by exists (postImagesDir cfg).
Qed.

Lemma markdown_plan cfg groupMap :
  ∃ cs, allCandidates (markdownGroupCandidates cfg) (Object_entries groupMap)
        = Some cs
        ∧ Forall wellFormed cs
        ∧ markdownCandidates cfg groupMap = cs.*1
        ∧ ∀ fs, planMarkdownFiles cfg fs groupMap
                = Some (planAll fs (Config.writeDelay cfg) cs emptyPlan).
Proof.
  apply (planner_candidates (markdownGroupCandidates cfg)
           (planMarkdownGroup cfg) (Config.writeDelay cfg)).
  - intros. apply planMarkdownGroup_candidates.
  - apply markdownGroupCandidates_total.
Qed.

Lemma image_plan cfg groupMap :
  ∃ cs, allCandidates (imageGroupCandidates cfg) (Object_entries groupMap)
        = Some cs
        ∧ Forall wellFormed cs
        ∧ imageCandidates cfg groupMap = cs.*1
        ∧ ∀ fs, planImageFiles cfg fs groupMap
                = Some (planAll fs (Config.requestDelay cfg) cs emptyPlan).
Proof.
  apply (planner_candidates (imageGroupCandidates cfg)
           (planImageGroup cfg) (Config.requestDelay cfg)).
  - intros. apply planImageGroup_candidates.
  - apply imageGroupCandidates_total.
Qed.

Lemma markdown_candidates_timed cfg entries cs :
  allCandidates (markdownGroupCandidates cfg) entries = Some cs →
  Forall (fun c => ∀ d, Payload.delay (c.2 d) = d) cs.
Proof.
  apply allCandidates_Forall. intros g group [dest ->]%markdownGroupCandidates_shape.
  apply Forall_fmap, Forall_true. by intros post d.
Qed.

Lemma image_candidates_timed cfg entries cs :
  allCandidates (imageGroupCandidates cfg) entries = Some cs →
  Forall (fun c => ∀ d, Payload.delay (c.2 d) = d) cs.
Proof.
  apply allCandidates_Forall. intros g group [dir ->]%imageGroupCandidates_shape.
  apply Forall_bind, Forall_true. intros post.
  apply Forall_fmap, Forall_true. by intros url d.
Qed.

Lemma evenly_spaced fs step cs :
  Forall (fun c => ∀ d, Payload.delay (c.2 d) = d) cs →
  Payload.delay <$> payloads (planAll fs step cs emptyPlan)
  = (fun k => k * step)
      <$> seq 0 (length (payloads (planAll fs step cs emptyPlan))).
Proof.
  intros Hcs. rewrite planAll_delays by done. simpl.
  by rewrite Nat.sub_0_r.
Qed.

(** X5: the payloads of a planner are timed one delay step apart, the first
    at 0: the payload at position [k] of the Markdown plan has delay
    [k * writeDelay], that of the image plan [k * requestDelay].  A
    destination that exists already takes no slot. *)
Theorem X5_payload_delays_are_evenly_spaced (cfg : Config.t) (fs : FS)
    (groupMap : JsObject (list Post.t)) :
  ∃ md img,
    planMarkdownFiles cfg fs groupMap = Some md
    ∧ planImageFiles cfg fs groupMap = Some img
    ∧ Payload.delay <$> payloads md
      = (fun k => k * Config.writeDelay cfg) <$> seq 0 (length (payloads md))
    ∧ Payload.delay <$> payloads img
      = (fun k => k * Config.requestDelay cfg) <$> seq 0 (length (payloads img)).
Proof.
  destruct (markdown_plan cfg groupMap) as (mcs & Hmall & _ & _ & Hmd).
  destruct (image_plan cfg groupMap) as (ics & Hiall & _ & _ & Himg).
  eexists _, _. split; [apply Hmd|]. split; [apply Himg|]. split.
  - apply evenly_spaced. by eapply markdown_candidates_timed.
  - apply evenly_spaced. by eapply image_candidates_timed.
Qed.

Lemma bind_singletons {A B} (f : A → B) (l : list A) :
  l ≫= (fun x => [f x]) = f <$> l.
Proof. induction l as [|x l IH]; [done|]. by rewrite bind_cons, IH. Qed.

Lemma fmap_bind_inner {A B C} (f : B → C) (g : A → list B) (l : list A) :
  f <$> (l ≫= g) = l ≫= fun x => f <$> g x.
Proof.
  induction l as [|x l IH]; [done|]. by rewrite !bind_cons, fmap_app, IH.
Qed.

Lemma zip_fmap_diag {A B C} (f : A → B) (g : A → C) (l : list A) :
  zip (f <$> l) (g <$> l) = (fun x => (f x, g x)) <$> l.
Proof.
  induction l as [|x l IH]; [done|]. rewrite !fmap_cons. simpl. by rewrite IH.
Qed.

Lemma concat_Permutation {A} (l k : list (list A)) :
  l ≡ₚ k → concat l ≡ₚ concat k.
Proof.
  induction 1 as [|x l k _ IH|x y l|l k m _ IH1 _ IH2]; simpl.
  - done.
  - by rewrite IH.
  - rewrite !(assoc_L (++)). by rewrite (comm (++) y x).
  - by rewrite IH1.
Qed.

(** The items of the candidates of a planner: the posts of the groups, and
    their image URLs. *)
Lemma markdown_candidates_items cfg (groupMap : JsObject (list Post.t)) cs :
  allCandidates (markdownGroupCandidates cfg) (Object_entries groupMap)
  = Some cs →
  Forall (fun c => ∀ d, Payload.item (c.2 d) = Payload.item (c.2 0)) cs
  ∧ (fun c => Payload.item (c.2 0)) <$> cs = PostItem <$> groupedPosts groupMap.
Proof.
  intros Hall. split.
  - revert Hall. apply allCandidates_Forall.
    intros g group [dest ->]%markdownGroupCandidates_shape.
    apply Forall_fmap, Forall_true. by intros post d.
  - rewrite <-bind_singletons.
    apply (allCandidates_fmap _ (fun post => [PostItem post])
             (markdownGroupCandidates cfg)); [|done].
    intros g group [dest ->]%markdownGroupCandidates_shape.
    by rewrite <-list_fmap_compose, bind_singletons.
Qed.

Lemma image_candidates_items cfg (groupMap : JsObject (list Post.t)) cs :
  allCandidates (imageGroupCandidates cfg) (Object_entries groupMap)
  = Some cs →
  Forall (fun c => ∀ d, Payload.item (c.2 d) = Payload.item (c.2 0)) cs
  ∧ (fun c => Payload.item (c.2 0)) <$> cs
    = ImageItem <$> (groupedPosts groupMap ≫= Post.imageUrls).
Proof.
  intros Hall. split.
  - revert Hall. apply allCandidates_Forall.
    intros g group [dir ->]%imageGroupCandidates_shape.
    apply Forall_bind, Forall_true. intros post.
    apply Forall_fmap, Forall_true. by intros url d.
  - rewrite fmap_bind_inner.
    apply (allCandidates_fmap _ (fun post => ImageItem <$> Post.imageUrls post)
             (imageGroupCandidates cfg)); [|done].
    intros g group [dir ->]%imageGroupCandidates_shape.
    rewrite fmap_bind_inner. apply list_bind_ext; [|done].
    intros post. by rewrite <-list_fmap_compose.
Qed.

Lemma planned_items fs step cs (items : list PayloadItem) :
  Forall wellFormed cs →
  Forall (fun c => ∀ d, Payload.item (c.2 d) = Payload.item (c.2 0)) cs →
  (fun c => Payload.item (c.2 0)) <$> cs = items →
  itemAndPath <$> payloads (planAll fs step cs emptyPlan)
  = filter (fun x => x.2 ∉ fs) (zip items cs.*1).
Proof.
  intros Hwf Hitems <-.
  rewrite (planAll_map itemAndPath (fun c => (Payload.item (c.2 0), c.1))).
  - simpl. by rewrite zip_fmap_diag, filter_fmap_pre.
  - rewrite Forall_forall in Hwf, Hitems. apply Forall_forall.
    intros c Hc d. unfold itemAndPath. by rewrite (Hwf c Hc d), (Hitems c Hc d).
Qed.

Lemma planned_count (candidates : list string) (fs : FS) pl :
  plannedPaths pl = filter (fun d => d ∉ fs) candidates →
  existingCount pl = length (filter (fun d => d ∈ fs) candidates) →
  existingCount pl + length (payloads pl) = length candidates.
Proof.
  intros Hpaths ->.
  rewrite <-(length_fmap Payload.destinationPath (payloads pl)).
  fold (plannedPaths pl). rewrite Hpaths.
  rewrite <-length_app.
  by rewrite (filter_app_complement (fun d => d ∈ fs) candidates).
Qed.

Lemma markdownCandidates_length cfg groupMap :
  length (markdownCandidates cfg groupMap) = length (groupedPosts groupMap).
Proof.
  destruct (markdown_plan cfg groupMap) as (cs & Hall & _ & -> & _).
  destruct (markdown_candidates_items cfg groupMap cs Hall) as [_ Hitems].
  rewrite length_fmap, <-(length_fmap PostItem), <-Hitems.
  by rewrite length_fmap.
Qed.

Lemma imageCandidates_length cfg groupMap :
  length (imageCandidates cfg groupMap)
  = length (groupedPosts groupMap ≫= Post.imageUrls).
Proof.
  destruct (image_plan cfg groupMap) as (cs & Hall & _ & -> & _).
  destruct (image_candidates_items cfg groupMap cs Hall) as [_ Hitems].
  rewrite length_fmap, <-(length_fmap ImageItem), <-Hitems.
  by rewrite length_fmap.
Qed.

(** The group map of [writeFilesPromise] holds every post once: always in
    translation mode, and without it when the ids are distinct. *)
Lemma groupMapOf_posts cfg posts :
  Config.polylang cfg = true ∨ NoDup (Post.id <$> posts) →
  groupedPosts (groupMapOf cfg posts) ≡ₚ posts.
Proof.
  intros Hcase. unfold groupedPosts.
  rewrite (concat_Permutation _ _ (Object_values_Permutation _)).
  unfold groupMapOf. destruct (Config.polylang cfg) eqn:Hpoly.
  - apply buildTranslationGroups_concat.
  - destruct Hcase as [?|Hnd]; [done|].
    rewrite (singletons_from _ [] posts); [|by intros; apply obj_set_fresh|done].
    simpl. rewrite <-list_fmap_compose. clear Hnd.
    induction posts as [|p posts IH]; [done|]. simpl. by rewrite IH.
Qed.

(** X6: planning accounts for every post handed to [writeFilesPromise]:
    each one is either counted as already saved or gets a Markdown payload,
    and each of their image URLs is either counted or gets an image payload.
    Without translation mode this needs the post ids to be distinct, since
    the group map is keyed by id. *)
Theorem X6_planning_accounts_for_every_post (cfg : Config.t) (fs : FS)
    (posts : list Post.t) :
  Config.polylang cfg = true ∨ NoDup (Post.id <$> posts) →
  ∃ md img,
    planMarkdownFiles cfg fs (groupMapOf cfg posts) = Some md
    ∧ planImageFiles cfg fs (groupMapOf cfg posts) = Some img
    ∧ existingCount md + length (payloads md) = length posts
    ∧ existingCount img + length (payloads img)
      = length (posts ≫= Post.imageUrls).
Proof.
  intros Hposts%groupMapOf_posts.
  destruct (planMarkdownFiles_spec cfg (groupMapOf cfg posts) fs)
    as (md & Hmd & Hmdp & Hmde).
  destruct (planImageFiles_spec cfg (groupMapOf cfg posts) fs)
    as (img & Himg & Himgp & Himge).
  exists md, img. do 2 (split; [done|]). split.
  - rewrite (planned_count _ fs md Hmdp Hmde), markdownCandidates_length.
    by rewrite Hposts.
  - rewrite (planned_count _ fs img Himgp Himge), imageCandidates_length.
    by rewrite Hposts.
Qed.

(** The two translations of the example, of which the English one is
    saved already: one post counted, one planned; their shared cover image
    is asked for twice. *)
Lemma X6_witness :
  ∃ md img,
    planMarkdownFiles Example.cfg {[ "output/hello/index.en.md" ]}
      (groupMapOf Example.cfg Example.englishFirst) = Some md
    ∧ planImageFiles Example.cfg {[ "output/hello/index.en.md" ]}
        (groupMapOf Example.cfg Example.englishFirst) = Some img
    ∧ existingCount md + length (payloads md) = 2
    ∧ existingCount img + length (payloads img) = 2.
Proof.
  apply (X6_planning_accounts_for_every_post Example.cfg
           {[ "output/hello/index.en.md" ]} Example.englishFirst).
  left. reflexivity.
Defined.

(** X7: the payloads of a plan are made, in order, for the posts of the
    group map (group after group in the order of [Object.entries]) whose
    destination does not exist yet, each payload carrying its post and that
    post's destination; likewise the image payloads for the image URLs of
    those posts. *)
Theorem X7_payloads_pair_items_with_destinations (cfg : Config.t) (fs : FS)
    (groupMap : JsObject (list Post.t)) :
  ∃ md img,
    planMarkdownFiles cfg fs groupMap = Some md
    ∧ planImageFiles cfg fs groupMap = Some img
    ∧ length (markdownCandidates cfg groupMap) = length (groupedPosts groupMap)
    ∧ itemAndPath <$> payloads md
      = filter (fun x => x.2 ∉ fs)
          (zip (PostItem <$> groupedPosts groupMap)
               (markdownCandidates cfg groupMap))
    ∧ length (imageCandidates cfg groupMap)
      = length (groupedPosts groupMap ≫= Post.imageUrls)
    ∧ itemAndPath <$> payloads img
      = filter (fun x => x.2 ∉ fs)
          (zip (ImageItem <$> (groupedPosts groupMap ≫= Post.imageUrls))
               (imageCandidates cfg groupMap)).
Proof.
  pose proof (markdownCandidates_length cfg groupMap) as Hmlen.
  pose proof (imageCandidates_length cfg groupMap) as Hilen.
  destruct (markdown_plan cfg groupMap) as (mcs & Hmall & Hmwf & Hmc & Hmd).
  destruct (image_plan cfg groupMap) as (ics & Hiall & Hiwf & Hic & Himg).
  destruct (markdown_candidates_items cfg groupMap mcs Hmall) as [Hm1 Hm2].
  destruct (image_candidates_items cfg groupMap ics Hiall) as [Hi1 Hi2].
  eexists _, _. split; [apply Hmd|]. split; [apply Himg|].
  split; [done|]. split; [|split; [done|]].
  - rewrite Hmc. by apply planned_items.
  - rewrite Hic. by apply planned_items.
Qed.

(** ** What the executor leaves behind *)

Lemma insert_count {A} (P : A → Prop) `{∀ x, Decision (P x)} (l : list A) i x y :
  l !! i = Some x →
  length (filter P (<[i := y]> l)) + (if decide (P x) then 1 else 0)
  = length (filter P l) + (if decide (P y) then 1 else 0).
Proof.
  revert i. induction l as [|z l IH]; intros [|i] Hi; try done.
  - injection Hi as ->.
    change (<[0 := y]> (x :: l)) with (y :: l). rewrite !filter_cons.
    repeat case_decide; cbn [length]; lia.
  - change ((z :: l) !! S i) with (l !! i) in Hi. specialize (IH i Hi).
    change (<[S i := y]> (z :: l)) with (z :: <[i := y]> l).
    rewrite !filter_cons.
    destruct (decide (P z)); cbn [length]; lia.
Qed.

Section ExecutorResults.
Variable mkdir : FS → string → FS * option string.
Variable fs_writeFile : FS → string → string → FS * option string.
Variable loadFunc : PayloadItem → Outcome string.

Local Abbreviation step := (step_unit mkdir fs_writeFile loadFunc).
Local Abbreviation exec := (run mkdir fs_writeFile loadFunc).

Lemma run_invariant (I : Exec → Prop) schedule e :
  (∀ e i, I e → I (step e i)) → I e → I (exec schedule e).
Proof.
  intros Hstep. revert e.
  induction schedule as [|i schedule IH]; intros e He; [done|].
  simpl. apply IH. by apply Hstep.
Qed.

(** What a step does: nothing; or it takes a pending unit to its next
    await; or it settles a pending unit and logs its result. *)
Lemma step_cases e i :
  step e i = e
  ∨ (∃ payload stage stage' fs',
       units e !! i = Some (payload, stage)
       ∧ statusOf (payload, stage) = None
       ∧ statusOf (payload, stage') = None
       ∧ step e i = setStage e i payload stage' fs')
  ∨ (∃ payload stage status errorMessage fs',
       units e !! i = Some (payload, stage)
       ∧ statusOf (payload, stage) = None
       ∧ (errorMessage = None ↔ status = Fulfilled)
       ∧ step e i
         = {| units := <[i := (payload, Settled status)]> (units e);
              files := fs';
              console := console e ++ [logPayloadResult payload errorMessage] |}).
Proof.
  unfold step_unit.
  destruct (units e !! i) as [[payload [|data|data|settled]]|] eqn:Hi;
    [| | |by left|by left].
  - destruct (loadFunc _) as [data|message].
    + right; left. by eexists payload, Scheduled, (Loaded data), _.
    + right; right. eexists payload, Scheduled, Rejected, (Some message), _.
      by repeat split.
  - destruct (mkdir _ _) as [fs' [message|]].
    + right; right.
      eexists payload, (Loaded data), Rejected, (Some message), _.
      by repeat split.
    + right; left. by eexists payload, (Loaded data), (DirReady data), _.
  - destruct (fs_writeFile _ _ _) as [fs' [message|]].
    + right; right.
      eexists payload, (DirReady data), Rejected, (Some message), _.
      by repeat split.
    + right; right. eexists payload, (DirReady data), Fulfilled, None, _.
      by repeat split.
Qed.

(** The console holds one result line for every settled unit. *)
Lemma run_console lines schedule e :
  (∃ logged,
     console e = lines ++ logged
     ∧ length logged = settledCount (units e)
     ∧ ∀ i payload status,
         units e !! i = Some (payload, Settled status) →
         ∃ errorMessage,
           logPayloadResult payload errorMessage ∈ logged
           ∧ (errorMessage = None ↔ status = Fulfilled)) →
  ∃ logged,
    console (exec schedule e) = lines ++ logged
    ∧ length logged = settledCount (units (exec schedule e))
    ∧ ∀ i payload status,
        units (exec schedule e) !! i = Some (payload, Settled status) →
        ∃ errorMessage,
          logPayloadResult payload errorMessage ∈ logged
          ∧ (errorMessage = None ↔ status = Fulfilled).
Proof.
  apply (run_invariant (fun e => ∃ logged,
    console e = lines ++ logged
    ∧ length logged = settledCount (units e)
    ∧ ∀ i payload status,
        units e !! i = Some (payload, Settled status) →
        ∃ errorMessage,
          logPayloadResult payload errorMessage ∈ logged
          ∧ (errorMessage = None ↔ status = Fulfilled))).
  clear e. intros e i (logged & Hconsole & Hcount & Hlogged).
  destruct (step_cases e i)
    as [-> | [(payload & stage & stage' & fs' & Hi & Hpending & Hpending' & ->)
             | (payload & stage & status & msg & fs' & Hi & Hpending & Hmsg & ->)]].
  - by exists logged.
  - exists logged. simpl. split; [done|]. split.
    + rewrite Hcount. unfold settledCount.
      pose proof (insert_count (fun unit => is_Some (statusOf unit))
                    (units e) i (payload, stage) (payload, stage') Hi) as Hins.
      rewrite !decide_False in Hins
        by (rewrite ?Hpending, ?Hpending'; by intros [? ?]).
      lia.
    + intros j other status Hj. destruct (decide (i = j)) as [->|Hij].
      * rewrite list_lookup_insert_eq in Hj by (by eapply lookup_lt_Some).
        injection Hj as -> ->. done.
      * rewrite list_lookup_insert_ne in Hj by done. by eapply Hlogged.
  - exists (logged ++ [logPayloadResult payload msg]). simpl.
    split; [by rewrite Hconsole, (assoc_L (++))|]. split.
    + rewrite length_app, Hcount. unfold settledCount. simpl.
      pose proof (insert_count (fun unit => is_Some (statusOf unit))
                    (units e) i (payload, stage) (payload, Settled status) Hi)
        as Hins.
      rewrite decide_False in Hins by (rewrite Hpending; by intros [? ?]).
      rewrite decide_True in Hins by (by eexists).
      lia.
    + intros j other status' Hj. destruct (decide (i = j)) as [->|Hij].
      * rewrite list_lookup_insert_eq in Hj by (by eapply lookup_lt_Some).
        injection Hj as <- <-. exists msg. split; [|done].
        apply elem_of_app. right. apply list_elem_of_here.
      * rewrite list_lookup_insert_ne in Hj by done.
        destruct (Hlogged j other status' Hj) as (msg' & Hin & Hmsg').
        exists msg'. split; [|done]. apply elem_of_app. by left.
Qed.

(** The settled results of a run, unit by unit. *)
Lemma allSettled_lookup e results i payload stage :
  allSettled e = Some results →
  units e !! i = Some (payload, stage) →
  ∃ status, stage = Settled status ∧ results !! i = Some status.
Proof.
  intros Hall Hi. apply mapM_Some in Hall.
  destruct (Forall2_lookup_l _ _ _ _ _ Hall Hi) as (status & Hstatus & Hunit).
  exists status. split; [|done].
  unfold statusOf in Hunit. simpl in Hunit. destruct stage; congruence.
Qed.

Lemma allSettled_count e results :
  allSettled e = Some results → settledCount (units e) = length (units e).
Proof.
  intros Hall. unfold settledCount. f_equal. apply filter_all.
  intros unit Hunit. apply list_elem_of_lookup in Hunit as [i Hi].
  destruct unit as [payload stage].
  destruct (allSettled_lookup e results i payload stage Hall Hi)
    as (status & -> & _).
  by eexists.
Qed.

(** Every unit of a run keeps the payload it was launched with. *)
Lemma run_payload schedule payloads fs lines i payload :
  payloads !! i = Some payload →
  ∃ stage,
    units (exec schedule (launch payloads fs lines)) !! i
    = Some (payload, stage).
Proof.
  intros Hi.
  destruct (run_rank mkdir fs_writeFile loadFunc schedule
              (launch payloads fs lines) i payload Scheduled)
    as (stage & Hstage & _).
  { simpl. by rewrite list_lookup_fmap, Hi. }
  by exists stage.
Qed.

End ExecutorResults.

(** X8: the executor writes to the console one result line per payload, as
    the payloads settle, and then the summary with the number of rejected
    payloads; what was on the console before stays.  A fulfilled payload has
    a line without error message, a rejected one a line made with one. *)
Theorem X8_one_result_line_per_payload
    (mkdir : FS → string → FS * option string)
    (fs_writeFile : FS → string → string → FS * option string)
    (loadFunc : PayloadItem → Outcome string)
    (payloads : list Payload.t) (fs : FS) (lines : list ConsoleLine)
    (schedule : list nat) :
  complete (length payloads) schedule →
  ∃ results fs' logged,
    processPayloadsPromise mkdir fs_writeFile schedule payloads loadFunc fs lines
    = Some (results, fs',
            lines ++ logged ++ [doneMessage (countStatus Rejected results)])
    ∧ length logged = length payloads
    ∧ ∀ i payload status,
        payloads !! i = Some payload → results !! i = Some status →
        ∃ errorMessage,
          logPayloadResult payload errorMessage ∈ logged
          ∧ (errorMessage = None ↔ status = Fulfilled).
Proof.
  intros Hcomplete.
  destruct (run_complete_settled mkdir fs_writeFile loadFunc
              schedule payloads fs lines Hcomplete) as (results & Hresults & Hlen).
  destruct (run_console mkdir fs_writeFile loadFunc lines schedule
              (launch payloads fs lines)) as (logged & Hconsole & Hcount & Hlogged).
  { exists []. simpl. split; [by rewrite app_nil_r|]. split.
    - unfold settledCount. rewrite filter_none; [done|].
      intros unit [payload [-> _]]%list_elem_of_fmap. by intros [? ?].
    - intros i payload status Hi. rewrite list_lookup_fmap in Hi.
      destruct (payloads !! i); simpl in Hi; congruence. }
  exists results, (files (run mkdir fs_writeFile loadFunc schedule
                            (launch payloads fs lines))), logged.
  split; [|split].
  - unfold processPayloadsPromise. rewrite Hresults. simpl.
    by rewrite Hconsole, (assoc_L (++)).
  - rewrite Hcount, (allSettled_count _ _ Hresults), run_length. simpl.
    by rewrite length_fmap.
  - intros i payload status Hi Hstatus.
    destruct (run_payload mkdir fs_writeFile loadFunc schedule payloads fs lines
                i payload Hi) as (stage & Hstage).
    destruct (allSettled_lookup _ _ _ _ _ Hresults Hstage)
      as (status' & -> & Hstatus').
    rewrite Hstatus in Hstatus'. injection Hstatus' as <-.
    by eapply Hlogged.
Qed.

(** The three downloads of the example, of which the second fails. *)
Lemma X8_witness :
  ∃ results fs' logged,
    processPayloadsPromise Example.mkdir Example.fs_writeFile (sequential 3)
      Example.downloads Example.loader ∅ []
    = Some (results, fs',
            [] ++ logged ++ [doneMessage (countStatus Rejected results)])
    ∧ length logged = 3
    ∧ ∀ i payload status,
        Example.downloads !! i = Some payload → results !! i = Some status →
        ∃ errorMessage,
          logPayloadResult payload errorMessage ∈ logged
          ∧ (errorMessage = None ↔ status = Fulfilled).
Proof.
  apply (X8_one_result_line_per_payload Example.mkdir Example.fs_writeFile
           Example.loader Example.downloads ∅ [] (sequential 3)).
  intros i Hi. destruct i as [|[|[|i]]]; [vm_compute; lia..|].
  simpl in Hi. lia.
Defined.

Section ExecutorFiles.
Variable mkdir : FS → string → FS * option string.
Variable fs_writeFile : FS → string → string → FS * option string.
Variable loadFunc : PayloadItem → Outcome string.

Local Abbreviation step := (step_unit mkdir fs_writeFile loadFunc).
Local Abbreviation exec := (run mkdir fs_writeFile loadFunc).

(** How far a unit can be, given what its loader does; [strict] says that
    the file system calls do not fail. *)
Local Abbreviation agrees strict payload stage :=
  (match stage with
   | Scheduled => True
   | Loaded _ | DirReady _ | Settled Fulfilled =>
       verdict loadFunc payload = Fulfilled
   | Settled Rejected => strict → verdict loadFunc payload = Rejected
   end).

Lemma step_verdicts (strict : Prop) e i :
  (strict → neverFails mkdir fs_writeFile) →
  (∀ j payload stage,
     units e !! j = Some (payload, stage) → agrees strict payload stage) →
  ∀ j payload stage,
    units (step e i) !! j = Some (payload, stage) → agrees strict payload stage.
Proof.
  intros Hstrict He j other stage Hj.
  destruct (decide (i = j)) as [->|Hij];
    [|rewrite step_other in Hj by done; by eapply He].
  unfold step_unit in Hj.
  destruct (units e !! j) as [[payload st]|] eqn:Hi; [|by rewrite Hi in Hj].
  pose proof (He j payload st Hi) as Hold.
  pose proof (lookup_lt_Some _ _ _ Hi) as Hlt.
  destruct st as [|data|data|settled].
  - destruct (loadFunc (Payload.item payload)) as [data|message] eqn:Hload;
      simpl in Hj; rewrite list_lookup_insert_eq in Hj by done;
      injection Hj as <- <-; unfold verdict; by rewrite Hload.
  - destruct (mkdir _ _) as [fs' [message|]] eqn:Hmkdir; simpl in Hj;
      rewrite list_lookup_insert_eq in Hj by done; injection Hj as <- <-;
      [|done].
    intros [Hnever _]%Hstrict.
    specialize (Hnever (files e)
                  (path_dirname (Payload.destinationPath payload))).
    by rewrite Hmkdir in Hnever.
  - destruct (fs_writeFile _ _ _) as [fs' [message|]] eqn:Hwrite; simpl in Hj;
      rewrite list_lookup_insert_eq in Hj by done; injection Hj as <- <-;
      [|done].
    intros [_ Hnever]%Hstrict.
    specialize (Hnever (files e) (Payload.destinationPath payload) data).
    by rewrite Hwrite in Hnever.
  - rewrite Hi in Hj. by injection Hj as <- <-.
Qed.

Lemma run_verdicts (strict : Prop) schedule payloads fs lines i payload stage :
  (strict → neverFails mkdir fs_writeFile) →
  units (exec schedule (launch payloads fs lines)) !! i = Some (payload, stage) →
  agrees strict payload stage.
Proof.
  intros Hstrict.
  revert i payload stage.
  apply (run_invariant mkdir fs_writeFile loadFunc
           (fun e => ∀ j payload stage,
              units e !! j = Some (payload, stage) →
              agrees strict payload stage)).
  - intros e i He. by apply step_verdicts.
  - intros j payload stage Hj. simpl in Hj. rewrite list_lookup_fmap in Hj.
    destruct (payloads !! j); simpl in Hj; [|done]. by injection Hj as <- <-.
Qed.

(** A unit whose loader throws never reaches the file system. *)
Lemma run_untouched schedule payloads fs lines :
  Forall (fun payload => verdict loadFunc payload = Rejected) payloads →
  files (exec schedule (launch payloads fs lines)) = fs.
Proof.
  intros Hthrow.
  apply (run_invariant mkdir fs_writeFile loadFunc
           (fun e => files e = fs
                     ∧ Forall (fun unit =>
                                 verdict loadFunc unit.1 = Rejected
                                 ∧ (unit.2 = Scheduled
                                    ∨ unit.2 = Settled Rejected)) (units e))).
  - intros e i [Hfiles Hunits]. unfold step_unit.
    destruct (units e !! i) as [[payload stage]|] eqn:Hi; [|done].
    destruct (Forall_lookup_1 _ _ _ _ Hunits Hi) as [Hverdict Hstage].
    simpl in Hverdict, Hstage.
    destruct Hstage as [-> | ->]; [|done].
    unfold verdict in Hverdict.
    destruct (loadFunc (Payload.item payload)) as [data|message] eqn:Hload;
      [done|].
    simpl. split; [done|]. apply Forall_insert; [done|].
    split; [|by right]. unfold verdict. simpl. by rewrite Hload.
  - simpl. split; [done|]. apply Forall_fmap.
    apply (Forall_impl _ _ _ Hthrow). intros payload Hp. simpl. by split; [|left].
Qed.

Lemma step_files e i :
  keepsFiles mkdir fs_writeFile → files e ⊆ files (step e i).
Proof.
  intros (Hmkdir & Hwrite & _). unfold step_unit.
  destruct (units e !! i) as [[payload [|data|data|settled]]|]; [| | |done|done].
  - by destruct (loadFunc _).
  - pose proof (Hmkdir (files e)
                  (path_dirname (Payload.destinationPath payload))) as Hsub.
    by destruct (mkdir _ _) as [fs' [message|]].
  - pose proof (Hwrite (files e) (Payload.destinationPath payload) data) as Hsub.
    by destruct (fs_writeFile _ _ _) as [fs' [message|]].
Qed.

(** The file of a fulfilled unit exists, and no file is lost. *)
Lemma run_written schedule payloads fs lines :
  keepsFiles mkdir fs_writeFile →
  let e := exec schedule (launch payloads fs lines) in
  fs ⊆ files e
  ∧ ∀ i payload,
      units e !! i = Some (payload, Settled Fulfilled) →
      Payload.destinationPath payload ∈ files e.
Proof.
  intros Hkeeps.
  apply (run_invariant mkdir fs_writeFile loadFunc
           (fun e => fs ⊆ files e
                     ∧ ∀ i payload,
                         units e !! i = Some (payload, Settled Fulfilled) →
                         Payload.destinationPath payload ∈ files e)).
  - intros e i [Hsub Hdone].
    pose proof (step_files e i Hkeeps) as Hgrow.
    split; [by etrans|].
    intros j other Hj. destruct (decide (i = j)) as [->|Hij];
      [|rewrite step_other in Hj by done; by apply Hgrow, (Hdone j)].
    revert Hj Hgrow. unfold step_unit.
    destruct (units e !! j) as [[payload stage]|] eqn:Hi;
      [|intros Hj; by rewrite Hi in Hj].
    pose proof (lookup_lt_Some _ _ _ Hi) as Hlt.
    destruct stage as [|data|data|settled].
    + destruct (loadFunc _); simpl; rewrite list_lookup_insert_eq by done;
        by intros [= <-].
    + destruct (mkdir _ _) as [fs' [message|]]; simpl;
        rewrite list_lookup_insert_eq by done; by intros [= <-].
    + destruct Hkeeps as (_ & _ & Hexists).
      specialize (Hexists (files e) (Payload.destinationPath payload) data).
      destruct (fs_writeFile _ _ _) as [fs' [message|]]; simpl;
        rewrite list_lookup_insert_eq by done; intros Hj; [done|].
      injection Hj as <-. intros _. by apply Hexists.
    + intros Hj Hgrow. rewrite Hi in Hj. injection Hj as <- ->.
      by apply (Hdone j).
  - simpl. split; [done|]. intros i payload Hi. rewrite list_lookup_fmap in Hi.
    destruct (payloads !! i); simpl in Hi; congruence.
Qed.

End ExecutorFiles.

(** X9: the results come in payload order, whatever the order in which the
    units settle.  A payload is fulfilled only if its loader returned; and
    when no file system call fails, the result of each payload is exactly
    what its loader did, so that it does not depend on the schedule. *)
Theorem X9_results_follow_the_loader
    (mkdir : FS → string → FS * option string)
    (fs_writeFile : FS → string → string → FS * option string)
    (loadFunc : PayloadItem → Outcome string)
    (payloads : list Payload.t) (fs : FS) (lines : list ConsoleLine)
    (schedule : list nat) :
  complete (length payloads) schedule →
  ∃ results fs' lines',
    processPayloadsPromise mkdir fs_writeFile schedule payloads loadFunc fs lines
    = Some (results, fs', lines')
    ∧ (∀ i payload,
         payloads !! i = Some payload → results !! i = Some Fulfilled →
         ∃ data, loadFunc (Payload.item payload) = Returned data)
    ∧ (neverFails mkdir fs_writeFile →
       results = verdict loadFunc <$> payloads).
Proof.
  intros Hcomplete.
  destruct (run_complete_settled mkdir fs_writeFile loadFunc
              schedule payloads fs lines Hcomplete) as (results & Hresults & Hlen).
  exists results. eexists _, _. split; [|split].
  - unfold processPayloadsPromise. by rewrite Hresults.
  - intros i payload Hi Hstatus.
    destruct (run_payload mkdir fs_writeFile loadFunc schedule payloads fs lines
                i payload Hi) as (stage & Hstage).
    destruct (allSettled_lookup _ _ _ _ _ Hresults Hstage)
      as (status & -> & Hstatus').
    rewrite Hstatus in Hstatus'. injection Hstatus' as <-.
    pose proof (run_verdicts mkdir fs_writeFile loadFunc False schedule
                  payloads fs lines i payload _ (fun H => False_ind _ H) Hstage)
      as Hverdict.
    simpl in Hverdict. unfold verdict in Hverdict.
    destruct (loadFunc (Payload.item payload)) as [data|]; [by exists data|done].
  - intros Hnever. apply list_eq. intros i. rewrite list_lookup_fmap.
    destruct (payloads !! i) as [payload|] eqn:Hi; simpl.
    + destruct (run_payload mkdir fs_writeFile loadFunc schedule payloads fs
                  lines i payload Hi) as (stage & Hstage).
      destruct (allSettled_lookup _ _ _ _ _ Hresults Hstage)
        as (status & -> & ->).
      pose proof (run_verdicts mkdir fs_writeFile loadFunc True schedule
                    payloads fs lines i payload _ (fun _ => Hnever) Hstage)
        as Hverdict.
      simpl in Hverdict. destruct status; [by rewrite Hverdict|].
      by rewrite Hverdict.
    + apply lookup_ge_None. rewrite Hlen. by apply lookup_ge_None.
Qed.

(** The three downloads of the example on a file system whose calls do not
    fail: the second one, for which the loader throws, is rejected. *)
Lemma X9_witness :
  ∃ results fs' lines',
    processPayloadsPromise Example.mkdir Example.fs_writeFile (sequential 3)
      Example.downloads Example.loader ∅ []
    = Some (results, fs', lines')
    ∧ results = [Fulfilled; Rejected; Fulfilled].
Proof.
  destruct (X9_results_follow_the_loader Example.mkdir Example.fs_writeFile
              Example.loader Example.downloads ∅ [] (sequential 3))
    as (results & fs' & lines' & Hrun & _ & Hresults).
  - intros i Hi. destruct i as [|[|[|i]]]; [vm_compute; lia..|].
    simpl in Hi. lia.
  - exists results, fs', lines'. split; [exact Hrun|].
    apply Hresults. split; intros; reflexivity.
Defined.

(** X10: when the loader throws for every payload, every payload is
    rejected and the file system is left exactly as it was, whatever
    [mkdir] and [writeFile] would do: a unit whose load fails never gets to
    create a directory or a file. *)
Theorem X10_failed_loads_leave_the_file_system_alone
    (mkdir : FS → string → FS * option string)
    (fs_writeFile : FS → string → string → FS * option string)
    (loadFunc : PayloadItem → Outcome string)
    (payloads : list Payload.t) (fs : FS) (lines : list ConsoleLine)
    (schedule : list nat) :
  complete (length payloads) schedule →
  Forall (fun payload =>
            ∃ message, loadFunc (Payload.item payload) = Threw message)
         payloads →
  ∃ lines',
    processPayloadsPromise mkdir fs_writeFile schedule payloads loadFunc fs lines
    = Some (replicate (length payloads) Rejected, fs, lines').
Proof.
  intros Hcomplete Hthrow.
  assert (Forall (fun payload => verdict loadFunc payload = Rejected) payloads)
    as Hrejected.
  { apply (Forall_impl _ _ _ Hthrow). intros payload [message Hload].
    unfold verdict. by rewrite Hload. }
  destruct (run_complete_settled mkdir fs_writeFile loadFunc
              schedule payloads fs lines Hcomplete) as (results & Hresults & Hlen).
  assert (results = replicate (length payloads) Rejected) as ->.
  { apply list_eq. intros i.
    destruct (payloads !! i) as [payload|] eqn:Hi.
    - rewrite lookup_replicate_2 by (by eapply lookup_lt_Some).
      destruct (run_payload mkdir fs_writeFile loadFunc schedule payloads fs
                  lines i payload Hi) as (stage & Hstage).
      destruct (allSettled_lookup _ _ _ _ _ Hresults Hstage)
        as (status & -> & ->).
      pose proof (run_verdicts mkdir fs_writeFile loadFunc False schedule
                    payloads fs lines i payload _ (fun H => False_ind _ H) Hstage)
        as Hverdict.
      simpl in Hverdict. destruct status; [|done].
      rewrite (Forall_lookup_1 _ _ _ _ Hrejected Hi) in Hverdict. done.
    - apply lookup_ge_None in Hi.
      rewrite (proj2 (lookup_ge_None results i)) by lia.
      symmetry. apply lookup_ge_None. by rewrite length_replicate. }
  eexists. unfold processPayloadsPromise. rewrite Hresults. simpl.
  by rewrite (run_untouched mkdir fs_writeFile loadFunc schedule payloads fs
                lines Hrejected).
Qed.

(** The three downloads of the example when the site is unreachable. *)
Lemma X10_witness :
  ∃ lines',
    processPayloadsPromise Example.mkdir Example.fs_writeFile (sequential 3)
      Example.downloads (fun _ => Threw "getaddrinfo ENOTFOUND") ∅ []
    = Some ([Rejected; Rejected; Rejected], ∅, lines').
Proof.
  apply (X10_failed_loads_leave_the_file_system_alone Example.mkdir
           Example.fs_writeFile (fun _ => Threw "getaddrinfo ENOTFOUND")
           Example.downloads ∅ [] (sequential 3)).
  - intros i Hi. destruct i as [|[|[|i]]]; [vm_compute; lia..|].
    simpl in Hi. lia.
  - repeat constructor; by eexists.
Defined.

(** X11: with file system calls that remove nothing and a write that
    leaves its file in place, every file that existed before the run exists
    after it, and so does the destination of every fulfilled payload. *)
Theorem X11_fulfilled_payloads_are_on_disk
    (mkdir : FS → string → FS * option string)
    (fs_writeFile : FS → string → string → FS * option string)
    (loadFunc : PayloadItem → Outcome string)
    (payloads : list Payload.t) (fs : FS) (lines : list ConsoleLine)
    (schedule : list nat) :
  keepsFiles mkdir fs_writeFile →
  complete (length payloads) schedule →
  ∃ results fs' lines',
    processPayloadsPromise mkdir fs_writeFile schedule payloads loadFunc fs lines
    = Some (results, fs', lines')
    ∧ fs ⊆ fs'
    ∧ ∀ i payload,
        payloads !! i = Some payload → results !! i = Some Fulfilled →
        Payload.destinationPath payload ∈ fs'.
Proof.
  intros Hkeeps Hcomplete.
  destruct (run_complete_settled mkdir fs_writeFile loadFunc
              schedule payloads fs lines Hcomplete) as (results & Hresults & Hlen).
  destruct (run_written mkdir fs_writeFile loadFunc schedule payloads fs lines
              Hkeeps) as [Hsub Hdone].
  exists results. eexists _, _. split; [|split].
  - unfold processPayloadsPromise. by rewrite Hresults.
  - done.
  - intros i payload Hi Hstatus. simpl.
    destruct (run_payload mkdir fs_writeFile loadFunc schedule payloads fs lines
                i payload Hi) as (stage & Hstage).
    destruct (allSettled_lookup _ _ _ _ _ Hresults Hstage)
      as (status & -> & Hstatus').
    rewrite Hstatus in Hstatus'. injection Hstatus' as <-.
    by apply (Hdone i).
Qed.

(** The three downloads of the example on the file system of the example,
    where creating a directory or a file adds its path. *)
Lemma X11_witness :
  ∃ results fs' lines',
    processPayloadsPromise Example.mkdir Example.fs_writeFile (sequential 3)
      Example.downloads Example.loader ∅ []
    = Some (results, fs', lines')
    ∧ ∅ ⊆ fs'
    ∧ ∀ i payload,
        Example.downloads !! i = Some payload → results !! i = Some Fulfilled →
        Payload.destinationPath payload ∈ fs'.
Proof.
  apply (X11_fulfilled_payloads_are_on_disk Example.mkdir Example.fs_writeFile
           Example.loader Example.downloads ∅ [] (sequential 3)).
  - split; [|split].
    + intros fs dir. apply union_subseteq_r.
    + intros fs path data. apply union_subseteq_r.
    + intros fs path data _. apply elem_of_union_l, elem_of_singleton.
      reflexivity.
  - intros i Hi. destruct i as [|[|[|i]]]; [vm_compute; lia..|].
    simpl in Hi. lia.
Defined.

(** ** A second run *)

Section WriterFacts.
Variable mkdir : FS → string → FS * option string.
Variable fs_writeFile : FS → string → string → FS * option string.
Variable loadImageFilePromise : string → Outcome string.
Variable scheduler : nat → list nat.
Hypothesis fs_keeps : keepsFiles mkdir fs_writeFile.
Hypothesis fs_never : neverFails mkdir fs_writeFile.
Hypothesis scheduler_complete : ∀ n, complete n (scheduler n).

(** When every load succeeds, all payloads end up on disk. *)
Lemma process_fulfilled loadFunc payloads fs lines :
  Forall (fun payload => verdict loadFunc payload = Fulfilled) payloads →
  ∃ results fs' lines',
    processPayloadsPromise mkdir fs_writeFile (scheduler (length payloads))
      payloads loadFunc fs lines
    = Some (results, fs', lines')
    ∧ fs ⊆ fs'
    ∧ ∀ payload, payload ∈ payloads → Payload.destinationPath payload ∈ fs'.
Proof.
  intros Hload.
  destruct (run_complete_settled mkdir fs_writeFile loadFunc
              (scheduler (length payloads)) payloads fs lines
              (scheduler_complete _)) as (results & Hresults & Hlen).
  destruct (run_written mkdir fs_writeFile loadFunc
              (scheduler (length payloads)) payloads fs lines fs_keeps)
    as [Hsub Hdone].
  exists results. eexists _, _. split; [|split].
  - unfold processPayloadsPromise. by rewrite Hresults.
  - done.
  - intros payload [i Hi]%list_elem_of_lookup. simpl.
    destruct (run_payload mkdir fs_writeFile loadFunc
                (scheduler (length payloads)) payloads fs lines i payload Hi)
      as (stage & Hstage).
    destruct (allSettled_lookup _ _ _ _ _ Hresults Hstage)
      as (status & -> & Hstatus).
    pose proof (run_verdicts mkdir fs_writeFile loadFunc True _
                  payloads fs lines i payload _ (fun _ => fs_never) Hstage)
      as Hverdict.
    simpl in Hverdict.
    rewrite (Forall_lookup_1 _ _ _ _ Hload Hi) in Hverdict.
    destruct status; [by apply (Hdone i)|]. by specialize (Hverdict I).
Qed.

(** One phase of [writeFilesPromise], after its planning. *)
Lemma phase_run loadFunc plan (candidates : list string) fs lines :
  plannedPaths plan = filter (fun d => d ∉ fs) candidates →
  Forall (fun payload => verdict loadFunc payload = Fulfilled) (payloads plan) →
  ∃ fs1 lines1,
    (if bool_decide (0 < length (payloads plan)) then
       done ← processPayloadsPromise mkdir fs_writeFile
                (scheduler (length (payloads plan))) (payloads plan) loadFunc
                fs lines;
       Some (done.1.2, done.2)
     else Some (fs, lines)) = Some (fs1, lines1)
    ∧ fs ⊆ fs1
    ∧ ∀ d, d ∈ candidates → d ∈ fs1.
Proof.
  intros Hpaths Hload.
  assert (∀ fs1 : FS,
            fs ⊆ fs1 →
            (∀ payload, payload ∈ payloads plan →
                        Payload.destinationPath payload ∈ fs1) →
            ∀ d, d ∈ candidates → d ∈ fs1) as Hall.
  { intros fs1 Hsub Hwritten d Hd.
    destruct (decide (d ∈ fs)) as [Hin|Hnin]; [by apply Hsub|].
    assert (d ∈ plannedPaths plan) as Hplanned
      by (rewrite Hpaths; by apply list_elem_of_filter).
    apply list_elem_of_fmap in Hplanned as (payload & -> & Hpayload).
    by apply Hwritten. }
  case_bool_decide as Hlen.
  - destruct (process_fulfilled loadFunc (payloads plan) fs lines Hload)
      as (results & fs1 & lines1 & -> & Hsub & Hwritten).
    exists fs1, lines1. simpl. split; [done|]. split; [done|]. by apply Hall.
  - exists fs, lines. split; [done|]. split; [done|].
    apply Hall; [done|]. intros payload Hpayload.
    destruct (payloads plan); [by apply elem_of_nil in Hpayload|].
    simpl in Hlen. lia.
Qed.

Lemma markdown_payloads_load cfg groupMap fs md :
  planMarkdownFiles cfg fs groupMap = Some md →
  Forall (fun payload => verdict (markdownLoader cfg) payload = Fulfilled)
         (payloads md).
Proof.
  destruct (markdown_plan cfg groupMap) as (cs & Hall & _ & _ & Hplan).
  rewrite Hplan. intros [= <-].
  pose proof (planAll_map (verdict (markdownLoader cfg)) (fun _ => Fulfilled)
                fs (Config.writeDelay cfg) cs emptyPlan) as Hmap.
  apply Forall_forall. intros payload Hpayload.
  assert (verdict (markdownLoader cfg) payload
          ∈ (fun _ : Candidate => Fulfilled)
              <$> filter (fun c => c.1 ∉ fs) cs) as Hin.
  { rewrite <-(app_nil_l (_ <$> filter _ cs)).
    change [] with (verdict (markdownLoader cfg) <$> payloads emptyPlan).
    rewrite <-Hmap.
    - apply list_elem_of_fmap. by exists payload.
    - revert Hall. apply allCandidates_Forall.
      intros g group [dest ->]%markdownGroupCandidates_shape.
      apply Forall_fmap, Forall_true. by intros post d. }
  by apply list_elem_of_fmap in Hin as (c & -> & _).
Qed.

Lemma image_payloads_load cfg groupMap fs img :
  (∀ url, ∃ data, loadImageFilePromise url = Returned data) →
  planImageFiles cfg fs groupMap = Some img →
  Forall (fun payload =>
            verdict (imageLoader loadImageFilePromise) payload = Fulfilled)
         (payloads img).
Proof.
  intros Hloads.
  destruct (image_plan cfg groupMap) as (cs & Hall & _ & _ & Hplan).
  rewrite Hplan. intros [= <-].
  pose proof (planAll_map (verdict (imageLoader loadImageFilePromise))
                (fun _ => Fulfilled)
                fs (Config.requestDelay cfg) cs emptyPlan) as Hmap.
  apply Forall_forall. intros payload Hpayload.
  assert (verdict (imageLoader loadImageFilePromise) payload
          ∈ (fun _ : Candidate => Fulfilled)
              <$> filter (fun c => c.1 ∉ fs) cs) as Hin.
  { rewrite <-(app_nil_l (_ <$> filter _ cs)).
    change [] with (verdict (imageLoader loadImageFilePromise)
                      <$> payloads emptyPlan).
    rewrite <-Hmap.
    - apply list_elem_of_fmap. by exists payload.
    - revert Hall. apply allCandidates_Forall.
      intros g group [dir ->]%imageGroupCandidates_shape.
      apply Forall_bind, Forall_true. intros post.
      apply Forall_fmap, Forall_true. intros url d.
      unfold verdict. simpl. by destruct (Hloads url) as [data ->]. }
  by apply list_elem_of_fmap in Hin as (c & -> & _).
Qed.

Lemma markdown_phase cfg groupMap fs lines :
  ∃ fs1 lines1,
    writeMarkdownFilesPromise mkdir fs_writeFile cfg scheduler groupMap fs lines
    = Some (fs1, lines1)
    ∧ fs ⊆ fs1
    ∧ ∀ d, d ∈ markdownCandidates cfg groupMap → d ∈ fs1.
Proof.
  destruct (planMarkdownFiles_spec cfg groupMap fs) as (md & Hmd & Hpaths & _).
  unfold writeMarkdownFilesPromise. rewrite Hmd. simpl.
  apply phase_run; [done|]. by eapply markdown_payloads_load.
Qed.

Lemma image_phase cfg groupMap fs lines :
  (∀ url, ∃ data, loadImageFilePromise url = Returned data) →
  ∃ fs1 lines1,
    writeImageFilesPromise mkdir fs_writeFile loadImageFilePromise cfg
      scheduler groupMap fs lines
    = Some (fs1, lines1)
    ∧ fs ⊆ fs1
    ∧ ∀ d, d ∈ imageCandidates cfg groupMap → d ∈ fs1.
Proof.
  intros Hloads.
  destruct (planImageFiles_spec cfg groupMap fs) as (img & Himg & Hpaths & _).
  unfold writeImageFilesPromise. rewrite Himg. simpl.
  apply phase_run; [done|]. by eapply image_payloads_load.
Qed.

End WriterFacts.

(** A phase whose destinations all exist plans nothing, leaves the file
    system alone and logs one line. *)
Lemma markdown_phase_saved mkdir fs_writeFile cfg scheduler groupMap
    (fs : FS) lines :
  (∀ d, d ∈ markdownCandidates cfg groupMap → d ∈ fs) →
  writeMarkdownFilesPromise mkdir fs_writeFile cfg scheduler groupMap fs lines
  = Some (fs, lines ++ logSavingMessage "posts"
                         (length (groupedPosts groupMap)) 0).
Proof.
  intros Hall.
  destruct (planMarkdownFiles_spec cfg groupMap fs)
    as (md & Hmd & Hpaths & Hexisting).
  unfold writeMarkdownFilesPromise. rewrite Hmd. simpl.
  rewrite filter_none in Hpaths by (intros d Hd Hnot; by apply Hnot, Hall).
  rewrite filter_all in Hexisting by done.
  apply fmap_nil_inv in Hpaths. rewrite Hpaths, Hexisting. simpl.
  by rewrite markdownCandidates_length.
Qed.

Lemma image_phase_saved mkdir fs_writeFile loadImageFilePromise cfg scheduler
    groupMap (fs : FS) lines :
  (∀ d, d ∈ imageCandidates cfg groupMap → d ∈ fs) →
  writeImageFilesPromise mkdir fs_writeFile loadImageFilePromise cfg scheduler
    groupMap fs lines
  = Some (fs, lines ++ logSavingMessage "images"
                         (length (groupedPosts groupMap ≫= Post.imageUrls)) 0).
Proof.
  intros Hall.
  destruct (planImageFiles_spec cfg groupMap fs)
    as (img & Himg & Hpaths & Hexisting).
  unfold writeImageFilesPromise. rewrite Himg. simpl.
  rewrite filter_none in Hpaths by (intros d Hd Hnot; by apply Hnot, Hall).
  rewrite filter_all in Hexisting by done.
  apply fmap_nil_inv in Hpaths. rewrite Hpaths, Hexisting. simpl.
  by rewrite imageCandidates_length.
Qed.

(** X12: a run of [writeFilesPromise] in which every file system call and
    every download succeeds completes and loses no file; and a second run
    on what it leaves writes nothing, whichever schedule the first run
    followed: it returns the same file system, and all it logs is the line
    about the groups (in translation mode), the array of long group keys
    and, for the posts and then for the images, the heading and the summary
    that counts every one of them as saved already (or says that there is
    none). *)
Theorem X12_second_run_writes_nothing
    (mkdir : FS → string → FS * option string)
    (fs_writeFile : FS → string → string → FS * option string)
    (loadImageFilePromise : string → Outcome string)
    (cfg : Config.t) (scheduler : nat → list nat)
    (posts : list Post.t) (fs : FS) (lines : list ConsoleLine) :
  keepsFiles mkdir fs_writeFile →
  neverFails mkdir fs_writeFile →
  (∀ n, complete n (scheduler n)) →
  (∀ url, ∃ data, loadImageFilePromise url = Returned data) →
  ∃ fs1 lines1,
    writeFilesPromise mkdir fs_writeFile loadImageFilePromise cfg scheduler
      posts fs lines
    = Some (fs1, lines1)
    ∧ fs ⊆ fs1
    ∧ ∀ lines2,
        writeFilesPromise mkdir fs_writeFile loadImageFilePromise cfg scheduler
          posts fs1 lines2
        = Some (fs1,
                (if Config.polylang cfg
                 then lines2 ++ [Log "Building Polylang translation groups..."]
                 else lines2)
                ++ [LogArray (longKeys (groupMapOf cfg posts));
                    Heading "Saving posts";
                    savingSummary "posts"
                      (length (groupedPosts (groupMapOf cfg posts))) 0;
                    Heading "Saving images";
                    savingSummary "images"
                      (length (groupedPosts (groupMapOf cfg posts)
                               ≫= Post.imageUrls)) 0]).
Proof.
  intros Hkeeps Hnever Hcomplete Hloads. unfold writeFilesPromise.
  destruct (markdown_phase mkdir fs_writeFile scheduler Hkeeps Hnever Hcomplete
              cfg (groupMapOf cfg posts) fs
              ((if Config.polylang cfg
                then lines ++ [Log "Building Polylang translation groups..."]
                else lines)
               ++ [LogArray (longKeys (groupMapOf cfg posts))]))
    as (fs0 & lines0 & Hfirst & Hsub0 & Hposts).
  destruct (image_phase mkdir fs_writeFile loadImageFilePromise scheduler
              Hkeeps Hnever Hcomplete cfg (groupMapOf cfg posts) fs0 lines0
              Hloads)
    as (fs1 & lines1 & Hsecond & Hsub1 & Himages).
  exists fs1, lines1. split; [|split].
  - simpl. rewrite Hfirst. simpl. by rewrite Hsecond.
  - by etrans.
  - intros lines2. simpl.
    rewrite markdown_phase_saved by (intros d Hd; by apply Hsub1, Hposts).
    simpl. rewrite image_phase_saved by done.
    unfold logSavingMessage. by rewrite <-!(assoc_L (++)).
Qed.

(** The two translations of the example, written to an empty output
    directory and then written again. *)
Lemma X12_witness :
  ∃ fs1 lines1,
    writeFilesPromise Example.mkdir Example.fs_writeFile
      (fun _ => Returned "bytes") Example.cfg sequential
      Example.englishFirst ∅ []
    = Some (fs1, lines1)
    ∧ ∅ ⊆ fs1
    ∧ ∀ lines2,
        writeFilesPromise Example.mkdir Example.fs_writeFile
          (fun _ => Returned "bytes") Example.cfg sequential
          Example.englishFirst fs1 lines2
        = Some (fs1,
                (lines2 ++ [Log "Building Polylang translation groups..."])
                ++ [LogArray [];
                    Heading "Saving posts";
                    Log "All 2 posts already saved.";
                    Heading "Saving images";
                    Log "All 2 images already saved."]).
Proof.
  apply (X12_second_run_writes_nothing Example.mkdir Example.fs_writeFile
           (fun _ => Returned "bytes") Example.cfg sequential
           Example.englishFirst ∅ []).
  - split; [|split].
    + intros fs dir. apply union_subseteq_r.
    + intros fs path data. apply union_subseteq_r.
    + intros fs path data _. apply elem_of_union_l, elem_of_singleton.
      reflexivity.
  - split; intros; reflexivity.
  - intros n i Hi. apply (sequential_turns i 0 n). lia.
  - intros url. eexists. reflexivity.
Defined.

(** ** Images merged into posts *)

Lemma mergeImagesIntoPosts_attachImages images posts :
  mergeImagesIntoPosts images posts = attachImages images <$> posts.
Proof.
  unfold mergeImagesIntoPosts, attachImages. revert posts.
  induction images as [|image images IH]; intros posts; simpl.
  - by rewrite list_fmap_id.
  - by rewrite IH, <-list_fmap_compose.
Qed.

Lemma attachImage_fields image post :
  attachImage image post
  = set_images post
      (if decide (Some (image_id image) = Post.coverImageId post)
       then Some (getFilenameFromUrl (image_url image))
       else Post.coverImage post)
      (if decide (attaches image post
                  ∧ image_url image ∉ Post.imageUrls post)
       then Post.imageUrls post ++ [image_url image]
       else Post.imageUrls post).
Proof.
  unfold attachImage, attaches.
  destruct (decide (Some (image_id image) = Post.coverImageId post)) as [Hc|Hc];
    [rewrite (bool_decide_eq_true_2 _ Hc)|rewrite (bool_decide_eq_false_2 _ Hc)];
    (destruct (decide (image_postId image = Post.id post)) as [Ha|Ha];
     [rewrite (bool_decide_eq_true_2 _ Ha)|rewrite (bool_decide_eq_false_2 _ Ha)]);
    (destruct (decide (image_url image ∈ Post.imageUrls post)) as [Hu|Hu];
     [rewrite (bool_decide_eq_true_2 _ Hu)|rewrite (bool_decide_eq_false_2 _ Hu)]);
    simpl; case_decide; tauto.
Qed.

Lemma attachImages_spec images post :
  ∃ added,
    attachImages images post
    = set_images post
        (match last (filter (fun image =>
                               Some (image_id image) = Post.coverImageId post)
                            images) with
         | Some image => Some (getFilenameFromUrl (image_url image))
         | None => Post.coverImage post
         end)
        (Post.imageUrls post ++ added)
    ∧ NoDup added
    ∧ ∀ url, url ∈ added ↔
             (url ∉ Post.imageUrls post)
             ∧ ∃ image, image ∈ images ∧ image_url image = url
                        ∧ attaches image post.
Proof.
  revert post. induction images as [|image rest IH]; intros post.
  { exists []. split; [|split].
    - rewrite app_nil_r. by destruct post.
    - constructor.
    - intros url. split; [by intros ?%elem_of_nil|].
      by intros (_ & image & ?%elem_of_nil & _). }
  change (attachImages (image :: rest) post)
    with (attachImages rest (attachImage image post)).
  destruct (IH (attachImage image post)) as (added & -> & Hnd & Hadded).
  clear IH. rewrite attachImage_fields in *.
  set (urls := if decide (attaches image post
                          ∧ image_url image ∉ Post.imageUrls post)
               then Post.imageUrls post ++ [image_url image]
               else Post.imageUrls post) in *.
  assert (∀ url, url ∈ added ↔
                 (url ∉ urls)
                 ∧ ∃ other, other ∈ rest ∧ image_url other = url
                            ∧ attaches other post) as Hadded' by exact Hadded.
  clear Hadded.
  assert (∀ c u (l : list string),
            set_images (set_images post c u)
              (match last (filter (fun image0 =>
                                     Some (image_id image0)
                                     = Post.coverImageId post) rest) with
               | Some image0 => Some (getFilenameFromUrl (image_url image0))
               | None => c
               end) l
            = set_images post
                (match last (filter (fun image0 =>
                                       Some (image_id image0)
                                       = Post.coverImageId post) rest) with
                 | Some image0 => Some (getFilenameFromUrl (image_url image0))
                 | None => c
                 end) l) as Hset by done.
  assert (match last (filter (fun image0 =>
                                Some (image_id image0) = Post.coverImageId post)
                             rest) with
          | Some image0 => Some (getFilenameFromUrl (image_url image0))
          | None => if decide (Some (image_id image) = Post.coverImageId post)
                    then Some (getFilenameFromUrl (image_url image))
                    else Post.coverImage post
          end
          = match last (filter (fun image0 =>
                                  Some (image_id image0) = Post.coverImageId post)
                               (image :: rest)) with
            | Some image0 => Some (getFilenameFromUrl (image_url image0))
            | None => Post.coverImage post
            end) as Hcover.
  { rewrite filter_cons. case_decide as Hc.
    - rewrite last_cons. by destruct (last _).
    - done. }
  change (Post.coverImageId (set_images post _ _))
    with (Post.coverImageId post).
  change (Post.coverImage (set_images post ?c _)) with c.
  change (Post.imageUrls (set_images post _ ?u)) with u.
  rewrite Hset, Hcover. clear Hset Hcover.
  unfold urls in *. clear urls.
  destruct (decide (attaches image post
                    ∧ image_url image ∉ Post.imageUrls post)) as [[Hatt Hnew]|Hno].
  - exists (image_url image :: added). split; [|split].
    + by rewrite <-(assoc_L (++)).
    + apply NoDup_cons. split; [|done].
      intros [Hnot _]%Hadded'. apply Hnot, elem_of_app. right.
      apply list_elem_of_here.
    + intros url. rewrite elem_of_cons, Hadded'. split.
      * intros [-> | (Hnot & other & Hother & Hurl & Hatt')].
        -- split; [done|]. exists image.
           split; [apply list_elem_of_here|done].
        -- split; [intros Hin; apply Hnot, elem_of_app; by left|].
           exists other. split; [by apply list_elem_of_further|done].
      * intros (Hnot & other & Hother & Hurl & Hatt').
        destruct (decide (url = image_url image)) as [->|Hne]; [by left|].
        right. split.
        -- rewrite elem_of_app, list_elem_of_singleton. tauto.
        -- exists other. split; [|done].
           apply elem_of_cons in Hother as [-> | Hother]; [congruence|done].
  - exists added. split; [done|]. split; [done|].
    intros url. rewrite Hadded'. split.
    + intros (Hnot & other & Hother & Hurl & Hatt).
      split; [done|]. exists other. split; [by apply list_elem_of_further|done].
    + intros (Hnot & other & Hother & Hurl & Hatt).
      split; [done|]. exists other. split; [|done].
      apply elem_of_cons in Hother as [-> | Hother]; [|done].
      exfalso. apply Hno. split; [done|]. by rewrite Hurl.
Qed.

(** X13: [mergeImagesIntoPosts] changes nothing of a post but its cover
    image and its image URLs.  The URLs it had stay in front; behind them
    come, each once, the URLs it did not have of the images uploaded to
    the post or featured by it; and the cover image is the file name of
    the last image whose id is the post's featured image id, or what it
    was when there is none. *)
Theorem X13_images_are_attached_once (images : list Image)
    (posts : list Post.t) (i : nat) (post : Post.t) :
  posts !! i = Some post →
  length (mergeImagesIntoPosts images posts) = length posts
  ∧ ∃ added,
      mergeImagesIntoPosts images posts !! i
      = Some (set_images post
                (match last (filter (fun image =>
                                       Some (image_id image)
                                       = Post.coverImageId post) images) with
                 | Some image => Some (getFilenameFromUrl (image_url image))
                 | None => Post.coverImage post
                 end)
                (Post.imageUrls post ++ added))
      ∧ NoDup added
      ∧ ∀ url, url ∈ added ↔
               (url ∉ Post.imageUrls post)
               ∧ ∃ image, image ∈ images ∧ image_url image = url
                          ∧ attaches image post.
Proof.
  intros Hi. rewrite mergeImagesIntoPosts_attachImages, length_fmap.
  split; [done|].
  destruct (attachImages_spec images post) as (added & Heq & Hnd & Hadded).
  exists added. split; [|done].
  by rewrite list_lookup_fmap, Hi, <-Heq.
Qed.

(** The English post of the example and the cover image, listed twice. *)
Lemma X13_witness :
  length (mergeImagesIntoPosts [Example.cover; Example.cover]
            [Example.translation "1" "hello" "en"]) = 1
  ∧ ∃ added,
      mergeImagesIntoPosts [Example.cover; Example.cover]
        [Example.translation "1" "hello" "en"] !! 0
      = Some (set_images (Example.translation "1" "hello" "en")
                (Some "cover.png")
                (["https://example.com/wp-content/uploads/cover.png"]
                 ++ added))
      ∧ NoDup added
      ∧ ∀ url, url ∈ added ↔
               (url ∉ ["https://example.com/wp-content/uploads/cover.png"])
               ∧ ∃ image, image ∈ [Example.cover; Example.cover]
                          ∧ image_url image = url
                          ∧ attaches image (Example.translation "1" "hello" "en").
Proof.
  apply (X13_images_are_attached_once [Example.cover; Example.cover]
           [Example.translation "1" "hello" "en"] 0
           (Example.translation "1" "hello" "en")).
  reflexivity.
Defined.

(** ** Translation terms and the posts parsed *)

Lemma readCategories_from (cats : list Category) (pl : Polylang.t) :
  foldl (fun pl cat =>
           let pl1 :=
             if bool_decide (domain cat = "language")
             then {| Polylang.language := Some (nicename cat);
                     Polylang.groupSlug := Polylang.groupSlug pl;
                     Polylang.translationMap := Polylang.translationMap pl |}
             else pl in
           if bool_decide (domain cat = "post_translations")
           then {| Polylang.language := Polylang.language pl1;
                   Polylang.groupSlug := Some (nicename cat);
                   Polylang.translationMap := Polylang.translationMap pl1 |}
           else pl1) pl cats
  = {| Polylang.language :=
         match lastOfDomain "language" cats with
         | Some name => Some name
         | None => Polylang.language pl
         end;
       Polylang.groupSlug :=
         match lastOfDomain "post_translations" cats with
         | Some name => Some name
         | None => Polylang.groupSlug pl
         end;
       Polylang.translationMap := Polylang.translationMap pl |}.
Proof.
  revert pl. induction cats as [|cat cats IH]; intros pl; [by destruct pl|].
  simpl. rewrite IH. unfold lastOfDomain. rewrite !filter_cons.
  destruct (decide (domain cat = "language")) as [Hl|Hl];
    [rewrite (bool_decide_eq_true_2 _ Hl)|rewrite (bool_decide_eq_false_2 _ Hl)];
    (destruct (decide (domain cat = "post_translations")) as [Ht|Ht];
     [rewrite (bool_decide_eq_true_2 _ Ht)|rewrite (bool_decide_eq_false_2 _ Ht)]);
    rewrite ?last_cons; simpl;
    repeat (destruct (last _); simpl); done.
Qed.

Lemma readCategories_last cats :
  readCategories cats
  = {| Polylang.language := lastOfDomain "language" cats;
       Polylang.groupSlug := lastOfDomain "post_translations" cats;
       Polylang.translationMap := None |}.
Proof.
  unfold readCategories. rewrite readCategories_from. simpl.
  by do 2 destruct (lastOfDomain _ _).
Qed.

Section TermFacts.
Variable unserialize : string → Outcome (JsObject JsVal).

Lemma parseTerm_get st term slug :
  obj_get (parseTerm unserialize st term).1 slug
  = match (if bool_decide (term_slug term = slug)
           then mappingOf unserialize term else None) with
    | Some mapping => Some mapping
    | None => obj_get st.1 slug
    end.
Proof.
  destruct st as [termMappings lines]. unfold parseTerm, mappingOf.
  case_bool_decide as Htax; [|by case_bool_decide].
  destruct (unserialize (term_description term)) as [parsed|err];
    [|by case_bool_decide].
  simpl. rewrite obj_get_set.
  case_decide; [by rewrite bool_decide_eq_true_2|
                by rewrite bool_decide_eq_false_2].
Qed.

Lemma parseTerm_lines st term :
  (parseTerm unserialize st term).2
  = st.2 ++ option_list (warningOf unserialize term).
Proof.
  destruct st as [termMappings lines]. unfold parseTerm, warningOf.
  case_bool_decide as Htax; simpl; [|by rewrite app_nil_r].
  destruct (unserialize (term_description term)); simpl; [|done].
  by rewrite app_nil_r.
Qed.

Lemma parseTerms_from terms st slug :
  obj_get (foldl (parseTerm unserialize) st terms).1 slug
  = match last (omap (mappingOf unserialize)
                  (filter (fun term => term_slug term = slug) terms)) with
    | Some mapping => Some mapping
    | None => obj_get st.1 slug
    end
  ∧ (foldl (parseTerm unserialize) st terms).2
    = st.2 ++ omap (warningOf unserialize) terms.
Proof.
  revert st. induction terms as [|term terms IH]; intros st.
  { simpl. by rewrite app_nil_r. }
  simpl foldl. destruct (IH (parseTerm unserialize st term)) as [-> ->].
  rewrite parseTerm_get, parseTerm_lines, filter_cons. split.
  - case_bool_decide as Hslug.
    + rewrite decide_True by done. simpl.
      destruct (mappingOf unserialize term) as [mapping|]; [|done].
      rewrite last_cons. by destruct (last _).
    + by rewrite decide_False by done.
  - simpl. rewrite <-(assoc_L (++)). f_equal.
    by destruct (warningOf unserialize term).
Qed.

End TermFacts.


Section ParsedPosts.
Variable unserialize : string → Outcome (JsObject JsVal).
Variable decodeURIComponent : string → string.
Variable getPostContent : string → string.
Variable getMetaContent : Item → JsObject string.
Variable getFrontmatter : Post.t → JsObject JsVal.

Local Abbreviation parse :=
  (parseFilePromise unserialize decodeURIComponent getPostContent
     getMetaContent getFrontmatter).

(** The post the parser returns for a collected item. *)
Lemma parse_lookup allPostData collected images terms i item :
  NoDup (post_id <$> allPostData) →
  collected ⊆+ allPostData →
  collected !! i = Some item →
  ∃ post,
    (parse allPostData collected images terms).1 !! i = Some post
    ∧ Post.id post = post_id item
    ∧ Post.slug post = decodeURIComponent (post_name item)
    ∧ Post.polylang post
      = polylangOf (parseTermMappings unserialize terms).1 item.
Proof.
  intros Hnd Hsub Hitem. unfold parseFilePromise.
  destruct (parseTermMappings unserialize terms) as [termMappings lines].
  simpl.
  set (posts0 := mergeImagesIntoPosts images
                   (buildPost decodeURIComponent getPostContent getMetaContent
                      <$> collected)).
  assert (Post.id <$> posts0 = post_id <$> collected) as Hids.
  { unfold posts0. rewrite mergeImagesIntoPosts_ids, <-list_fmap_compose. done. }
  assert (NoDup (Post.id <$> posts0)) as Hnd0.
  { rewrite Hids. apply (submseteq_NoDup _ (post_id <$> allPostData)); [|done].
    by apply fmap_submseteq. }
  rewrite (attachPolylang_enriched termMappings posts0 Hnd0 allPostData Hnd).
  unfold populateFrontmatter, posts0.
  rewrite mergeImagesIntoPosts_attachImages, !list_lookup_fmap, Hitem. simpl.
  eexists. split; [done|].
  destruct (attachImages_spec images
              (buildPost decodeURIComponent getPostContent getMetaContent item))
    as (added & -> & _).
  unfold enriched. simpl.
  rewrite find_item; [done..|].
  apply (elem_of_submseteq collected allPostData); [|done].
  apply list_elem_of_lookup. by exists i.
Qed.

(** X15: when the ids of the export's items are distinct, the post the
    parser returns for a collected item has the item's id and decoded name,
    the language and group slug of the item's last [language] and
    [post_translations] category tags, and as translation map the one
    recorded for that group slug, if the slug is not empty and a term with
    it could be unserialized. *)
Theorem X15_parsed_post_carries_translation_data
    (allPostData collected : list Item) (images : list Image)
    (terms : list Term) (i : nat) (item : Item) :
  NoDup (post_id <$> allPostData) →
  collected ⊆+ allPostData →
  collected !! i = Some item →
  ∃ post,
    (parse allPostData collected images terms).1 !! i = Some post
    ∧ Post.id post = post_id item
    ∧ Post.slug post = decodeURIComponent (post_name item)
    ∧ Polylang.language (Post.polylang post)
      = lastOfDomain "language" (categories item)
    ∧ Polylang.groupSlug (Post.polylang post)
      = lastOfDomain "post_translations" (categories item)
    ∧ Polylang.translationMap (Post.polylang post)
      = match lastOfDomain "post_translations" (categories item) with
        | Some slug =>
            if bool_decide (slug = EmptyString) then None
            else last (omap (mappingOf unserialize)
                         (filter (fun term => term_slug term = slug) terms))
        | None => None
        end.
Proof.
  intros Hnd Hsub Hitem.
  destruct (parse_lookup allPostData collected images terms i item Hnd Hsub Hitem)
    as (post & Hpost & Hid & Hslug & Hpl).
  exists post. do 3 (split; [done|]). rewrite Hpl.
  unfold polylangOf. rewrite readCategories_last. simpl.
  do 2 (split; [done|]). unfold lookupTranslationMap.
  destruct (lastOfDomain "post_translations" (categories item)) as [slug|];
    [|done].
  case_bool_decide; [done|].
  unfold parseTermMappings.
  destruct (parseTerms_from unserialize terms ([], []) slug) as [-> _].
  by destruct (last _).
Qed.

(** X16: two collected items tagged with the same translation group slug,
    for which a term could be unserialized to a map that is not empty, give
    posts that are members of one group, whose key is made of the ids the
    term lists, sorted and joined by commas. *)
Theorem X16_translations_share_a_group
    (allPostData collected : list Item) (images : list Image)
    (terms : list Term) (i j : nat) (a b : Item) (slug : string)
    (tm : JsObject string) :
  NoDup (post_id <$> allPostData) →
  collected ⊆+ allPostData →
  collected !! i = Some a →
  collected !! j = Some b →
  lastOfDomain "post_translations" (categories a) = Some slug →
  lastOfDomain "post_translations" (categories b) = Some slug →
  slug ≠ EmptyString →
  last (omap (mappingOf unserialize)
          (filter (fun term => term_slug term = slug) terms)) = Some tm →
  tm ≠ [] →
  let posts := (parse allPostData collected images terms).1 in
  ∃ pa pb members,
    posts !! i = Some pa ∧ Post.id pa = post_id a
    ∧ posts !! j = Some pb ∧ Post.id pb = post_id b
    ∧ obj_get (buildTranslationGroups posts)
        (join "," (js_sort (Object_values tm))) = Some members
    ∧ pa ∈ members ∧ pb ∈ members.
Proof.
  intros Hnd Hsub Ha Hb Hsa Hsb Hslug Hterm Htm posts.
  assert (∀ k item,
            collected !! k = Some item →
            lastOfDomain "post_translations" (categories item) = Some slug →
            ∃ post, posts !! k = Some post ∧ Post.id post = post_id item
                    ∧ groupKey post = join "," (js_sort (Object_values tm)))
    as Hkey.
  { intros k item Hk Hs.
    destruct (parse_lookup allPostData collected images terms k item Hnd Hsub Hk)
      as (post & Hpost & Hid & _ & Hpl).
    exists post. do 2 (split; [done|]).
    apply groupKey_with_map; [|done]. rewrite Hpl.
    unfold polylangOf. rewrite readCategories_last. simpl. rewrite Hs. simpl.
    rewrite bool_decide_eq_false_2 by done.
    unfold parseTermMappings.
    destruct (parseTerms_from unserialize terms ([], []) slug) as [-> _].
    by rewrite Hterm. }
  destruct (Hkey i a Ha Hsa) as (pa & Hpa & Hida & Hka).
  destruct (Hkey j b Hb Hsb) as (pb & Hpb & Hidb & Hkb).
  rewrite buildTranslationGroups_get.
  assert (pa ∈ filter (fun p => groupKey p = join "," (js_sort (Object_values tm)))
                      posts) as Hina.
  { apply list_elem_of_filter. split; [done|].
    apply list_elem_of_lookup. by exists i. }
  assert (pb ∈ filter (fun p => groupKey p = join "," (js_sort (Object_values tm)))
                      posts) as Hinb.
  { apply list_elem_of_filter. split; [done|].
    apply list_elem_of_lookup. by exists j. }
  destruct (filter _ posts) as [|first others] eqn:Hfilter;
    [by apply elem_of_nil in Hina|].
  by exists pa, pb, (first :: others).
Qed.

End ParsedPosts.

(** The term of the example, followed by one with the same slug that is
    broken and one of another taxonomy. *)
Lemma X15_witness :
  ∃ post,
    (Example.parse [Example.translated "1" "hello" "en";
                    Example.translated "2" "bonjour" "fr"]
       [Example.cover]
       [Example.pll_1 Example.serialized_en1_fr2;
        Example.pll_1 "a:2:{broken"]).1 !! 1 = Some post
    ∧ Post.id post = "2"
    ∧ Post.slug post = "bonjour"
    ∧ Polylang.language (Post.polylang post) = Some "fr"
    ∧ Polylang.groupSlug (Post.polylang post) = Some "pll_1"
    ∧ Polylang.translationMap (Post.polylang post)
      = Some [("en", "1"); ("fr", "2")].
Proof.
  apply (X15_parsed_post_carries_translation_data Example.unserialize
           (fun s => s) (fun s => s) (fun _ => []) (fun _ => [])
           [Example.translated "1" "hello" "en";
            Example.translated "2" "bonjour" "fr";
            Example.attachment "9"]
           [Example.translated "1" "hello" "en";
            Example.translated "2" "bonjour" "fr"]
           [Example.cover]
           [Example.pll_1 Example.serialized_en1_fr2;
            Example.pll_1 "a:2:{broken"]
           1 (Example.translated "2" "bonjour" "fr")).
  - apply (bool_decide_unpack _). reflexivity.
  - do 2 apply submseteq_skip. apply submseteq_cons, submseteq_nil.
  - reflexivity.
Defined.

(** The two translations of the example. *)
Lemma X16_witness :
  ∃ pa pb members,
    Example.englishFirst !! 0 = Some pa ∧ Post.id pa = "1"
    ∧ Example.englishFirst !! 1 = Some pb ∧ Post.id pb = "2"
    ∧ obj_get (buildTranslationGroups Example.englishFirst) "1,2" = Some members
    ∧ pa ∈ members ∧ pb ∈ members.
Proof.
  apply (X16_translations_share_a_group Example.unserialize
           (fun s => s) (fun s => s) (fun _ => []) (fun _ => [])
           [Example.translated "1" "hello" "en";
            Example.translated "2" "bonjour" "fr";
            Example.attachment "9"]
           [Example.translated "1" "hello" "en";
            Example.translated "2" "bonjour" "fr"]
           [Example.cover] [Example.pll_1 Example.serialized_en1_fr2]
           0 1 (Example.translated "1" "hello" "en")
           (Example.translated "2" "bonjour" "fr") "pll_1"
           [("en", "1"); ("fr", "2")]).
  - apply (bool_decide_unpack _). reflexivity.
  - do 2 apply submseteq_skip. apply submseteq_cons, submseteq_nil.
  - reflexivity.
  - reflexivity.
  - reflexivity.
  - reflexivity.
  - discriminate.
  - reflexivity.
  - discriminate.
Defined.

(** ** Nested frontmatter *)

Lemma obj_set_keys {V} (o : JsObject V) k v :
  (obj_set o k v).*1 = if decide (k ∈ o.*1) then o.*1 else o.*1 ++ [k].
Proof.
  induction o as [|[k' v'] o IH].
  - destruct (decide (k ∈ ([] : JsObject V).*1)) as [Hin|_]; [|done].
    by apply elem_of_nil in Hin.
  - change (obj_set ((k', v') :: o) k v)
      with (if String.eqb k' k then (k', v) :: o else (k', v') :: obj_set o k v).
    rewrite !fmap_cons. change ((k', v').1) with k'.
    destruct (String.eqb_spec k' k) as [->|Hne].
    + rewrite decide_True by apply list_elem_of_here. by rewrite fmap_cons.
    + rewrite fmap_cons, IH. change ((k', v').1) with k'.
      destruct (decide (k ∈ o.*1)) as [Hin|Hnin].
      * by rewrite decide_True by (by apply list_elem_of_further).
      * rewrite decide_False; [done|].
        intros [?|?]%elem_of_cons; congruence.
Qed.

Lemma setNested_cons obj key next rest value :
  setNested obj (key :: next :: rest) value
  = if bool_decide (key = "__proto__") then None
    else match descend obj key with
         | Some cur =>
             match setNested cur (next :: rest) value with
             | Some inner => Some (obj_set obj key (JObj inner))
             | None => None
             end
         | None => None
         end.
Proof. reflexivity. Qed.

Lemma getNested_cons obj key next rest :
  getNested obj (key :: next :: rest)
  = match obj_get obj key with
    | Some (JObj o) => getNested o (next :: rest)
    | _ => None
    end.
Proof. reflexivity. Qed.

(** X17: along a path that has no [__proto__] segment and does not lead
    into an array or a date, [setNested] stores the value where the path
    reads it back, replacing on its way whatever is not an object by a new
    one; of the object's own properties it changes only the one named by the
    first segment, which it creates last when it is new. *)
Theorem X17_setNested_round_trip (obj : JsObject JsVal) (path : list string)
    (value : JsVal) :
  path ≠ [] →
  plainAlong obj path →
  ∃ obj',
    setNested obj path value = Some obj'
    ∧ getNested obj' path = Some value
    ∧ (∀ key, Some key ≠ head path → obj_get obj' key = obj_get obj key)
    ∧ obj'.*1 = match head path with
                | Some key => if decide (key ∈ obj.*1) then obj.*1
                              else obj.*1 ++ [key]
                | None => obj.*1
                end.
Proof.
  revert obj. induction path as [|key rest IH]; intros obj Hne Hplain; [done|].
  destruct Hplain as [Hproto Hplain]. simpl head.
  destruct rest as [|next rest].
  - exists (obj_set obj key value). simpl.
    rewrite bool_decide_eq_false_2 by done.
    split; [done|]. split; [by rewrite obj_get_set, decide_True|].
    split; [|apply obj_set_keys].
    intros other Hother. simpl in Hother.
    rewrite obj_get_set, decide_False; [done|congruence].
  - destruct (descend obj key) as [cur|] eqn:Hcur; [|done].
    destruct (IH cur) as (inner & Hinner & Hget & _); [done..|].
    exists (obj_set obj key (JObj inner)).
    rewrite setNested_cons, bool_decide_eq_false_2, Hcur, Hinner by done.
    split; [done|]. split; [|split; [|apply obj_set_keys]].
    + by rewrite getNested_cons, obj_get_set, decide_True.
    + intros other Hother. simpl in Hother.
      rewrite obj_get_set, decide_False; [done|congruence].
Qed.

(** A frontmatter in which [seo] is a string: the string gives way to an
    object. *)
Lemma X17_witness :
  ∃ obj',
    setNested [("title", JStr "Hello"); ("seo", JStr "old")]
      ["seo"; "title"] (JStr "Welcome") = Some obj'
    ∧ getNested obj' ["seo"; "title"] = Some (JStr "Welcome")
    ∧ (∀ key, Some key ≠ Some "seo" →
              obj_get obj' key
              = obj_get [("title", JStr "Hello"); ("seo", JStr "old")] key)
    ∧ obj'.*1 = ["title"; "seo"].
Proof.
  apply (X17_setNested_round_trip
           [("title", JStr "Hello"); ("seo", JStr "old")]
           ["seo"; "title"] (JStr "Welcome")).
  - discriminate.
  - simpl. repeat split; discriminate.
Defined.

(** ** Frontmatter fields *)

Section FrontmatterFacts.
Variable getters : JsObject (Post.t → JsVal).

Local Abbreviation fieldsLoop post :=
  (fun fm field =>
     match fm with
     | Returned fm => populateField getters post fm field
     | Threw message => Threw message
     end).

Local Abbreviation fieldsLoop' post :=
  (fun fm field =>
     obj_set fm (fieldName field)
       (fieldValue getters (set_frontmatter post fm) field)).

Lemma populateFields_threw fields post message :
  foldl (fieldsLoop post) (Threw message) fields = Threw message.
Proof. by induction fields. Qed.

Lemma populateFields_from fields post fm :
  foldl (fieldsLoop post) (Returned fm) fields
  = match find (unknownField getters) fields with
    | Some field => Threw (getterMissing (splitField field).1)
    | None => Returned (foldl (fieldsLoop' post) fm fields)
    end.
Proof.
  revert fm. induction fields as [|field fields IH]; intros fm; [done|].
  simpl foldl. simpl find. unfold populateField at 2, unknownField at 1.
  unfold fieldValue at 2.
  destruct (obj_get getters (splitField field).1) as [getter|] eqn:Hget.
  - rewrite bool_decide_eq_true_2 by (by eexists). simpl. by rewrite IH.
  - rewrite bool_decide_eq_false_2 by (by intros [? ?]). simpl.
    apply populateFields_threw.
Qed.

Lemma frontmatter_keys fields post fm :
  (foldl (fieldsLoop' post) fm fields).*1
  = foldl (fun set x => if bool_decide (x ∈ set) then set else set ++ [x])
          fm.*1 (fieldName <$> fields).
Proof.
  revert fm. induction fields as [|field fields IH]; intros fm; [done|].
  rewrite fmap_cons. simpl foldl. rewrite IH, obj_set_keys.
  by destruct (decide (fieldName field ∈ fm.*1)) as [Hin|Hnin];
    [rewrite (bool_decide_eq_true_2 _ Hin)
    |rewrite (bool_decide_eq_false_2 _ Hnin)].
Qed.

Local Abbreviation postsLoop fields :=
  (fun populated post =>
     match populated with
     | Returned populated =>
         match populateFields getters fields post with
         | Returned fm => Returned (populated ++ [set_frontmatter post fm])
         | Threw message => Threw message
         end
     | Threw message => Threw message
     end).

Lemma populateFrontmatterFields_threw fields posts message :
  foldl (postsLoop fields) (Threw message) posts = Threw message.
Proof. by induction posts. Qed.

Lemma populateFrontmatterFields_from fields posts populated :
  foldl (postsLoop fields) (Returned populated) posts
  = match posts, find (unknownField getters) fields with
    | _ :: _, Some field => Threw (getterMissing (splitField field).1)
    | _, _ =>
        Returned (populated ++
                  ((fun post =>
                      set_frontmatter post (frontmatterOf getters fields post))
                     <$> posts))
    end.
Proof.
  revert populated. induction posts as [|post posts IH]; intros populated.
  { simpl. by rewrite app_nil_r. }
  simpl foldl. unfold populateFields at 2. rewrite populateFields_from.
  destruct (find _ fields) as [field|] eqn:Hfind.
  - apply populateFrontmatterFields_threw.
  - rewrite IH, fmap_cons, <-(assoc_L (++)). simpl. by destruct posts.
Qed.

End FrontmatterFacts.


(** ** The order of the groups *)

Lemma index_le_total {V} : Total (@index_le V).
Proof. intros a b. unfold index_le. lia. Qed.

Section GroupOrder.
Implicit Types (posts : list Post.t).

Local Abbreviation alone := (fun p : Post.t => (Post.id p, [p])).

Lemma named_alone posts :
  concat (snd <$> named_entries (alone <$> posts))
  = filter (fun p => idIndex p = None) posts.
Proof.
  unfold named_entries. induction posts as [|p posts IH]; [done|].
  rewrite fmap_cons, !filter_cons. unfold idIndex at 1. simpl.
  destruct (decide (array_index (Post.id p) = None)); [|done].
  rewrite fmap_cons. simpl. by rewrite IH.
Qed.

Lemma indexed_alone posts :
  concat ((fun e => e.2.2) <$> indexed_entries (alone <$> posts))
  = filter (fun p => is_Some (idIndex p)) posts
  ∧ Forall (fun e => ∃ p, e.2.2 = [p] ∧ idIndex p = Some e.1)
           (indexed_entries (alone <$> posts)).
Proof.
  unfold indexed_entries. induction posts as [|p posts [IH1 IH2]]; [done|].
  rewrite fmap_cons, filter_cons.
  change (omap ?f (?x :: ?l))
    with (match f x with Some y => y :: omap f l | None => omap f l end).
  cbn beta. change ((Post.id p, [p]).1) with (Post.id p).
  destruct (decide (is_Some (idIndex p))) as [[n Hn]|Hno].
  - unfold idIndex in Hn. rewrite Hn. cbn [mbind option_bind].
    rewrite fmap_cons. cbn [concat snd app]. split; [by rewrite IH1|].
    constructor; [|done]. by exists p.
  - assert (array_index (Post.id p) = None) as ->; [|done].
    unfold idIndex in Hno. destruct (array_index (Post.id p)); [|done].
    exfalso. apply Hno. by eexists.
Qed.

Lemma sorted_alone (l : list (N * (string * list Post.t))) :
  Sorted index_le l →
  Forall (fun e => ∃ p, e.2.2 = [p] ∧ idIndex p = Some e.1) l →
  Sorted byIdIndex (concat ((fun e => e.2.2) <$> l)).
Proof.
  induction 1 as [|e l Hsorted IH Hhd]; intros Hall; [constructor|].
  apply Forall_cons in Hall as [(p & Hp & Hn) Hall].
  rewrite fmap_cons. simpl. rewrite Hp. simpl.
  constructor; [by apply IH|].
  destruct Hhd as [|e' l' Hle]; [constructor|].
  apply Forall_cons in Hall as [(p' & Hp' & Hn') _].
  rewrite fmap_cons. simpl. rewrite Hp'. simpl. constructor.
  unfold byIdIndex. by rewrite Hn, Hn'.
Qed.

End GroupOrder.

(** X19: without translation mode the group map is keyed by post id, and
    [Object.entries] visits keys that are array indices first, in ascending
    numeric order.  So the posts with such ids are planned by ascending id,
    whatever their order in the export, and the posts with other ids after
    them, in export order. *)
Theorem X19_single_posts_are_planned_by_ascending_id (cfg : Config.t)
    (posts : list Post.t) :
  Config.polylang cfg = false →
  NoDup (Post.id <$> posts) →
  ∃ numbered,
    groupedPosts (groupMapOf cfg posts)
    = numbered ++ filter (fun p => idIndex p = None) posts
    ∧ numbered ≡ₚ filter (fun p => is_Some (idIndex p)) posts
    ∧ Sorted byIdIndex numbered.
Proof.
  intros Hoff Hnd. unfold groupMapOf. rewrite Hoff.
  rewrite (singletons_from _ [] posts); [|by intros; apply obj_set_fresh|done].
  simpl. unfold groupedPosts, Object_values, Object_entries.
  rewrite fmap_app, concat_app, named_alone, <-list_fmap_compose.
  destruct (indexed_alone posts) as [Hconcat Hall].
  exists (concat ((fun e => e.2.2)
                    <$> merge_sort index_le
                          (indexed_entries ((fun p => (Post.id p, [p])) <$> posts)))).
  split; [done|]. split.
  - rewrite <-Hconcat. apply concat_Permutation, fmap_Permutation.
    apply merge_sort_Permutation.
  - apply sorted_alone.
    + pose proof (@index_le_total (list Post.t)) as Htotal.
      apply (Sorted_merge_sort index_le).
    + by rewrite (merge_sort_Permutation index_le).
Qed.

(** Post 10 before post 9 in the export: post 9 is planned first. *)
Lemma X19_witness :
  groupedPosts (groupMapOf Example.cfgOff
                  [Example.translation "10" "ten" "en";
                   Example.translation "9" "nine" "en"])
  = [Example.translation "9" "nine" "en"; Example.translation "10" "ten" "en"]
  ∧ ∃ numbered,
      groupedPosts (groupMapOf Example.cfgOff
                      [Example.translation "10" "ten" "en";
                       Example.translation "9" "nine" "en"])
      = numbered ++ []
      ∧ numbered ≡ₚ [Example.translation "10" "ten" "en";
                     Example.translation "9" "nine" "en"]
      ∧ Sorted byIdIndex numbered.
Proof.
  split; [reflexivity|].
  apply (X19_single_posts_are_planned_by_ascending_id Example.cfgOff
           [Example.translation "10" "ten" "en";
            Example.translation "9" "nine" "en"]).
  - reflexivity.
  - apply (bool_decide_unpack _). reflexivity.
Defined.

Lemma alone_from (posts : list Post.t) (groupMap : JsObject (list Post.t)) key :
  obj_get (foldl (fun groupMap post => obj_set groupMap (Post.id post) [post])
                 groupMap posts) key
  = match last (filter (fun p => Post.id p = key) posts) with
    | Some post => Some [post]
    | None => obj_get groupMap key
    end.
Proof.
  revert groupMap. induction posts as [|post posts IH]; intros groupMap; [done|].
  simpl foldl. rewrite IH, filter_cons, obj_get_set.
  destruct (decide (Post.id post = key)) as [Hid|Hid].
  - rewrite last_cons. by destruct (last _).
  - done.
Qed.

(** X20: without translation mode [writeFilesPromise] keeps, for an id,
    only the last post that has it: the group of an id is that post alone,
    and an earlier post with the same id is in no group, so nothing is
    written for it. *)
Theorem X20_later_post_replaces_earlier_with_same_id (cfg : Config.t)
    (posts : list Post.t) (key : string) :
  Config.polylang cfg = false →
  obj_get (groupMapOf cfg posts) key
  = (fun post => [post]) <$> last (filter (fun p => Post.id p = key) posts).
Proof.
  intros Hoff. unfold groupMapOf. rewrite Hoff, alone_from.
  by destruct (last _).
Qed.

(** Two posts with id 1: the later one is kept. *)
Lemma X20_witness :
  obj_get (groupMapOf Example.cfgOff
             [Example.translation "1" "hello" "en";
              Example.translation "2" "bonjour" "fr";
              Example.translation "1" "hallo" "de"]) "1"
  = Some [Example.translation "1" "hallo" "de"].
Proof.
  apply (X20_later_post_replaces_earlier_with_same_id Example.cfgOff
           [Example.translation "1" "hello" "en";
            Example.translation "2" "bonjour" "fr";
            Example.translation "1" "hallo" "de"] "1").
  reflexivity.
Defined.

(** ** The executor, payload by payload *)

Section ExecutorOutcomes.
Variable mkdir : FS → string → FS * option string.
Variable fs_writeFile : FS → string → string → FS * option string.
Variable loadFunc : PayloadItem → Outcome string.

Local Abbreviation step := (step_unit mkdir fs_writeFile loadFunc).
Local Abbreviation exec := (run mkdir fs_writeFile loadFunc).

(** What the stage of a unit says about its payload. *)
Local Abbreviation tracks payload stage :=
  (match stage with
   | Scheduled => True
   | Loaded data => loadFunc (Payload.item payload) = Returned data
   | DirReady data =>
       loadFunc (Payload.item payload) = Returned data
       ∧ ∃ fs, (mkdir fs (path_dirname (Payload.destinationPath payload))).2
               = None
   | Settled Fulfilled => canSucceed mkdir fs_writeFile loadFunc payload
   | Settled Rejected => canFail mkdir fs_writeFile loadFunc payload
   end).

Lemma step_tracks e i :
  (∀ j payload stage,
     units e !! j = Some (payload, stage) → tracks payload stage) →
  ∀ j payload stage,
    units (step e i) !! j = Some (payload, stage) → tracks payload stage.
Proof.
  intros He j other stage Hj.
  destruct (decide (i = j)) as [->|Hij];
    [|rewrite step_other in Hj by done; by eapply He].
  unfold step_unit in Hj.
  destruct (units e !! j) as [[payload st]|] eqn:Hi; [|by rewrite Hi in Hj].
  pose proof (He j payload st Hi) as Hold.
  pose proof (lookup_lt_Some _ _ _ Hi) as Hlt.
  destruct st as [|data|data|settled].
  - destruct (loadFunc (Payload.item payload)) as [data|message] eqn:Hload;
      simpl in Hj; rewrite list_lookup_insert_eq in Hj by done;
      injection Hj as <- <-; [done|].
    left. by exists message.
  - destruct (mkdir (files e) (path_dirname (Payload.destinationPath payload)))
      as [fs' [message|]] eqn:Hmkdir; simpl in Hj;
      rewrite list_lookup_insert_eq in Hj by done; injection Hj as <- <-.
    + right; left. exists (files e). rewrite Hmkdir. by eexists.
    + split; [done|]. exists (files e). by rewrite Hmkdir.
  - destruct Hold as [Hload Hdir].
    destruct (fs_writeFile (files e) (Payload.destinationPath payload) data)
      as [fs' [message|]] eqn:Hwrite; simpl in Hj;
      rewrite list_lookup_insert_eq in Hj by done; injection Hj as <- <-.
    + right; right. exists (files e), data. split; [done|].
      rewrite Hwrite. by eexists.
    + exists data. split; [done|]. split; [done|].
      exists (files e). by rewrite Hwrite.
  - rewrite Hi in Hj. by injection Hj as <- <-.
Qed.

Lemma run_tracks schedule payloads fs lines i payload stage :
  units (exec schedule (launch payloads fs lines)) !! i = Some (payload, stage) →
  tracks payload stage.
Proof.
  revert i payload stage.
  apply (run_invariant mkdir fs_writeFile loadFunc
           (fun e => ∀ j payload stage,
              units e !! j = Some (payload, stage) → tracks payload stage)).
  - intros e i He. by apply step_tracks.
  - intros j payload stage Hj. simpl in Hj. rewrite list_lookup_fmap in Hj.
    destruct (payloads !! j); simpl in Hj; [|done]. by injection Hj as <- <-.
Qed.

Lemma canSucceed_not_thrown payload message :
  canSucceed mkdir fs_writeFile loadFunc payload →
  loadFunc (Payload.item payload) = Threw message → False.
Proof. intros (data & Hload & _). congruence. Qed.

Lemma canSucceed_not_unwritable payload :
  canSucceed mkdir fs_writeFile loadFunc payload →
  unwritable mkdir fs_writeFile payload → False.
Proof.
  intros (data & _ & [fs1 Hmkdir] & [fs2 Hwrite]) [Hno | Hno].
  - destruct (Hno fs1) as [message Hsome]. congruence.
  - destruct (Hno fs2 data) as [message Hsome]. congruence.
Qed.

Lemma canFail_not_writable payload data :
  canFail mkdir fs_writeFile loadFunc payload →
  loadFunc (Payload.item payload) = Returned data →
  writable mkdir fs_writeFile payload → False.
Proof.
  intros [[message Hthrew] | [[fs [message Hsome]] | (fs & d & _ & message & Hsome)]]
    Hload [Hmkdir Hwrite].
  - congruence.
  - rewrite Hmkdir in Hsome. done.
  - rewrite Hwrite in Hsome. done.
Qed.

End ExecutorOutcomes.

(** C5: whatever the loader and the file system do, under every schedule
    that lets each unit take its steps the executor returns, with one
    settled result per payload, in payload order, so that the fulfilled and
    the rejected add up to the number of payloads; the console gets one
    result line per payload and then the summary with the number of
    rejected ones.  What a payload gets depends on its own unit only: it
    is rejected when its loader throws or when its directory or file can
    never be made, it is fulfilled when its loader returns and its own file
    system calls cannot fail, whatever happens to its siblings; a fulfilled
    payload has been loaded and written, and a rejected one has met an
    error of its own.  A step of one unit changes no other unit; a unit
    that is not settled can always take its next step; a settled unit
    stays settled; and a loader or file system error settles the unit it
    happens in as rejected. *)
Theorem C5_executor_isolates_failures
    (mkdir : FS → string → FS * option string)
    (fs_writeFile : FS → string → string → FS * option string)
    (loadFunc : PayloadItem → Outcome string)
    (payloads : list Payload.t) (fs : FS) (lines : list ConsoleLine)
    (schedule : list nat) :
  complete (length payloads) schedule →
  (∃ results fs' logged,
     processPayloadsPromise mkdir fs_writeFile schedule payloads loadFunc fs lines
     = Some (results, fs',
             lines ++ logged ++ [doneMessage (countStatus Rejected results)])
     ∧ length results = length payloads
     ∧ countStatus Fulfilled results + countStatus Rejected results
       = length payloads
     ∧ length logged = length payloads
     ∧ ∀ i payload,
         payloads !! i = Some payload →
         ∃ status errorMessage,
           results !! i = Some status
           ∧ logPayloadResult payload errorMessage ∈ logged
           ∧ (errorMessage = None ↔ status = Fulfilled)
           ∧ (status = Fulfilled →
              canSucceed mkdir fs_writeFile loadFunc payload)
           ∧ (status = Rejected → canFail mkdir fs_writeFile loadFunc payload)
           ∧ ((∃ message, loadFunc (Payload.item payload) = Threw message) →
              status = Rejected)
           ∧ (unwritable mkdir fs_writeFile payload → status = Rejected)
           ∧ ((∃ data, loadFunc (Payload.item payload) = Returned data) →
              writable mkdir fs_writeFile payload →
              status = Fulfilled))
  ∧ (∀ e i j, i ≠ j →
       units (step_unit mkdir fs_writeFile loadFunc e i) !! j = units e !! j)
  ∧ (∀ e i payload stage,
       units e !! i = Some (payload, stage) →
       (∀ status, stage ≠ Settled status) →
       ∃ stage',
         units (step_unit mkdir fs_writeFile loadFunc e i) !! i
         = Some (payload, stage')
         ∧ stageRank stage < stageRank stage')
  ∧ (∀ e i j payload status,
       units e !! j = Some (payload, Settled status) →
       units (step_unit mkdir fs_writeFile loadFunc e i) !! j
       = Some (payload, Settled status))
  ∧ (∀ e i payload message,
       units e !! i = Some (payload, Scheduled) →
       loadFunc (Payload.item payload) = Threw message →
       units (step_unit mkdir fs_writeFile loadFunc e i) !! i
       = Some (payload, Settled Rejected))
  ∧ (∀ e i payload data fs' message,
       (units e !! i = Some (payload, Loaded data)
        ∧ mkdir (files e) (path_dirname (Payload.destinationPath payload))
          = (fs', Some message))
       ∨ (units e !! i = Some (payload, DirReady data)
          ∧ fs_writeFile (files e) (Payload.destinationPath payload) data
            = (fs', Some message)) →
       units (step_unit mkdir fs_writeFile loadFunc e i) !! i
       = Some (payload, Settled Rejected)).
Proof.
  intros Hcomplete. split.
  { destruct (run_complete_settled mkdir fs_writeFile loadFunc
                schedule payloads fs lines Hcomplete) as (results & Hresults & Hlen).
    destruct (run_console mkdir fs_writeFile loadFunc lines schedule
                (launch payloads fs lines)) as (logged & Hconsole & Hcount & Hlogged).
    { exists []. simpl. split; [by rewrite app_nil_r|]. split.
      - unfold settledCount. rewrite filter_none; [done|].
        intros unit [payload [-> _]]%list_elem_of_fmap. by intros [? ?].
      - intros i payload status Hi. rewrite list_lookup_fmap in Hi.
        destruct (payloads !! i); simpl in Hi; congruence. }
    exists results, (files (run mkdir fs_writeFile loadFunc schedule
                              (launch payloads fs lines))), logged.
    split; [|split; [done|split; [|split]]].
    - unfold processPayloadsPromise. rewrite Hresults. simpl.
      by rewrite Hconsole, (assoc_L (++)).
    - by rewrite countStatus_total.
    - rewrite Hcount, (allSettled_count _ _ Hresults), run_length. simpl.
      by rewrite length_fmap.
    - intros i payload Hi.
      destruct (run_payload mkdir fs_writeFile loadFunc schedule payloads fs
                  lines i payload Hi) as (stage & Hstage).
      destruct (allSettled_lookup _ _ _ _ _ Hresults Hstage)
        as (status & -> & Hstatus).
      destruct (Hlogged i payload status Hstage) as (errorMessage & Hin & Hmsg).
      pose proof (run_tracks mkdir fs_writeFile loadFunc schedule payloads fs
                    lines i payload _ Hstage) as Htracks.
      exists status, errorMessage. do 3 (split; [done|]).
      destruct status; simpl in Htracks.
      + split; [done|]. split; [done|]. split; [|split; [|done]].
        * intros [message Hthrew]. exfalso.
          by eapply canSucceed_not_thrown.
        * intros Hno. exfalso. by eapply canSucceed_not_unwritable.
      + split; [done|]. split; [done|]. split; [done|]. split; [done|].
        intros [data Hload] Hwritable. exfalso.
        by eapply canFail_not_writable. }
  split; [apply step_other|].
  split.
  { intros e i payload stage Hi Hpending.
    destruct (step_self mkdir fs_writeFile loadFunc e i payload stage Hi)
      as (stage' & Hstage' & Hup & _).
    exists stage'. split; [done|]. apply Hup.
    destruct stage as [| | |settled]; simpl; try lia.
    by destruct (Hpending settled). }
  split.
  { intros e i j payload status Hj. destruct (decide (i = j)) as [->|Hij].
    - destruct (step_self mkdir fs_writeFile loadFunc e j payload _ Hj)
        as (stage' & Hstage' & _ & Hsame).
      by rewrite Hstage', Hsame.
    - by rewrite step_other. }
  split.
  { intros e i payload message Hi Hload.
    pose proof (lookup_lt_Some _ _ _ Hi) as Hlt.
    unfold step_unit. rewrite Hi, Hload. simpl.
    by rewrite list_lookup_insert_eq. }
  intros e i payload data fs' message [[Hi Hfail] | [Hi Hfail]];
    pose proof (lookup_lt_Some _ _ _ Hi) as Hlt;
    unfold step_unit; rewrite Hi, Hfail; simpl;
    by rewrite list_lookup_insert_eq.
Qed.

(** The three downloads of the example: the second, for which the loader
    throws, is rejected, and the third is fulfilled all the same. *)
Lemma C5_witness :
  complete (length Example.downloads) (sequential 3)
  ∧ ∃ results fs' logged,
      processPayloadsPromise Example.mkdir Example.fs_writeFile (sequential 3)
        Example.downloads Example.loader ∅ []
      = Some (results, fs',
              [] ++ logged ++ [doneMessage (countStatus Rejected results)])
      ∧ length results = 3
      ∧ results !! 1 = Some Rejected
      ∧ results !! 2 = Some Fulfilled.
Proof.
  assert (complete (length Example.downloads) (sequential 3)) as Hcomplete.
  { intros i Hi. destruct i as [|[|[|i]]]; [vm_compute; lia..|].
    simpl in Hi. lia. }
  split; [exact Hcomplete|].
  destruct (proj1 (C5_executor_isolates_failures
                     Example.mkdir Example.fs_writeFile Example.loader
                     Example.downloads ∅ [] (sequential 3) Hcomplete))
    as (results & fs' & logged & Hrun & Hlen & _ & _ & Heach).
  exists results, fs', logged. split; [exact Hrun|]. split; [exact Hlen|].
  split.
  - destruct (Heach 1 (Example.download "b.png") eq_refl)
      as (status & errorMessage & Hstatus & _ & _ & _ & _ & Hthrew & _).
    rewrite Hstatus. f_equal. apply Hthrew. eexists. reflexivity.
  - destruct (Heach 2 (Example.download "c.png") eq_refl)
      as (status & errorMessage & Hstatus & _ & _ & _ & _ & _ & _ & Hok).
    rewrite Hstatus. f_equal. apply Hok.
    + eexists. reflexivity.
    + split; intros; reflexivity.
Defined.

(** ** The planners, destination by destination *)

Lemma string_length_app (s t : string) :
  String.length (s +:+ t) = String.length s + String.length t.
Proof. induction s as [|c s IH]; simpl; [done|]. by rewrite IH. Qed.

Lemma string_app_inj_r (s1 s2 t : string) : s1 +:+ t = s2 +:+ t → s1 = s2.
Proof.
  revert s2. induction s1 as [|c s1 IH]; intros [|c' s2] Heq.
  - done.
  - apply (f_equal String.length) in Heq.
    rewrite !string_length_app in Heq. simpl in Heq. lia.
  - apply (f_equal String.length) in Heq.
    rewrite !string_length_app in Heq. simpl in Heq. lia.
  - injection Heq as -> Heq. f_equal. by apply IH.
Qed.

Lemma string_app_inj_l (s t1 t2 : string) : s +:+ t1 = s +:+ t2 → t1 = t2.
Proof. induction s as [|c s IH]; simpl; [done|]. intros [= Heq]. by apply IH. Qed.

Lemma path_join_inj_r (dir a b : string) :
  path_join dir a = path_join dir b → a = b.
Proof.
  unfold path_join. intros Heq%string_app_inj_l. by apply string_app_inj_l in Heq.
Qed.

Lemma buildPostPath_slug cfg p q :
  buildPostPath cfg p = buildPostPath cfg q → Post.slug p = Post.slug q.
Proof.
  unfold buildPostPath. destruct (Config.postFolders cfg).
  - unfold path_join at 1 3. intros Heq%string_app_inj_r.
    by apply path_join_inj_r in Heq.
  - intros Heq%path_join_inj_r. by apply string_app_inj_r in Heq.
Qed.

Lemma translationPath_lang cfg groupFolder baseSlug p q :
  translationPath cfg groupFolder baseSlug p
  = translationPath cfg groupFolder baseSlug q →
  langOf p = langOf q.
Proof.
  unfold translationPath. destruct groupFolder as [folder|].
  - intros Heq%path_join_inj_r. apply string_app_inj_l in Heq.
    by apply string_app_inj_r in Heq.
  - intros Heq%buildPostPath_slug. simpl in Heq.
    apply string_app_inj_l in Heq. by apply string_app_inj_l in Heq.
Qed.

Lemma omap_total {A B} (f : A → option B) (g : A → B) (l : list A) :
  (∀ x, x ∈ l → f x = Some (g x)) → omap f l = g <$> l.
Proof.
  induction l as [|x l IH]; intros Hf; [done|].
  change (omap f (x :: l))
    with (match f x with Some y => y :: omap f l | None => omap f l end).
  rewrite (Hf x) by apply list_elem_of_here. rewrite fmap_cons. f_equal.
  apply IH. intros y Hy. by apply Hf, list_elem_of_further.
Qed.

(** The targets of a group are the candidates of the group. *)
Lemma markdownTargetsOf_shape cfg g :
  ∃ dest,
    (∀ post, post ∈ g → markdownDestination cfg g post = Some (dest post))
    ∧ markdownTargetsOf cfg g = (fun post => (post, dest post)) <$> g
    ∧ markdownGroupCandidates cfg g = Some (markdownCandidate dest <$> g).
Proof.
  unfold markdownTargetsOf, markdownDestination, markdownGroupCandidates.
  destruct (Config.polylang cfg && bool_decide (1 < length g)) eqn:Hmode.
  - apply andb_true_iff in Hmode as [_ Hlen%bool_decide_eq_true].
    destruct g as [|first rest]; [simpl in Hlen; lia|].
    destruct (chooseBaseSlug_is_Some (first :: rest) (Config.defaultLanguage cfg))
      as [baseSlug ->]; [done|].
    simpl head. cbn [mbind option_bind].
    eexists. split; [by intros|]. split; [|done].
    by apply omap_total.
  - exists (buildPostPath cfg). split; [done|]. split; [|done].
    by apply omap_total.
Qed.

Lemma imageTargetsOf_shape cfg g :
  ∃ dir,
    (∀ post, post ∈ g → imagesDir cfg g post = Some (dir post))
    ∧ imageTargetsOf cfg g
      = (g ≫= fun post =>
                (fun url => (url, path_join (dir post) (getFilenameFromUrl url)))
                  <$> Post.imageUrls post)
    ∧ imageGroupCandidates cfg g
      = Some (g ≫= fun post =>
                     imageCandidate (dir post) <$> Post.imageUrls post).
Proof.
  unfold imageTargetsOf, imagesDir, imageGroupCandidates.
  destruct (Config.polylang cfg && bool_decide (1 < length g)) eqn:Hmode.
  - apply andb_true_iff in Hmode as [_ Hlen%bool_decide_eq_true].
    destruct g as [|first rest]; [simpl in Hlen; lia|].
    destruct (chooseBaseSlug_is_Some (first :: rest) (Config.defaultLanguage cfg))
      as [baseSlug ->]; [done|].
    cbn [mbind option_bind].
    by exists (fun _ => groupImagesDir cfg baseSlug).
  - by exists (postImagesDir cfg).
Qed.

Lemma allCandidates_groups {B} (h : Candidate → B) (K : list Post.t → list B)
    groupCandidates entries cs :
  (∀ g group, groupCandidates g = Some group → h <$> group = K g) →
  allCandidates groupCandidates entries = Some cs →
  h <$> cs = entries.*2 ≫= K.
Proof.
  intros Hgroup. revert cs.
  induction entries as [|[key g] rest IH]; intros cs Hall; simpl in Hall.
  - by injection Hall as <-.
  - destruct (groupCandidates g) as [cs1|] eqn:Hg; [|done].
    destruct (allCandidates groupCandidates rest) as [cs2|]; [|done].
    injection Hall as <-. rewrite fmap_app, (Hgroup _ _ Hg), (IH cs2) by done.
    by rewrite fmap_cons, bind_cons.
Qed.

Lemma markdown_candidates_targets cfg (groupMap : JsObject (list Post.t)) cs :
  allCandidates (markdownGroupCandidates cfg) (Object_entries groupMap)
  = Some cs →
  (fun c => (Payload.item (c.2 0), c.1)) <$> cs
  = (fun t => (PostItem t.1, t.2)) <$> markdownTargets cfg groupMap.
Proof.
  intros Hall. unfold markdownTargets, Object_values.
  rewrite fmap_bind_inner.
  apply (allCandidates_groups _ _ (markdownGroupCandidates cfg)); [|done].
  intros g group Hgroup.
  destruct (markdownTargetsOf_shape cfg g) as (dest & _ & -> & Hcs).
  rewrite Hcs in Hgroup. injection Hgroup as <-.
  by rewrite <-!list_fmap_compose.
Qed.

Lemma image_candidates_targets cfg (groupMap : JsObject (list Post.t)) cs :
  allCandidates (imageGroupCandidates cfg) (Object_entries groupMap)
  = Some cs →
  (fun c => (Payload.item (c.2 0), c.1)) <$> cs
  = (fun t => (ImageItem t.1, t.2)) <$> imageTargets cfg groupMap.
Proof.
  intros Hall. unfold imageTargets, Object_values.
  rewrite fmap_bind_inner.
  apply (allCandidates_groups _ _ (imageGroupCandidates cfg)); [|done].
  intros g group Hgroup.
  destruct (imageTargetsOf_shape cfg g) as (dir & _ & -> & Hcs).
  rewrite Hcs in Hgroup. injection Hgroup as <-.
  rewrite !fmap_bind_inner. apply list_bind_ext; [|done].
  intros post. by rewrite <-!list_fmap_compose.
Qed.

Lemma markdownTargets_posts cfg groupMap :
  (markdownTargets cfg groupMap).*1 = groupedPosts groupMap.
Proof.
  unfold markdownTargets, groupedPosts.
  induction (Object_values groupMap) as [|g groups IH]; [done|].
  rewrite bind_cons, fmap_app, IH. simpl. f_equal.
  destruct (markdownTargetsOf_shape cfg g) as (dest & _ & -> & _).
  rewrite <-list_fmap_compose. apply list_fmap_id.
Qed.

Lemma imageTargets_urls cfg groupMap :
  (imageTargets cfg groupMap).*1 = groupedPosts groupMap ≫= Post.imageUrls.
Proof.
  unfold imageTargets, groupedPosts.
  induction (Object_values groupMap) as [|g groups IH]; [done|].
  rewrite bind_cons, fmap_app, IH. simpl. rewrite bind_app. f_equal.
  destruct (imageTargetsOf_shape cfg g) as (dir & _ & -> & _).
  rewrite fmap_bind_inner. apply list_bind_ext; [|done].
  intros post. rewrite <-list_fmap_compose. apply list_fmap_id.
Qed.

Lemma filter_fmap_agree {A B C} (f : A → C) (g : B → C) (P : C → Prop)
    `{∀ x, Decision (P x)} (l : list A) (k : list B) :
  f <$> l = g <$> k →
  f <$> filter (fun x => P (f x)) l = g <$> filter (fun y => P (g y)) k.
Proof. intros Heq. by rewrite <-!filter_fmap_pre, Heq. Qed.

(** What a planner plans, from its targets. *)
Lemma plan_of_targets {T} (wrap : T → PayloadItem) (targets : list (T * string))
    fs step cs :
  Forall wellFormed cs →
  Forall (fun c => ∀ d, Payload.item (c.2 d) = Payload.item (c.2 0)) cs →
  (fun c => (Payload.item (c.2 0), c.1)) <$> cs
  = (fun t => (wrap t.1, t.2)) <$> targets →
  itemAndPath <$> payloads (planAll fs step cs emptyPlan)
  = (fun t => (wrap t.1, t.2)) <$> filter (fun t => t.2 ∉ fs) targets
  ∧ existingCount (planAll fs step cs emptyPlan)
    = length (filter (fun t => t.2 ∈ fs) targets).
Proof.
  intros Hwf Hitems Htargets.
  assert (cs.*1 = targets.*2) as Hpaths.
  { apply (f_equal (fmap snd)) in Htargets.
    by rewrite <-!list_fmap_compose in Htargets. }
  split.
  - rewrite (planAll_map itemAndPath (fun c => (Payload.item (c.2 0), c.1))).
    + simpl.
      exact (filter_fmap_agree
               (fun c : Candidate => (Payload.item (c.2 0), c.1))
               (fun t : T * string => (wrap t.1, t.2))
               (fun x : PayloadItem * string => x.2 ∉ fs) cs targets Htargets).
    + rewrite Forall_forall in Hwf, Hitems. apply Forall_forall.
      intros c Hc d. unfold itemAndPath.
      by rewrite (Hwf c Hc d), (Hitems c Hc d).
  - rewrite planAll_existing, Hpaths. simpl.
    by rewrite filter_fmap_pre, length_fmap.
Qed.

Lemma planMarkdownFiles_targets cfg groupMap (fs : FS) :
  ∃ pl, planMarkdownFiles cfg fs groupMap = Some pl
        ∧ itemAndPath <$> payloads pl
          = (fun t => (PostItem t.1, t.2))
              <$> filter (fun t => t.2 ∉ fs) (markdownTargets cfg groupMap)
        ∧ existingCount pl
          = length (filter (fun t => t.2 ∈ fs) (markdownTargets cfg groupMap)).
Proof.
  destruct (markdown_plan cfg groupMap) as (cs & Hall & Hwf & _ & Hplan).
  eexists. split; [apply Hplan|].
  apply plan_of_targets; [done| |by apply markdown_candidates_targets].
  by destruct (markdown_candidates_items cfg groupMap cs Hall).
Qed.

Lemma planImageFiles_targets cfg groupMap (fs : FS) :
  ∃ pl, planImageFiles cfg fs groupMap = Some pl
        ∧ itemAndPath <$> payloads pl
          = (fun t => (ImageItem t.1, t.2))
              <$> filter (fun t => t.2 ∉ fs) (imageTargets cfg groupMap)
        ∧ existingCount pl
          = length (filter (fun t => t.2 ∈ fs) (imageTargets cfg groupMap)).
Proof.
  destruct (image_plan cfg groupMap) as (cs & Hall & Hwf & _ & Hplan).
  eexists. split; [apply Hplan|].
  apply plan_of_targets; [done| |by apply image_candidates_targets].
  by destruct (image_candidates_items cfg groupMap cs Hall).
Qed.

(** The destinations of the payloads of a plan. *)
Lemma planned_paths_of_targets {T} (wrap : T → PayloadItem)
    (targets : list (T * string)) (fs : FS) pl :
  itemAndPath <$> payloads pl
  = (fun t => (wrap t.1, t.2)) <$> filter (fun t => t.2 ∉ fs) targets →
  plannedPaths pl = filter (fun d => d ∉ fs) targets.*2.
Proof.
  intros Heq. apply (f_equal (fmap snd)) in Heq.
  rewrite <-!list_fmap_compose in Heq. unfold plannedPaths.
  rewrite filter_fmap_pre. exact Heq.
Qed.

(** Planning again, once every planned destination exists. *)
Lemma replanning_targets {T} (wrap : T → PayloadItem)
    (targets : list (T * string)) (fs fs' : FS) pl pl' :
  itemAndPath <$> payloads pl
  = (fun t => (wrap t.1, t.2)) <$> filter (fun t => t.2 ∉ fs) targets →
  itemAndPath <$> payloads pl'
  = (fun t => (wrap t.1, t.2)) <$> filter (fun t => t.2 ∉ fs') targets →
  existingCount pl' = length (filter (fun t => t.2 ∈ fs') targets) →
  fs ⊆ fs' →
  (∀ payload, payload ∈ payloads pl → Payload.destinationPath payload ∈ fs') →
  payloads pl' = [] ∧ existingCount pl' = length targets.
Proof.
  intros Hpl Hpl' Hex Hsub Hwritten.
  assert (∀ t, t ∈ targets → t.2 ∈ fs') as Hall.
  { intros t Ht. destruct (decide (t.2 ∈ fs)) as [Hin|Hnin]; [by apply Hsub|].
    assert ((wrap t.1, t.2) ∈ itemAndPath <$> payloads pl) as Hplanned.
    { rewrite Hpl. apply list_elem_of_fmap. exists t. split; [done|].
      by apply list_elem_of_filter. }
    apply list_elem_of_fmap in Hplanned as (payload & Heq & Hpayload).
    injection Heq as _ ->. by apply Hwritten. }
  split.
  - apply (fmap_nil_inv itemAndPath). rewrite Hpl'.
    rewrite filter_none; [done|]. intros t Ht Hnot. by apply Hnot, Hall.
  - rewrite Hex. f_equal. by apply filter_all.
Qed.

(** What a run of the executor in which nothing is rejected leaves on a
    file system that loses no file. *)
Lemma executor_wrote mkdir fs_writeFile loadFunc schedule payloads (fs : FS)
    lines results fs1 lines1 :
  keepsFiles mkdir fs_writeFile →
  processPayloadsPromise mkdir fs_writeFile schedule payloads loadFunc fs lines
  = Some (results, fs1, lines1) →
  Forall (fun status => status = Fulfilled) results →
  fs ⊆ fs1
  ∧ ∀ payload, payload ∈ payloads → Payload.destinationPath payload ∈ fs1.
Proof.
  intros Hkeeps Hrun Hall. unfold processPayloadsPromise in Hrun.
  destruct (allSettled _) as [results'|] eqn:Hresults; [|done].
  simpl in Hrun. injection Hrun as -> <- _.
  destruct (run_written mkdir fs_writeFile loadFunc schedule payloads fs lines
              Hkeeps) as [Hsub Hdone].
  split; [done|].
  intros payload [i Hi]%list_elem_of_lookup.
  destruct (run_payload mkdir fs_writeFile loadFunc schedule payloads fs lines
              i payload Hi) as (stage & Hstage).
  destruct (allSettled_lookup _ _ _ _ _ Hresults Hstage)
    as (status & -> & Hstatus).
  rewrite (Forall_lookup_1 _ _ _ _ Hall Hstatus) in Hstage.
  by apply (Hdone i).
Qed.

(** C3: the planners go through the posts of the group map and through
    their image URLs, each with its destination.  Those whose destination
    exists are counted as already saved and get no payload; the others get
    one payload each, in order, so that no payload goes to a destination
    that exists.  When planning is run again on a file system that has kept
    what was there and has every destination planned by the first run, it
    plans no payload and counts every post (every image URL) as saved; such
    is the file system that the executor leaves when it has fulfilled every
    payload of the first run and the file system calls lose no file. *)
Theorem C3_existing_destinations_are_counted_not_planned (cfg : Config.t)
    (fs : FS) (groupMap : JsObject (list Post.t)) :
  ∃ md img,
    planMarkdownFiles cfg fs groupMap = Some md
    ∧ planImageFiles cfg fs groupMap = Some img
    ∧ (markdownTargets cfg groupMap).*1 = groupedPosts groupMap
    ∧ (imageTargets cfg groupMap).*1 = groupedPosts groupMap ≫= Post.imageUrls
    ∧ itemAndPath <$> payloads md
      = (fun t => (PostItem t.1, t.2))
          <$> filter (fun t => t.2 ∉ fs) (markdownTargets cfg groupMap)
    ∧ existingCount md
      = length (filter (fun t => t.2 ∈ fs) (markdownTargets cfg groupMap))
    ∧ itemAndPath <$> payloads img
      = (fun t => (ImageItem t.1, t.2))
          <$> filter (fun t => t.2 ∉ fs) (imageTargets cfg groupMap)
    ∧ existingCount img
      = length (filter (fun t => t.2 ∈ fs) (imageTargets cfg groupMap))
    ∧ (∀ payload, payload ∈ payloads md ++ payloads img →
                  Payload.destinationPath payload ∉ fs)
    ∧ (∀ fs' : FS,
         fs ⊆ fs' →
         (∀ payload, payload ∈ payloads md →
                     Payload.destinationPath payload ∈ fs') →
         ∃ md', planMarkdownFiles cfg fs' groupMap = Some md'
                ∧ payloads md' = []
                ∧ existingCount md' = length (groupedPosts groupMap))
    ∧ (∀ fs' : FS,
         fs ⊆ fs' →
         (∀ payload, payload ∈ payloads img →
                     Payload.destinationPath payload ∈ fs') →
         ∃ img', planImageFiles cfg fs' groupMap = Some img'
                 ∧ payloads img' = []
                 ∧ existingCount img'
                   = length (groupedPosts groupMap ≫= Post.imageUrls))
    ∧ (∀ mkdir fs_writeFile loadFunc schedule lines results fs1 lines1,
         keepsFiles mkdir fs_writeFile →
         processPayloadsPromise mkdir fs_writeFile schedule (payloads md)
           loadFunc fs lines
         = Some (results, fs1, lines1) →
         Forall (fun status => status = Fulfilled) results →
         ∃ md', planMarkdownFiles cfg fs1 groupMap = Some md'
                ∧ payloads md' = []
                ∧ existingCount md' = length (groupedPosts groupMap))
    ∧ (∀ mkdir fs_writeFile loadFunc schedule lines results fs1 lines1,
         keepsFiles mkdir fs_writeFile →
         processPayloadsPromise mkdir fs_writeFile schedule (payloads img)
           loadFunc fs lines
         = Some (results, fs1, lines1) →
         Forall (fun status => status = Fulfilled) results →
         ∃ img', planImageFiles cfg fs1 groupMap = Some img'
                 ∧ payloads img' = []
                 ∧ existingCount img'
                   = length (groupedPosts groupMap ≫= Post.imageUrls)).
Proof.
  destruct (planMarkdownFiles_targets cfg groupMap fs)
    as (md & Hmd & Hmdp & Hmde).
  destruct (planImageFiles_targets cfg groupMap fs)
    as (img & Himg & Himgp & Himge).
  assert (∀ fs' : FS,
            fs ⊆ fs' →
            (∀ payload, payload ∈ payloads md →
                        Payload.destinationPath payload ∈ fs') →
            ∃ md', planMarkdownFiles cfg fs' groupMap = Some md'
                   ∧ payloads md' = []
                   ∧ existingCount md' = length (groupedPosts groupMap))
    as Hmagain.
  { intros fs' Hsub Hwritten.
    destruct (planMarkdownFiles_targets cfg groupMap fs')
      as (md' & Hmd' & Hp' & He').
    exists md'. split; [done|].
    rewrite <-(markdownTargets_posts cfg), length_fmap.
    by apply (replanning_targets PostItem _ fs fs' md md'). }
  assert (∀ fs' : FS,
            fs ⊆ fs' →
            (∀ payload, payload ∈ payloads img →
                        Payload.destinationPath payload ∈ fs') →
            ∃ img', planImageFiles cfg fs' groupMap = Some img'
                    ∧ payloads img' = []
                    ∧ existingCount img'
                      = length (groupedPosts groupMap ≫= Post.imageUrls))
    as Hiagain.
  { intros fs' Hsub Hwritten.
    destruct (planImageFiles_targets cfg groupMap fs')
      as (img' & Himg' & Hp' & He').
    exists img'. split; [done|].
    rewrite <-(imageTargets_urls cfg), length_fmap.
    by apply (replanning_targets ImageItem _ fs fs' img img'). }
  exists md, img. do 2 (split; [done|]).
  split; [apply markdownTargets_posts|]. split; [apply imageTargets_urls|].
  do 4 (split; [done|]). split; [|split; [done|split; [done|split]]].
  - intros payload [Hin | Hin]%elem_of_app.
    + assert (Payload.destinationPath payload ∈ plannedPaths md) as Hd
        by (apply list_elem_of_fmap; by exists payload).
      rewrite (planned_paths_of_targets _ _ _ _ Hmdp) in Hd.
      by apply list_elem_of_filter in Hd as [Hd _].
    + assert (Payload.destinationPath payload ∈ plannedPaths img) as Hd
        by (apply list_elem_of_fmap; by exists payload).
      rewrite (planned_paths_of_targets _ _ _ _ Himgp) in Hd.
      by apply list_elem_of_filter in Hd as [Hd _].
  - intros mkdir fs_writeFile loadFunc schedule lines results fs1 lines1
      Hkeeps Hrun Hall.
    destruct (executor_wrote _ _ _ _ _ _ _ _ _ _ Hkeeps Hrun Hall)
      as [Hsub Hwritten].
    by apply Hmagain.
  - intros mkdir fs_writeFile loadFunc schedule lines results fs1 lines1
      Hkeeps Hrun Hall.
    destruct (executor_wrote _ _ _ _ _ _ _ _ _ _ Hkeeps Hrun Hall)
      as [Hsub Hwritten].
    by apply Hiagain.
Qed.

(** The two translations of the example: the executor writes both files,
    and planning again on what it leaves yields no payload and counts both
    posts as saved. *)
Lemma C3_witness :
  ∃ md results fs1 lines1,
    planMarkdownFiles Example.cfg ∅
      (groupMapOf Example.cfg Example.englishFirst) = Some md
    ∧ processPayloadsPromise Example.mkdir Example.fs_writeFile (sequential 2)
        (payloads md) (markdownLoader Example.cfg) ∅ []
      = Some (results, fs1, lines1)
    ∧ results = [Fulfilled; Fulfilled]
    ∧ ∃ md', planMarkdownFiles Example.cfg fs1
               (groupMapOf Example.cfg Example.englishFirst) = Some md'
             ∧ payloads md' = []
             ∧ existingCount md' = 2.
Proof.
  destruct (C3_existing_destinations_are_counted_not_planned Example.cfg ∅
              (groupMapOf Example.cfg Example.englishFirst))
    as (md & img & Hmd & _ & _ & _ & _ & _ & _ & _ & _ & _ & _ & Hagain & _).
  assert (planMarkdownFiles Example.cfg ∅
            (groupMapOf Example.cfg Example.englishFirst)
          = Some {| existingCount := 0; delay := 50;
                    payloads :=
                      [markdownPayload Example.english
                         "output/hello/index.en.md" 0;
                       markdownPayload Example.french
                         "output/hello/index.fr.md" 25] |}) as Hplan
    by reflexivity.
  rewrite Hplan in Hmd. injection Hmd as <-.
  eexists _, _, _, _. split; [reflexivity|]. split; [reflexivity|].
  split; [reflexivity|].
  eapply (Hagain Example.mkdir Example.fs_writeFile (markdownLoader Example.cfg)
            (sequential 2) [] [Fulfilled; Fulfilled]).
  - split; [|split].
    + intros fs dir. apply union_subseteq_r.
    + intros fs path data. apply union_subseteq_r.
    + intros fs path data _. apply elem_of_union_l, elem_of_singleton.
      reflexivity.
  - reflexivity.
  - repeat constructor.
Defined.

Lemma count_fmap {A B} (f : A → B) (P : B → Prop) `{∀ y, Decision (P y)}
    (l : list A) :
  length (filter (fun x => P (f x)) l) = length (filter P (f <$> l)).
Proof. by rewrite filter_fmap_pre, length_fmap. Qed.

Lemma count_of_targets {T} (targets : list (T * string)) (fs : FS) pl d :
  plannedPaths pl = filter (fun d => d ∉ fs) targets.*2 →
  d ∉ fs →
  length (filter (fun payload => Payload.destinationPath payload = d)
                 (payloads pl))
  = length (filter (fun t => t.2 = d) targets).
Proof.
  intros Hpaths Hd.
  transitivity (length (filter (fun x => x = d) (plannedPaths pl))).
  { exact (count_fmap Payload.destinationPath (fun x => x = d) (payloads pl)). }
  rewrite Hpaths, list_filter_filter.
  transitivity (length (filter (fun x => x = d) targets.*2)).
  { f_equal. apply list_filter_iff. intros x. split; [tauto|].
    by intros ->. }
  symmetry. exact (count_fmap snd (fun x => x = d) targets).
Qed.

Lemma markdownTargets_off cfg groupMap :
  Config.polylang cfg = false →
  (markdownTargets cfg groupMap).*2 = buildPostPath cfg <$> groupedPosts groupMap.
Proof.
  intros Hoff. unfold markdownTargets, groupedPosts.
  induction (Object_values groupMap) as [|g groups IH]; [done|].
  rewrite bind_cons, fmap_app, IH. simpl. rewrite fmap_app. f_equal.
  unfold markdownTargetsOf, markdownDestination. rewrite Hoff. simpl.
  rewrite (omap_total _ (fun post => (post, buildPostPath cfg post))) by done.
  by rewrite <-list_fmap_compose.
Qed.

Lemma buildPostPath_NoDup cfg (posts : list Post.t) :
  NoDup (Post.slug <$> posts) → NoDup (buildPostPath cfg <$> posts).
Proof.
  intros Hnd. induction posts as [|p posts IH]; [constructor|].
  rewrite fmap_cons in Hnd. apply NoDup_cons in Hnd as [Hp Hnd].
  rewrite fmap_cons. apply NoDup_cons. split; [|by apply IH].
  intros (q & Heq & Hq)%list_elem_of_fmap. apply Hp.
  apply list_elem_of_fmap. exists q. split; [|done].
  by apply (buildPostPath_slug cfg).
Qed.

(** C2, as the code has it: the planners plan one payload for every post,
    and for every image URL of every post, whose destination does not exist
    yet, and never drop one because another has the same destination: a
    destination that does not exist has as many payloads as posts (image
    URLs) that go to it.  So the payloads of a pass have pairwise distinct
    destinations when the destinations of the posts (image URLs) are
    pairwise distinct.  For Markdown files they are without translation
    mode when the slugs are, and two translations of a group with different
    languages have different destinations.  For images they need not be:
    the members of a translation group share one images folder, in which
    two URLs have the same destination exactly when they have the same
    file name. *)
Theorem C2_one_payload_per_destination_not_on_disk (cfg : Config.t) (fs : FS)
    (groupMap : JsObject (list Post.t)) :
  ∃ md img,
    planMarkdownFiles cfg fs groupMap = Some md
    ∧ planImageFiles cfg fs groupMap = Some img
    ∧ (markdownTargets cfg groupMap).*1 = groupedPosts groupMap
    ∧ (imageTargets cfg groupMap).*1 = groupedPosts groupMap ≫= Post.imageUrls
    ∧ itemAndPath <$> payloads md
      = (fun t => (PostItem t.1, t.2))
          <$> filter (fun t => t.2 ∉ fs) (markdownTargets cfg groupMap)
    ∧ itemAndPath <$> payloads img
      = (fun t => (ImageItem t.1, t.2))
          <$> filter (fun t => t.2 ∉ fs) (imageTargets cfg groupMap)
    ∧ (∀ d, d ∉ fs →
            length (filter (fun payload => Payload.destinationPath payload = d)
                           (payloads md))
            = length (filter (fun t => t.2 = d) (markdownTargets cfg groupMap)))
    ∧ (∀ d, d ∉ fs →
            length (filter (fun payload => Payload.destinationPath payload = d)
                           (payloads img))
            = length (filter (fun t => t.2 = d) (imageTargets cfg groupMap)))
    ∧ (NoDup (markdownTargets cfg groupMap).*2 → NoDup (plannedPaths md))
    ∧ (NoDup (imageTargets cfg groupMap).*2 → NoDup (plannedPaths img))
    ∧ (Config.polylang cfg = false →
       NoDup (Post.slug <$> groupedPosts groupMap) →
       NoDup (plannedPaths md))
    ∧ (∀ postsInGroup p q d,
         Config.polylang cfg = true → 1 < length postsInGroup →
         markdownDestination cfg postsInGroup p = Some d →
         markdownDestination cfg postsInGroup q = Some d →
         langOf p = langOf q)
    ∧ (∀ postsInGroup p q,
         Config.polylang cfg = true → 1 < length postsInGroup →
         imagesDir cfg postsInGroup p = imagesDir cfg postsInGroup q)
    ∧ (∀ dir url1 url2,
         path_join dir (getFilenameFromUrl url1)
         = path_join dir (getFilenameFromUrl url2)
         ↔ getFilenameFromUrl url1 = getFilenameFromUrl url2).
Proof.
  destruct (planMarkdownFiles_targets cfg groupMap fs)
    as (md & Hmd & Hmdp & _).
  destruct (planImageFiles_targets cfg groupMap fs)
    as (img & Himg & Himgp & _).
  pose proof (planned_paths_of_targets _ _ _ _ Hmdp) as Hmpaths.
  pose proof (planned_paths_of_targets _ _ _ _ Himgp) as Hipaths.
  exists md, img. do 2 (split; [done|]).
  split; [apply markdownTargets_posts|]. split; [apply imageTargets_urls|].
  do 2 (split; [done|]).
  split; [intros d Hd; by apply (count_of_targets _ fs)|].
  split; [intros d Hd; by apply (count_of_targets _ fs)|].
  split; [intros Hnd; rewrite Hmpaths; by apply NoDup_filter|].
  split; [intros Hnd; rewrite Hipaths; by apply NoDup_filter|].
  split.
  { intros Hoff Hnd. rewrite Hmpaths. apply NoDup_filter.
    rewrite markdownTargets_off by done. by apply buildPostPath_NoDup. }
  split.
  { intros g p q d Hon Hlen. unfold markdownDestination.
    rewrite Hon, (bool_decide_eq_true_2 _ Hlen). simpl.
    destruct (chooseBaseSlug g (Config.defaultLanguage cfg)) as [baseSlug|];
      [|done].
    destruct (head g) as [first|]; [|done]. simpl.
    intros [= <-] [= Heq]. symmetry. by eapply translationPath_lang. }
  split.
  { intros g p q Hon Hlen. unfold imagesDir.
    by rewrite Hon, (bool_decide_eq_true_2 _ Hlen). }
  intros dir url1 url2. split; [apply path_join_inj_r|by intros ->].
Qed.

(** The two untranslated posts of the example, without translation mode:
    their slugs differ, and so do the destinations of their payloads. *)
Lemma C2_witness :
  ∃ md,
    planMarkdownFiles Example.cfgOff ∅
      (groupMapOf Example.cfgOff Example.untranslated) = Some md
    ∧ plannedPaths md = ["output/about/index.md"; "output/contact/index.md"]
    ∧ NoDup (plannedPaths md).
Proof.
  destruct (C2_one_payload_per_destination_not_on_disk Example.cfgOff ∅
              (groupMapOf Example.cfgOff Example.untranslated))
    as (md & img & Hmd & _ & _ & _ & Hpayloads & _ & _ & _ & _ & _ & Hslugs & _).
  exists md. split; [exact Hmd|]. split.
  - apply (f_equal (fmap snd)) in Hpayloads.
    rewrite <-list_fmap_compose in Hpayloads. exact Hpayloads.
  - apply Hslugs; [reflexivity|].
    apply (bool_decide_unpack _). reflexivity.
Defined.
